(** * Educational Content Validator: the validation rules, embedded and verified

    A shallow embedding of [src/extension.js] and of the two rule modules it
    loads ([src/imageRule.js] and [src/markRule.js]), followed by the
    properties of the rules that the specification states.

    Conventions of the embedding.
    - A JavaScript string is a [string]: a sequence of code units, here the
      code units 0..255.  All patterns of the program are ASCII.
    - A JavaScript number that holds a count, an offset or a parsed run of
      digits is an [N], a [nat] or (where the source subtracts) a [Z].  The
      numbers of the source are doubles: the model follows them on the safe
      integers (up to 2^53 - 1) and does not follow their rounding and their
      exponent notation beyond.  The statements that depend on the value or
      on the digits of a number read from the text assume
      [Js.isSafeInteger] of it.
    - A regular expression literal is a value of type [regex]; [exec] and the
      [while ((match = re.exec(text)) !== null)] loop are the functions
      [exec] and [execAll], with [lastIndex] passed explicitly.
    - An array that the source passes around and pushes to ([diagnostics]) is
      threaded through the functions as a list.  The module [Objects] writes
      the pass once more over a store that holds the array and the
      expression objects with their [lastIndex], and the verification shows
      that the two agree.
    - What the host provides is a parameter: [document.positionAt] is a
      field of the document, and Node's [path.basename] and [path.parse] are
      the fields of a [PathModule], a variable of the sections that use
      them. *)

From Stdlib Require Import Ascii String ZArith Lia.
From stdpp Require Import base tactics option list strings numbers pretty sorting gmap.

Local Open Scope nat_scope.

(** ** Characters and strings *)

Module Js.

(** The double quote, which the patterns and messages of the program use. *)
Definition dq : string := String (ascii_of_nat 34) EmptyString.

Definition code (c : ascii) : nat := nat_of_ascii c.

Definition inRange (lo hi : nat) (c : ascii) : bool :=
  (lo <=? code c) && (code c <=? hi).

(** [\d], [\w], [\s] and the two negated classes of the patterns. *)
Definition isDigit (c : ascii) : bool := inRange 48 57 c.

Definition isWord (c : ascii) : bool :=
  inRange 65 90 c || inRange 97 122 c || isDigit c || (code c =? 95).

Definition isSpace (c : ascii) : bool :=
  inRange 9 13 c || (code c =? 32) || (code c =? 160).

Definition notGt (c : ascii) : bool := negb (code c =? 62).

Definition notDq (c : ascii) : bool := negb (code c =? 34).

(** Case folding of the [i] flag and of [toLowerCase], on the letters A-Z
    and a-z. *)
Definition toUpperChar (c : ascii) : ascii :=
  if inRange 97 122 c then ascii_of_nat (code c - 32) else c.

Definition toLowerChar (c : ascii) : ascii :=
  if inRange 65 90 c then ascii_of_nat (code c + 32) else c.

Fixpoint toLowerCase (s : string) : string :=
  match s with
  | EmptyString => EmptyString
  | String c s' => String (toLowerChar c) (toLowerCase s')
  end.

Definition charEq (ignoreCase : bool) (a b : ascii) : bool :=
  if ignoreCase then Ascii.eqb (toUpperChar a) (toUpperChar b) else Ascii.eqb a b.

(** [drop n s]: the suffix of [s] from offset [n]. *)
Fixpoint drop (n : nat) (s : string) : string :=
  match n, s with
  | 0, _ => s
  | S n', String _ s' => drop n' s'
  | S _, EmptyString => EmptyString
  end.

(** [s.substring(a, b)] for [a <= b]. *)
Definition substring (a b : nat) (s : string) : string :=
  String.substring a (b - a) s.

(** [s.startsWith(p)]. *)
Fixpoint startsWith (p s : string) : bool :=
  match p, s with
  | EmptyString, _ => true
  | String a p', String b s' => Ascii.eqb a b && startsWith p' s'
  | String _ _, EmptyString => false
  end.

(** [s.indexOf(p)]: the offset of the first occurrence, [None] for -1. *)
Fixpoint indexOfFrom (p s : string) (pos : nat) : option nat :=
  if startsWith p s then Some pos
  else match s with
       | EmptyString => None
       | String _ s' => indexOfFrom p s' (S pos)
       end.

Definition indexOf (s p : string) : option nat := indexOfFrom p s 0.

(** [s.includes(p)]. *)
Definition includes (s p : string) : bool :=
  match indexOf s p with Some _ => true | None => false end.

(** [s.endsWith(p)]. *)
Definition endsWith (s p : string) : bool :=
  (String.length p <=? String.length s) &&
  String.eqb (drop (String.length s - String.length p) s) p.

(** The safe integers: up to [Number.MAX_SAFE_INTEGER], 2^53 - 1, the
    doubles are the integers, a sum that stays in the range is exact,
    [parseInt] gives the number that the digits write and [String] prints the
    decimal digits of the number. *)
Definition maxSafeInteger : N := 9007199254740991.

Definition isSafeInteger (n : N) : bool := (n <=? maxSafeInteger)%N.

(** [parseInt(s, 10)] on a run of decimal digits that write a safe
    integer.  For a longer run the source has a double near the number (and
    ECMAScript leaves the digits after the 20th to the implementation),
    where this function has the number itself. *)
Definition digitValue (c : ascii) : N := N.of_nat (code c - 48).

Fixpoint parseDigits (acc : N) (s : string) : N :=
  match s with
  | EmptyString => acc
  | String c s' => parseDigits (10 * acc + digitValue c)%N s'
  end.

Definition parseInt (s : string) : N := parseDigits 0%N s.

(** [String(n)] and [`${n}`] on a safe integer: its decimal digits.  From
    10^21 on the source prints an exponent, where this function goes on
    with the digits. *)
Definition numberToString (n : N) : string := pretty n.

(** [s.padStart(2, '0')]. *)
Definition padStart2 (s : string) : string :=
  match String.length s with
  | 0 => "00"
  | 1 => "0" +:+ s
  | _ => s
  end.

End Js.

(** ** Regular expressions

    The patterns of the program are sequences of: literal words, character
    classes, greedy and lazy repetitions of a class, alternations of literal
    words, and capture groups around such items.  [run] is the backtracking
    matcher of the language: alternatives are tried left to right, a greedy
    repetition tries the longest run first, a lazy one the shortest. *)

Module Re.

Inductive atom : Type :=
  | Cls (p : ascii → bool)        (* one character of a class *)
  | Star (p : ascii → bool)       (* [p*] *)
  | StarLazy (p : ascii → bool)   (* [p*?] *)
  | Alt (ws : list string)        (* [(?:w1|w2|...)]; [Alt [w]] is the word [w] *)
  | Mark.                         (* a parenthesis of a capture group *)

Record regex : Type := Regex { atoms : list atom; ignoreCase : bool }.

(** [p+] is [p p*]. *)
Definition Plus (p : ascii → bool) : list atom := [Cls p; Star p].
Definition Word (w : string) : list atom := [Alt [w]].
Definition Group (l : list atom) : list atom := Mark :: l ++ [Mark].

(** The rest of [s] after the word [w], if [s] starts with it. *)
Fixpoint stripWord (ci : bool) (w s : string) : option string :=
  match w, s with
  | EmptyString, _ => Some s
  | String a w', String b s' =>
      if Js.charEq ci a b then stripWord ci w' s' else None
  | String _ _, EmptyString => None
  end.

(** What is left to match after an atom: a continuation that takes the rest
    of the text, its offset and the offsets of the group parentheses passed
    so far (latest first), and gives the end offset of the match. *)
Definition cont : Type := string → nat → list nat → option (nat * list nat).

(** [p*]: the longest run of [p] first, then shorter ones. *)
Fixpoint star (p : ascii → bool) (k : cont) (s : string) (pos : nat)
    (marks : list nat) : option (nat * list nat) :=
  match s with
  | String c s' =>
      if p c then
        match star p k s' (S pos) marks with
        | Some r => Some r
        | None => k s pos marks
        end
      else k s pos marks
  | EmptyString => k s pos marks
  end.

(** [p*?]: the shortest run of [p] first, then longer ones. *)
Fixpoint lazy (p : ascii → bool) (k : cont) (s : string) (pos : nat)
    (marks : list nat) : option (nat * list nat) :=
  match k s pos marks with
  | Some r => Some r
  | None =>
      match s with
      | String c s' => if p c then lazy p k s' (S pos) marks else None
      | EmptyString => None
      end
  end.

(** [(?:w1|w2|...)]: the words in order. *)
Fixpoint tryWords (ci : bool) (ws : list string) (k : cont) (s : string)
    (pos : nat) (marks : list nat) : option (nat * list nat) :=
  match ws with
  | [] => None
  | w :: ws' =>
      match stripWord ci w s with
      | Some s' =>
          match k s' (pos + String.length w) marks with
          | Some r => Some r
          | None => tryWords ci ws' k s pos marks
          end
      | None => tryWords ci ws' k s pos marks
      end
  end.

(** [run ci l s pos marks]: match the atoms [l] against [s], which is the
    text from offset [pos] on; the result is the end offset and the offsets
    of the group parentheses passed, latest first. *)
Fixpoint run (ci : bool) (l : list atom) : cont :=
  match l with
  | [] => λ _ pos marks, Some (pos, marks)
  | a :: rest =>
      let k := run ci rest in
      match a with
      | Cls p => λ s pos marks,
          match s with
          | String c s' => if p c then k s' (S pos) marks else None
          | EmptyString => None
          end
      | Star p => star p k
      | StarLazy p => lazy p k
      | Alt ws => tryWords ci ws k
      | Mark => λ s pos marks, k s pos (pos :: marks)
      end
  end.

(** The result of a successful [exec]: [match.index], [match[0]] and the
    captured groups [match[1]], [match[2]], ... *)
Record result : Type := Result {
  index : nat;
  matched : string;
  groups : list string
}.

Definition lastIndexOf (r : result) : nat := index r + String.length (matched r).

(** The parenthesis offsets, earliest first, paired into groups. *)
Fixpoint captures (text : string) (marks : list nat) : list string :=
  match marks with
  | a :: b :: marks' => Js.substring a b text :: captures text marks'
  | _ => []
  end.

Definition mkResult (text : string) (start : nat) (r : nat * list nat) : result :=
  Result start (Js.substring start (fst r) text) (captures text (rev (snd r))).

(** The leftmost match that starts at offset [pos] or later; [s] is the text
    from [pos] on. *)
Fixpoint search (re : regex) (text s : string) (pos : nat) : option result :=
  match run (ignoreCase re) (atoms re) s pos [] with
  | Some r => Some (mkResult text pos r)
  | None =>
      match s with
      | EmptyString => None
      | String _ s' => search re text s' (S pos)
      end
  end.

(** [re.exec(text)] with [re.lastIndex = lastIndex]. *)
Definition exec (re : regex) (text : string) (lastIndex : nat) : option result :=
  if lastIndex <=? String.length text then search re text (Js.drop lastIndex text) lastIndex
  else None.

(** The loop [while ((match = re.exec(text)) !== null) { ... }] of a global
    regex: the matches it visits, in order.  Each round moves [lastIndex] to
    the end of the match; [fuel] bounds the number of rounds. *)
Fixpoint execLoop (fuel : nat) (re : regex) (text : string) (lastIndex : nat)
    : list result :=
  match fuel with
  | 0 => []
  | S fuel' =>
      match exec re text lastIndex with
      | None => []
      | Some r => r :: execLoop fuel' re text (lastIndexOf r)
      end
  end.

Definition execAll (re : regex) (text : string) : list result :=
  execLoop (S (String.length text)) re text 0.

(** A lower bound on the length of every match of a list of atoms. *)
Definition minWord (ws : list string) : nat :=
  match ws with
  | [] => 0
  | w :: ws' => foldr (λ v m, Nat.min (String.length v) m) (String.length w) ws'
  end.

Definition minLenAtom (a : atom) : nat :=
  match a with
  | Cls _ => 1
  | Alt ws => minWord ws
  | _ => 0
  end.

Definition minLen (l : list atom) : nat :=
  foldr (λ a m, minLenAtom a + m) 0 l.

End Re.

(** ** The editor's data: positions, ranges, diagnostics, documents *)

Module vscode.

Record Position : Type := mkPosition { line : nat; character : nat }.

Definition isBefore (a b : Position) : bool :=
  (line a <? line b) || ((line a =? line b) && (character a <? character b)).

Definition isBeforeOrEqual (a b : Position) : bool :=
  (line a <? line b) || ((line a =? line b) && (character a <=? character b)).

Definition isAfterOrEqual (a b : Position) : bool := isBeforeOrEqual b a.

Record Range : Type := mkRange { start : Position; end_ : Position }.

(** [new vscode.Range(a, b)] orders its two ends. *)
Definition newRange (a b : Position) : Range :=
  if isBefore a b then mkRange a b else mkRange b a.

(** [range.contains(position)]. *)
Definition contains (r : Range) (p : Position) : bool :=
  isAfterOrEqual p (start r) && isBeforeOrEqual p (end_ r).

Inductive DiagnosticSeverity : Type := Error | Warning | Information | Hint.

(** The command URI that a diagnostic's [code.target] holds,
    [command:<commandId>?<arguments>], with the three arguments of the
    program's fix command kept apart: the document named, the range to
    replace and the replacement. *)
Record CommandUri : Type := mkCommandUri {
  commandId : string;
  argUri : string;
  argRange : Range;
  argText : string
}.

Record Code : Type := mkCode { value : string; target : CommandUri }.

Record Diagnostic : Type := mkDiagnostic {
  range : Range;
  message : string;
  severity : DiagnosticSeverity;
  source : string;
  code : option Code
}.

(** A text document: its text, its names, and the editor's conversion of an
    offset to a position. *)
Record TextDocument : Type := mkTextDocument {
  getText : string;
  fileName : string;
  uri : string;
  languageId : string;
  positionAt : Z → Position
}.

End vscode.

(** Node's [path] module, as far as the program uses it. *)
Record PathModule : Type := mkPathModule {
  basename : string → string;
  parseName : string → string   (* [path.parse(p).name] *)
}.

Import vscode.

Definition validatorSource : string := "Educational Validator".
Definition fixCommand : string := "educational-validator.fixIssue".

(** [match[i]] of a result, for [i >= 1]. *)
Definition group (i : nat) (m : Re.result) : string :=
  default "" (Re.groups m !! (i - 1)).

(** ** src/markRule.js *)

Module markRule.

Record Match : Type := mkMatch {
  fullMatch : string;
  points : N;
  term : string;
  index : nat
}.

(** [/<p\s+align="right"><b>\(Total for question\s*=\s*(\d+)\s*(mark|marks)\)<\/b><\/p>/gi] *)
Definition regex : Re.regex :=
  Re.Regex
    (Re.Word "<p" ++ Re.Plus Js.isSpace
     ++ Re.Word ("align=" +:+ Js.dq +:+ "right" +:+ Js.dq +:+ "><b>(Total for question")
     ++ [Re.Star Js.isSpace] ++ Re.Word "=" ++ [Re.Star Js.isSpace]
     ++ Re.Group (Re.Plus Js.isDigit)
     ++ [Re.Star Js.isSpace]
     ++ Re.Group [Re.Alt ["mark"; "marks"]]
     ++ Re.Word ")</b></p>")
    true.

Definition findTotalQuestionMarks (text : string) : list Match :=
  map (λ m, mkMatch (Re.matched m) (Js.parseInt (group 1 m))
                    (Js.toLowerCase (group 2 m)) (Re.index m))
      (Re.execAll regex text).

Definition isCorrectMarkUsage (points : N) (term : string) : bool :=
  ((points =? 1)%N && String.eqb term "mark")
  || ((1 <? points)%N && String.eqb term "marks").

Definition getMatchRange (document : TextDocument) (m : Match) : Range :=
  newRange (positionAt document (Z.of_nat (index m)))
           (positionAt document (Z.of_nat (index m + String.length (fullMatch m)))).

Definition getCorrectTerm (points : N) : string :=
  if (points =? 1)%N then "mark" else "marks".

Definition createCorrectedText (points : N) : string :=
  let term := getCorrectTerm points in
  "<p align=" +:+ Js.dq +:+ "right" +:+ Js.dq +:+ "><b>(Total for question = "
  +:+ Js.numberToString points +:+ " " +:+ term +:+ ")</b></p>".

Definition createDiagnostic (range : Range) (points : N) : Diagnostic :=
  let correctTerm := getCorrectTerm points in
  let correctText := createCorrectedText points in
  mkDiagnostic range
    ("Use " +:+ Js.dq +:+ correctTerm +:+ Js.dq +:+ " for "
     +:+ Js.numberToString points +:+ " point"
     +:+ (if (1 <? points)%N then "s" else ""))
    Warning
    validatorSource
    (Some (mkCode "fix-mark-marks"
             (mkCommandUri fixCommand "DOCUMENT_URI_PLACEHOLDER" range correctText))).

(** [validate(document, diagnostics)]: the array after the call. *)
Definition validate (document : TextDocument) (diagnostics : list Diagnostic)
    : list Diagnostic :=
  let text := getText document in
  let matches := findTotalQuestionMarks text in
  fold_left
    (λ diagnostics m,
       if negb (isCorrectMarkUsage (points m) (term m)) then
         diagnostics ++ [createDiagnostic (getMatchRange document m) (points m)]
       else diagnostics)
    matches diagnostics.

End markRule.

(** ** src/imageRule.js *)

Module imageRule.

Record Image : Type := mkImage {
  fullMatch : string;
  src : string;
  index : nat;
  hasScAttribute : bool
}.

(** The tail [=\x22...\x22] that the attribute patterns share; in the
    comments on patterns below, [\x22] stands for the double quote and a
    blank separates a star from a closing parenthesis. *)
Definition quoted (l : list Re.atom) : list Re.atom :=
  Re.Word ("=" +:+ Js.dq) ++ l ++ Re.Word Js.dq.

(** [/<img\s+[^>]*?src=\x22([^\x22]* )\x22[^>]*>/gi] *)
Definition srcRegex : Re.regex :=
  Re.Regex
    (Re.Word "<img" ++ Re.Plus Js.isSpace ++ [Re.StarLazy Js.notGt]
     ++ Re.Word "src" ++ quoted (Re.Group [Re.Star Js.notDq])
     ++ [Re.Star Js.notGt] ++ Re.Word ">")
    true.

(** [/<img\s+[^>]*?sc=\x22([^\x22]* )\x22[^>]*>/gi] *)
Definition scRegex : Re.regex :=
  Re.Regex
    (Re.Word "<img" ++ Re.Plus Js.isSpace ++ [Re.StarLazy Js.notGt]
     ++ Re.Word "sc" ++ quoted (Re.Group [Re.Star Js.notDq])
     ++ [Re.Star Js.notGt] ++ Re.Word ">")
    true.

Definition findAllImages (text : string) : list Image :=
  let images :=
    map (λ m, mkImage (Re.matched m) (group 1 m) (Re.index m) false)
        (Re.execAll srcRegex text) in
  images ++
    map (λ m, mkImage (Re.matched m) (group 1 m) (Re.index m) true)
        (Re.execAll scRegex text).

(** [/(\w+)_files\/(\d+)\.png/gi] *)
Definition filesRegex : Re.regex :=
  Re.Regex
    (Re.Group (Re.Plus Js.isWord) ++ Re.Word "_files/"
     ++ Re.Group (Re.Plus Js.isDigit) ++ Re.Word ".png")
    true.

(** The five patterns of [typoMatches], in the order of the array. *)
Definition typoTag (tag : string) : Re.regex :=
  Re.Regex
    (Re.Word tag ++ Re.Plus Js.isSpace
     ++ [Re.StarLazy Js.notGt; Re.Alt ["src"; "sc"]]
     ++ quoted [Re.Star Js.notDq])
    true.

Definition typoAttribute : Re.regex :=
  Re.Regex
    (Re.Word "<" ++ [Re.Star Js.isSpace] ++ Re.Word "img"
     ++ [Re.StarLazy Js.notGt; Re.Alt ["s"; "sr"; "rc"; "scr"]]
     ++ quoted [Re.Star Js.notDq])
    true.

Definition typoMatches : list Re.regex :=
  [ typoTag "<im";      (* /<im\s+[^>]*?(?:src|sc)=\x22[^\x22]*\x22/i *)
    typoTag "<imge";    (* /<imge\s+[^>]*?(?:src|sc)=\x22[^\x22]*\x22/i *)
    typoTag "<image";   (* /<image\s+[^>]*?(?:src|sc)=\x22[^\x22]*\x22/i *)
    typoTag "<i mg";    (* /<i mg\s+[^>]*?(?:src|sc)=\x22[^\x22]*\x22/i *)
    typoAttribute ].    (* /<\s*img[^>]*?(?:s|sr|rc|scr)=\x22[^\x22]*\x22/i *)

(** [set.add(x)] on a set kept in insertion order. *)
Definition setAdd (set : list string) (x : string) : list string :=
  if decide (x ∈ set) then set else set ++ [x].

(** The set [filesMatches] after the first loop of [findImageTagTypos]. *)
Definition filesMatches (text : string) : list string :=
  fold_left (λ set m, setAdd set (Re.matched m)) (Re.execAll filesRegex text) [].

(** The loop [for (const typoRegex of typoMatches)] up to its [break]: the
    first pattern of the list that matches the context, with its match. *)
Fixpoint firstTypo (patterns : list Re.regex) (contextText : string)
    : option Re.result :=
  match patterns with
  | [] => None
  | typoRegex :: rest =>
      match Re.exec typoRegex contextText 0 with
      | Some typoMatch => Some typoMatch
      | None => firstTypo rest contextText
      end
  end.

Definition correctTag (filePath : string) : string :=
  "<img src=" +:+ Js.dq +:+ filePath +:+ Js.dq +:+ ">".

Definition typoDiagnostic (document : TextDocument) (filePath : string)
    (startSearchIndex : Z) (typoMatch : Re.result) : Diagnostic :=
  let typoTagPosition := (startSearchIndex + Z.of_nat (Re.index typoMatch))%Z in
  let typoTagEndPosition :=
    (typoTagPosition + Z.of_nat (String.length (Re.matched typoMatch)))%Z in
  let range := newRange (positionAt document typoTagPosition)
                        (positionAt document typoTagEndPosition) in
  mkDiagnostic range
    ("Possible typo in image tag. Should be " +:+ correctTag filePath)
    Error
    validatorSource
    (Some (mkCode "fix-image-tag-typo"
             (mkCommandUri fixCommand (uri document) range (correctTag filePath)))).

Definition outsideTagDiagnostic (document : TextDocument) (filePath : string)
    (filePathIndex : Z) : Diagnostic :=
  mkDiagnostic
    (newRange (positionAt document (filePathIndex - 5)%Z)
              (positionAt document
                 (filePathIndex + Z.of_nat (String.length filePath) + 5)%Z))
    "File path found outside a proper <img> tag. Check for HTML syntax errors."
    Warning
    validatorSource
    None.

(** The text around the reference that is searched for a malformed tag. *)
Definition startSearchIndex (filePathIndex : Z) : Z := Z.max 0 (filePathIndex - 50).

Definition endSearchIndex (text filePath : string) (filePathIndex : Z) : Z :=
  Z.min (Z.of_nat (String.length text))
        (filePathIndex + Z.of_nat (String.length filePath) + 50).

Definition contextText (text filePath : string) (filePathIndex : Z) : string :=
  Js.substring (Z.to_nat (startSearchIndex filePathIndex))
               (Z.to_nat (endSearchIndex text filePath filePathIndex)) text.

Definition foundInCorrectTag (images : list Image) (filePath : string) : bool :=
  existsb (λ img, Js.includes (src img) filePath) images.

Definition covered (document : TextDocument) (diagnostics : list Diagnostic)
    (offset : Z) : bool :=
  existsb (λ d, contains (range d) (positionAt document offset)) diagnostics.

(** The body of [filesMatches.forEach(filePath => ...)]: the array
    [diagnostics] after the call for one path. *)
Definition checkFilePath (document : TextDocument) (text : string)
    (images : list Image) (diagnostics : list Diagnostic) (filePath : string)
    : list Diagnostic :=
  if foundInCorrectTag images filePath then diagnostics
  else
    match Js.indexOf text filePath with
    | None => diagnostics
    | Some i =>
        let filePathIndex := Z.of_nat i in
        let diagnostics :=
          match firstTypo typoMatches (contextText text filePath filePathIndex) with
          | Some typoMatch =>
              diagnostics ++
                [typoDiagnostic document filePath (startSearchIndex filePathIndex)
                   typoMatch]
          | None => diagnostics
          end in
        if negb (covered document diagnostics filePathIndex) then
          diagnostics ++ [outsideTagDiagnostic document filePath filePathIndex]
        else diagnostics
    end.

Definition findImageTagTypos (document : TextDocument) (text : string)
    (images : list Image) (diagnostics : list Diagnostic) : list Diagnostic :=
  let filesMatches := filesMatches text in
  if length filesMatches =? 0 then diagnostics
  else fold_left (checkFilePath document text images) filesMatches diagnostics.

Definition getMatchRange (document : TextDocument) (image : Image) : Range :=
  newRange (positionAt document (Z.of_nat (index image)))
           (positionAt document
              (Z.of_nat (index image + String.length (fullMatch image)))).

(** [s.replace(pattern, replacement)] with a string pattern: the first
    occurrence is replaced, and [$$], [$&], [$`] and [$'] in the replacement
    are expanded. *)
Fixpoint getSubstitution (matched before after replacement : string) : string :=
  match replacement with
  | EmptyString => EmptyString
  | String c r =>
      if Ascii.eqb c "$" then
        match r with
        | String d r' =>
            if Ascii.eqb d "$" then "$" +:+ getSubstitution matched before after r'
            else if Ascii.eqb d "&" then
              matched +:+ getSubstitution matched before after r'
            else if Ascii.eqb d "`" then
              before +:+ getSubstitution matched before after r'
            else if Ascii.eqb d "'" then
              after +:+ getSubstitution matched before after r'
            else String c (getSubstitution matched before after r)
        | EmptyString => String c EmptyString
        end
      else String c (getSubstitution matched before after r)
  end.

Definition replace (s pattern replacement : string) : string :=
  match Js.indexOf s pattern with
  | None => s
  | Some i =>
      let before := Js.substring 0 i s in
      let after := Js.drop (i + String.length pattern) s in
      before +:+ getSubstitution pattern before after replacement +:+ after
  end.

Section WithPath.

Variable path : PathModule.

Definition folderDiagnostic (document : TextDocument) (image : Image)
    (expectedFolderName : string) : Diagnostic :=
  let srcPath := src image in
  let range := getMatchRange document image in
  mkDiagnostic range
    ("Image source should be in " +:+ Js.dq +:+ expectedFolderName +:+ Js.dq
     +:+ " folder")
    Warning
    validatorSource
    (if negb (hasScAttribute image) then
       let imageName := basename path srcPath in
       let correctedSrc := expectedFolderName +:+ "/" +:+ imageName in
       let correctedTag := replace (fullMatch image) srcPath correctedSrc in
       Some (mkCode "fix-image-folder"
               (mkCommandUri fixCommand (uri document) range correctedTag))
     else None).

(** A string is truthy when it is not empty. *)
Definition truthy (s : string) : bool := negb (String.eqb s "").

Definition validateFolderNames (document : TextDocument) (images : list Image)
    (expectedFolderName : string) (diagnostics : list Diagnostic)
    : list Diagnostic :=
  fold_left
    (λ diagnostics image,
       let srcPath := src image in
       if truthy srcPath && negb (Js.includes srcPath expectedFolderName) then
         diagnostics ++ [folderDiagnostic document image expectedFolderName]
       else diagnostics)
    images diagnostics.

End WithPath.

(** [/\/(\d+)\./] *)
Definition numberRegex : Re.regex :=
  Re.Regex (Re.Word "/" ++ Re.Group (Re.Plus Js.isDigit) ++ Re.Word ".") false.

(** The number that the first loop of [validateImageNumbering] reads from an
    image's path, if the pattern matches. *)
Definition imageNumber (image : Image) : option N :=
  match Re.exec numberRegex (src image) 0 with
  | Some m => Some (Js.parseInt (group 1 m))
  | None => None
  end.

(** [imageNumbers] and [imageMap] after the first loop. *)
Definition collectNumbers (images : list Image) : list N * gmap N Image :=
  fold_left
    (λ acc image,
       match imageNumber image with
       | Some number => (acc.1 ++ [number], <[number := image]> (acc.2))
       | None => acc
       end)
    images ([], ∅).

(** The object [counts], as its properties in the order of their creation.
    A property's key is the string of the number, [String(num)]; the object
    is kept here with the numbers as keys, and the loop over
    [Object.entries(counts)] below gets each key as this string.
    [countsIncr] is [counts[num] = (counts[num] || 0) + 1]. *)
Fixpoint countsIncr (counts : list (N * N)) (num : N) : list (N * N) :=
  match counts with
  | [] => [(num, 1%N)]
  | (k, c) :: rest =>
      if (k =? num)%N then (k, (c + 1)%N) :: rest
      else (k, c) :: countsIncr rest num
  end.

(** [Object.entries(counts)]: the keys that are array indices (below
    2^32 - 1) in ascending order, then the other keys in the order of their
    creation. *)
Definition isArrayIndex (entry : N * N) : bool := (entry.1 <? 4294967295)%N.

Definition keyLe (a b : N * N) : Prop := (a.1 ≤ b.1)%N.

Global Instance keyLe_dec : RelDecision keyLe := λ a b, decide ((a.1 ≤ b.1)%N).

Definition objectEntries (counts : list (N * N)) : list (N * N) :=
  merge_sort keyLe (List.filter isArrayIndex counts)
  ++ List.filter (λ e, negb (isArrayIndex e)) counts.

Definition duplicateMessage (num : string) (count : N) : string :=
  "Duplicate image number: " +:+ num +:+ " is used "
  +:+ Js.numberToString count +:+ " times".

Definition duplicateDiagnostic (document : TextDocument) (image : Image)
    (num : string) (count : N) : Diagnostic :=
  mkDiagnostic (getMatchRange document image) (duplicateMessage num count)
    Error validatorSource None.

Definition startMessage (firstNumber : N) : string :=
  "Image numbering should start with 01, found "
  +:+ Js.padStart2 (Js.numberToString firstNumber).

Definition startDiagnostic (document : TextDocument) (image : Image)
    (firstNumber : N) : Diagnostic :=
  mkDiagnostic (getMatchRange document image) (startMessage firstNumber)
    Warning validatorSource None.

Definition sequenceMessage (previous currentNum : N) : string :=
  "Image numbering is not sequential. Expected "
  +:+ Js.padStart2 (Js.numberToString (previous + 1)) +:+ ", found "
  +:+ Js.padStart2 (Js.numberToString currentNum).

Definition sequenceDiagnostic (document : TextDocument) (image : Image)
    (previous currentNum : N) : Diagnostic :=
  mkDiagnostic (getMatchRange document image) (sequenceMessage previous currentNum)
    Warning validatorSource None.

(** The block [if (uniqueNumbers.size !== imageNumbers.length) { ... }]: in
    the loop over the entries [num] is the key, a string, which the message
    prints and [parseInt(num, 10)] reads to look the image up. *)
Definition checkDuplicates (document : TextDocument) (imageNumbers : list N)
    (imageMap : gmap N Image) (diagnostics : list Diagnostic) : list Diagnostic :=
  let uniqueNumbers : gset N := list_to_set imageNumbers in
  if negb (size uniqueNumbers =? length imageNumbers) then
    let counts := fold_left countsIncr imageNumbers [] in
    fold_left
      (λ diagnostics entry,
         let num := Js.numberToString entry.1 in
         let count := entry.2 in
         if (1 <? count)%N then
           match imageMap !! Js.parseInt num with
           | Some image =>
               diagnostics ++ [duplicateDiagnostic document image num count]
           | None => diagnostics
           end
         else diagnostics)
      (objectEntries counts) diagnostics
  else diagnostics.

(** The block [if (firstNumber !== 1) { ... }]. *)
Definition checkStart (document : TextDocument) (firstNumber : N)
    (imageMap : gmap N Image) (diagnostics : list Diagnostic) : list Diagnostic :=
  if negb (firstNumber =? 1)%N then
    match imageMap !! firstNumber with
    | Some image => diagnostics ++ [startDiagnostic document image firstNumber]
    | None => diagnostics
    end
  else diagnostics.

(** The loop [for (let i = 0; i < sortedNumbers.length; i++)] from [i = 1]
    on ([i = 0] does nothing): [previous] is [sortedNumbers[i-1]] and
    [rest] is [sortedNumbers] from [i] on.  The sum [previous + 1] is that of
    the source where [previous] is a safe integer. *)
Fixpoint checkSequence (document : TextDocument) (imageMap : gmap N Image)
    (previous : N) (rest : list N) (diagnostics : list Diagnostic)
    : list Diagnostic :=
  match rest with
  | [] => diagnostics
  | currentNum :: rest' =>
      checkSequence document imageMap currentNum rest'
        (if negb (currentNum =? previous + 1)%N then
           match imageMap !! currentNum with
           | Some image =>
               diagnostics ++ [sequenceDiagnostic document image previous currentNum]
           | None => diagnostics
           end
         else diagnostics)
  end.

Definition validateImageNumbering (document : TextDocument) (images : list Image)
    (diagnostics : list Diagnostic) : list Diagnostic :=
  let (imageNumbers, imageMap) := collectNumbers images in
  if length imageNumbers =? 0 then diagnostics
  else
    let sortedNumbers := merge_sort N.le imageNumbers in
    let diagnostics := checkDuplicates document imageNumbers imageMap diagnostics in
    match sortedNumbers with
    | [] => diagnostics
    | firstNumber :: rest =>
        let diagnostics := checkStart document firstNumber imageMap diagnostics in
        checkSequence document imageMap firstNumber rest diagnostics
    end.

Section Validate.

Variable path : PathModule.

Definition validate (document : TextDocument) (diagnostics : list Diagnostic)
    : list Diagnostic :=
  let text := getText document in
  let fileName := parseName path (fileName document) in
  let expectedFolderName := fileName +:+ "_files" in
  let images := findAllImages text in
  let diagnostics := findImageTagTypos document text images diagnostics in
  if length images =? 0 then diagnostics
  else
    let diagnostics :=
      validateFolderNames path document images expectedFolderName diagnostics in
    validateImageNumbering document images diagnostics.

End Validate.

End imageRule.

(** ** src/extension.js *)

Module extension.

Section WithPath.

Variable path : PathModule.

Definition isHtmlLike (document : TextDocument) : bool :=
  String.eqb (languageId document) "html"
  || String.eqb (languageId document) "php"
  || Js.endsWith (fileName document) ".html"
  || Js.endsWith (fileName document) ".htm".

(** The array [diagnostics] that [validateDocument] builds for an HTML-like
    document. *)
Definition runAllRules (document : TextDocument) : list Diagnostic :=
  let diagnostics := [] in
  let diagnostics := markRule.validate document diagnostics in
  imageRule.validate path document diagnostics.

(** [validateDocument(document, diagnosticsCollection)]: the collection,
    a map from document URIs to diagnostics, after the call. *)
Definition validateDocument (document : TextDocument)
    (diagnosticsCollection : gmap string (list Diagnostic))
    : gmap string (list Diagnostic) :=
  if negb (isHtmlLike document) then diagnosticsCollection
  else <[uri document := runAllRules document]> diagnosticsCollection.

End WithPath.

(** The edit that the command [educational-validator.fixIssue] makes from
    its three arguments, [edit.replace(vscode.Uri.parse(uri), range,
    newText)].  A [vscode.Uri] is kept as its string, and [Uri.parse] is the
    editor's: [parse s] stands for the string of [vscode.Uri.parse(s)]. *)
Record WorkspaceEdit : Type := mkWorkspaceEdit {
  editUri : string;
  editRange : Range;
  editText : string
}.

Definition fixIssue (parse : string → string) (uri : string) (range : Range)
    (newText : string) : WorkspaceEdit :=
  mkWorkspaceEdit (parse uri) range newText.

End extension.

(** ** A host for running the rules on examples

    A document over a text with LF line ends, and the POSIX [path] module. *)

Module Host.

Fixpoint positionOf (s : string) (n line col : nat) : Position :=
  match n, s with
  | S n', String c s' =>
      if Js.code c =? 10 then positionOf s' n' (S line) 0
      else positionOf s' n' line (S col)
  | _, _ => mkPosition line col
  end.

Definition document (fileName languageId text : string) : TextDocument :=
  mkTextDocument text fileName ("file://" +:+ fileName) languageId
    (λ offset, positionOf text (Z.to_nat (Z.max 0 offset)) 0 0).

(** The last non-empty segment of a path. *)
Fixpoint lastSegment (s current last : string) : string :=
  match s with
  | EmptyString => if String.eqb current "" then last else current
  | String c s' =>
      if Js.code c =? 47 then
        lastSegment s' "" (if String.eqb current "" then last else current)
      else lastSegment s' (current +:+ String c "") last
  end.

Definition posixBasename (p : string) : string := lastSegment p "" "".

(** The offset of the last dot of a name. *)
Fixpoint lastDot (s : string) (pos : nat) (found : option nat) : option nat :=
  match s with
  | EmptyString => found
  | String c s' => lastDot s' (S pos) (if Js.code c =? 46 then Some pos else found)
  end.

Definition posixParseName (p : string) : string :=
  let base := posixBasename p in
  match lastDot base 0 None with
  | None | Some 0 => base
  | Some i => if String.eqb base ".." then base else Js.substring 0 i base
  end.

Definition posix : PathModule := mkPathModule posixBasename posixParseName.

(** [vscode.Uri.parse] on the strings of the examples: a string with a
    scheme stands for itself, and one without a scheme is read as the path
    of a file. *)
Definition uriParse (s : string) : string :=
  if Js.includes s ":" then s
  else "file://" +:+ (if Js.startsWith "/" s then s else "/" +:+ s).

End Host.

(** ** Notions used in the statements *)

(** The numbers of the images that have one, in the order of the images. *)
Definition imageNumbers (images : list imageRule.Image) : list N :=
  omap imageRule.imageNumber images.

(** The last image of the list whose number is [id]. *)
Definition lastMatchWith (id : N) (images : list imageRule.Image)
    : option imageRule.Image :=
  last (filter (λ image, imageRule.imageNumber image = Some id) images).

(** How often [id] occurs among the numbers. *)
Definition occurrences (id : N) (ids : list N) : N :=
  N.of_nat (length (filter (λ x, x = id) ids)).

(** The text after the range from offset [a] to offset [b] is replaced by
    [replacement]: what applying a fix to the document does. *)
Definition replaceRange (text : string) (a b : nat) (replacement : string) : string :=
  Js.substring 0 a text +:+ replacement +:+ Js.drop b text.

(** Two documents that a validation pass cannot tell apart: the same text,
    the same names and the same positions. *)
Definition sameSnapshot (d1 d2 : TextDocument) : Prop :=
  getText d1 = getText d2
  ∧ fileName d1 = fileName d2
  ∧ uri d1 = uri d2
  ∧ ∀ offset, positionAt d1 offset = positionAt d2 offset.

(** A replacement text without the character [$], which [replace] inserts
    as it is. *)
Fixpoint noDollar (s : string) : bool :=
  match s with
  | EmptyString => true
  | String c s' => negb (Ascii.eqb c "$") && noDollar s'
  end.

(** A string of decimal digits. *)
Fixpoint digits (s : string) : bool :=
  match s with
  | EmptyString => true
  | String c s' => Js.isDigit c && digits s'
  end.

Global Instance severity_eq_dec : EqDecision DiagnosticSeverity.
Proof. solve_decision. Defined.

(** A continuation of the matcher that ends at least [n] characters on and
    inside the text. *)
Definition bounded (n : nat) (k : Re.cont) : Prop :=
  ∀ s pos marks e ms,
    k s pos marks = Some (e, ms) → pos + n ≤ e ∧ e ≤ pos + String.length s.

(** The value of the property [k] of the object [counts], 0 if it has none. *)
Fixpoint getCount (counts : list (N * N)) (k : N) : N :=
  match counts with
  | [] => 0
  | (k', c) :: rest => if (k' =? k)%N then c else getCount rest k
  end.

(** What the three checks of [validateImageNumbering] push, as lists. *)
Section Emitted.

Import imageRule.

Variable document : TextDocument.
Variable imageMap : gmap N Image.

Definition duplicatesOf (entry : N * N) : list Diagnostic :=
  if (1 <? entry.2)%N then
    match imageMap !! entry.1 with
    | Some image =>
        [duplicateDiagnostic document image (Js.numberToString entry.1) entry.2]
    | None => []
    end
  else [].

Definition duplicatesEmitted (imageNumbers : list N) : list Diagnostic :=
  if decide (NoDup imageNumbers) then []
  else concat (duplicatesOf <$> objectEntries (fold_left countsIncr imageNumbers [])).

Definition startEmitted (firstNumber : N) : list Diagnostic :=
  if decide (firstNumber = 1%N) then []
  else match imageMap !! firstNumber with
       | Some image => [startDiagnostic document image firstNumber]
       | None => []
       end.

Definition sequenceOf (previous currentNum : N) : list Diagnostic :=
  if decide (currentNum = (previous + 1)%N) then []
  else match imageMap !! currentNum with
       | Some image => [sequenceDiagnostic document image previous currentNum]
       | None => []
       end.

Fixpoint sequenceEmitted (previous : N) (rest : list N) : list Diagnostic :=
  match rest with
  | [] => []
  | currentNum :: rest' =>
      sequenceOf previous currentNum ++ sequenceEmitted currentNum rest'
  end.

End Emitted.

(** The corrected text for a number with the unit "marks", from the first
    digit [d] and the other digits [ds] of the number. *)
Definition marksText (d : ascii) (ds : string) : string :=
  "<p align=" +:+ Js.dq +:+ "right" +:+ Js.dq
  +:+ "><b>(Total for question = " +:+ String d ds +:+ " " +:+ "marks"
  +:+ ")</b></p>".

(** ** Documents for the examples *)

Module Examples.

Definition img (path : string) : string :=
  "<img src=" +:+ Js.dq +:+ path +:+ Js.dq +:+ ">".

Definition annotation (value unit : string) : string :=
  "<p align=" +:+ Js.dq +:+ "right" +:+ Js.dq
  +:+ "><b>(Total for question = " +:+ value +:+ " " +:+ unit +:+ ")</b></p>".

Definition lesson (text : string) : TextDocument :=
  Host.document "/courses/lesson5.html" "html" text.

(** Images numbered 1, 2, 2, 3. *)
Definition numbered : string :=
  img "lesson5_files/01.png" +:+ img "lesson5_files/02.png"
  +:+ img "lesson5_files/02.png" +:+ img "lesson5_files/03.png".

(** A tag with a missing letter. *)
Definition typo : string :=
  "<im src=" +:+ Js.dq +:+ "lesson5_files/01.png" +:+ Js.dq +:+ ">".

Definition filler : string :=
  "............................................................".


(** The same path outside any tag, twice, 60 characters apart. *)
Definition repeatedBare : string := "a_files/1.png" +:+ filler +:+ "a_files/1.png".

Definition bare : string := "see lesson5_files/07.png for the figure".

Definition wrongFolder : string := img "wrong_files/01.png".

Definition emptySrc : string := img "".

Definition noFinding : string :=
  img "lesson5_files/01.png" +:+ annotation "3" "marks".

End Examples.

(** ** The program over its objects

    The modules above give each function of the source as a function of the
    values that it is passed.  The source works on objects: a regular
    expression is an object whose [lastIndex] the method [exec] reads and
    writes, the array [diagnostics] is one object, made by
    [validateDocument], that the two rules push to, and the collection is an
    object of the editor.  This section writes the same functions over a
    store of these objects, statement by statement; the verification shows
    that they compute what the functions above say, whatever the store holds
    when they are called.

    What the language fixes is taken as the language fixes it: a [Set] is
    visited in the order of insertion ([imageRule.setAdd]),
    [Object.entries] gives the integer keys in ascending order and then the
    other keys in the order of their creation ([imageRule.objectEntries]),
    and a regular expression literal makes a new object, with [lastIndex]
    0, each time it is evaluated. *)

Module Objects.

(** A [RegExp] object: its pattern, its [g] flag and its [lastIndex]. *)
Record RegExp : Type := mkRegExp {
  pattern : Re.regex;
  global : bool;
  lastIndex : nat
}.

(** The store: the [RegExp] objects and the arrays of diagnostics, by
    address, and the content of the diagnostics collection. *)
Record Store : Type := mkStore {
  regexps : list RegExp;
  arrays : list (list Diagnostic);
  collection : gmap string (list Diagnostic)
}.

(** A computation that reads and writes the store. *)
Definition M (A : Type) : Type := Store → A * Store.

Definition ret {A : Type} (x : A) : M A := λ s, (x, s).

Definition bind {A B : Type} (m : M A) (k : A → M B) : M B :=
  λ s, let (x, s') := m s in k x s'.

Notation "'let*' x ':=' m 'in' k" := (bind m (λ x, k))
  (at level 10, x name, m at level 100, k at level 200).

Notation "m ';;' k" := (bind m (λ _, k))
  (at level 100, k at level 200, right associativity).

(** A regular expression literal. *)
Definition newRegExp (pattern : Re.regex) (global : bool) : M nat :=
  λ s, (length (regexps s),
        mkStore (regexps s ++ [mkRegExp pattern global 0]) (arrays s)
          (collection s)).

Definition setLastIndex (regex : nat) (lastIndex : nat) (s : Store) : Store :=
  mkStore (alter (λ o, mkRegExp (pattern o) (global o) lastIndex) regex (regexps s))
    (arrays s) (collection s).

(** [regex.exec(text)]: a global expression starts at its [lastIndex], and
    leaves it at the end of the match, or at 0 when there is none; another
    expression starts at 0 and leaves its [lastIndex] alone. *)
Definition exec (regex : nat) (text : string) : M (option Re.result) :=
  λ s, match regexps s !! regex with
       | Some o =>
           if global o then
             match Re.exec (pattern o) text (lastIndex o) with
             | Some m => (Some m, setLastIndex regex (Re.lastIndexOf m) s)
             | None => (None, setLastIndex regex 0 s)
             end
           else (Re.exec (pattern o) text 0, s)
       | None => (None, s)
       end.

(** The array literal [[]]. *)
Definition newArray : M nat :=
  λ s, (length (arrays s),
        mkStore (regexps s) (arrays s ++ [[]]) (collection s)).

(** [array.push(d)]. *)
Definition push (array : nat) (d : Diagnostic) : M unit :=
  λ s, (tt, mkStore (regexps s) (alter (λ l, l ++ [d]) array (arrays s))
              (collection s)).

(** The elements of an array, as [array.some] and the collection read
    them. *)
Definition elements (array : nat) : M (list Diagnostic) :=
  λ s, (default [] (arrays s !! array), s).

(** [diagnosticsCollection.set(uri, array)]. *)
Definition collectionSet (uri : string) (array : nat) : M unit :=
  λ s, (tt, mkStore (regexps s) (arrays s)
              (<[uri := default [] (arrays s !! array)]> (collection s))).

(** A loop over the elements of a list that carries the value [acc]:
    [forEach] with a closure that updates local variables. *)
Fixpoint foldM {A S : Type} (body : S → A → M S) (l : list A) (acc : S) : M S :=
  match l with
  | [] => ret acc
  | x :: l' => let* acc := body acc x in foldM body l' acc
  end.

Definition forEach {A : Type} (l : list A) (body : A → M unit) : M unit :=
  foldM (λ _ x, body x) l tt.

(** The loop [while ((match = regex.exec(text)) !== null) { ... }], whose
    body updates the local value [acc]; [fuel] bounds the number of
    rounds. *)
Fixpoint whileExec {S : Type} (fuel : nat) (regex : nat) (text : string)
    (body : S → Re.result → S) (acc : S) : M S :=
  match fuel with
  | 0 => ret acc
  | S fuel' =>
      let* m := exec regex text in
      match m with
      | None => ret acc
      | Some r => whileExec fuel' regex text body (body acc r)
      end
  end.

Module markRule.

Definition findTotalQuestionMarks (text : string) : M (list markRule.Match) :=
  let* regex := newRegExp markRule.regex true in
  whileExec (S (String.length text)) regex text
    (λ matches m,
       matches ++ [markRule.mkMatch (Re.matched m) (Js.parseInt (group 1 m))
                     (Js.toLowerCase (group 2 m)) (Re.index m)])
    [].

Definition validate (document : TextDocument) (diagnostics : nat) : M unit :=
  let text := getText document in
  let* matches := findTotalQuestionMarks text in
  forEach matches
    (λ m,
       if negb (markRule.isCorrectMarkUsage (markRule.points m) (markRule.term m))
       then
         let range := markRule.getMatchRange document m in
         let diagnostic := markRule.createDiagnostic range (markRule.points m) in
         push diagnostics diagnostic
       else ret tt).

End markRule.

Module imageRule.

Definition findAllImages (text : string) : M (list imageRule.Image) :=
  let* regex := newRegExp imageRule.srcRegex true in
  let* images :=
    whileExec (S (String.length text)) regex text
      (λ images m,
         images ++ [imageRule.mkImage (Re.matched m) (group 1 m) (Re.index m)
                      false])
      [] in
  let* scRegex := newRegExp imageRule.scRegex true in
  whileExec (S (String.length text)) scRegex text
    (λ images m,
       images ++ [imageRule.mkImage (Re.matched m) (group 1 m) (Re.index m) true])
    images.

(** The array literal [typoMatches]: five new objects. *)
Definition newTypoMatches : M (list nat) :=
  foldM (λ array pattern, let* regex := newRegExp pattern false in
                          ret (array ++ [regex]))
        imageRule.typoMatches [].

(** The loop [for (const typoRegex of typoMatches)] with its [break]. *)
Fixpoint forTypo (typoMatches : list nat) (contextText : string)
    (found : Re.result → M unit) : M unit :=
  match typoMatches with
  | [] => ret tt
  | typoRegex :: rest =>
      let* typoMatch := exec typoRegex contextText in
      match typoMatch with
      | Some typoMatch => found typoMatch
      | None => forTypo rest contextText found
      end
  end.

Definition findImageTagTypos (document : TextDocument) (text : string)
    (images : list imageRule.Image) (diagnostics : nat) : M unit :=
  let* filesRegex := newRegExp imageRule.filesRegex true in
  let* filesMatches :=
    whileExec (S (String.length text)) filesRegex text
      (λ filesMatches m, imageRule.setAdd filesMatches (Re.matched m)) [] in
  if length filesMatches =? 0 then ret tt
  else
    forEach filesMatches
      (λ filePath,
         let foundInCorrectTag :=
           existsb (λ img, Js.includes (imageRule.src img) filePath) images in
         if negb foundInCorrectTag then
           match Js.indexOf text filePath with
           | Some i =>
               let filePathIndex := Z.of_nat i in
               let startSearchIndex := Z.max 0 (filePathIndex - 50) in
               let endSearchIndex :=
                 Z.min (Z.of_nat (String.length text))
                   (filePathIndex + Z.of_nat (String.length filePath) + 50) in
               let contextText :=
                 Js.substring (Z.to_nat startSearchIndex)
                   (Z.to_nat endSearchIndex) text in
               let* typoMatches := newTypoMatches in
               forTypo typoMatches contextText
                 (λ typoMatch,
                    push diagnostics
                      (imageRule.typoDiagnostic document filePath
                         startSearchIndex typoMatch)) ;;
               let* pushed := elements diagnostics in
               if negb (existsb
                          (λ d, contains (range d)
                                  (positionAt document filePathIndex))
                          pushed)
               then
                 push diagnostics
                   (imageRule.outsideTagDiagnostic document filePath
                      filePathIndex)
               else ret tt
           | None => ret tt
           end
         else ret tt).

Section WithPath.

Variable path : PathModule.

Definition validateFolderNames (document : TextDocument)
    (images : list imageRule.Image) (expectedFolderName : string)
    (diagnostics : nat) : M unit :=
  forEach images
    (λ image,
       let srcPath := imageRule.src image in
       if imageRule.truthy srcPath
          && negb (Js.includes srcPath expectedFolderName)
       then
         push diagnostics
           (imageRule.folderDiagnostic path document image expectedFolderName)
       else ret tt).

End WithPath.

(** The first loop of [validateImageNumbering]: the expression literal in
    its body makes a new object for each image. *)
Definition collectNumbers (images : list imageRule.Image)
    : M (list N * gmap N imageRule.Image) :=
  foldM
    (λ acc image,
       let srcPath := imageRule.src image in
       let* regex := newRegExp imageRule.numberRegex false in
       let* m := exec regex srcPath in
       match m with
       | Some m =>
           let number := Js.parseInt (group 1 m) in
           ret (acc.1 ++ [number], <[number := image]> (acc.2))
       | None => ret acc
       end)
    images ([], ∅).

(** The block [if (uniqueNumbers.size !== imageNumbers.length) { ... }]. *)
Definition checkDuplicates (document : TextDocument) (imageNumbers : list N)
    (imageMap : gmap N imageRule.Image) (diagnostics : nat) : M unit :=
  let uniqueNumbers : gset N := list_to_set imageNumbers in
  if negb (size uniqueNumbers =? length imageNumbers) then
    let counts := fold_left imageRule.countsIncr imageNumbers [] in
    forEach (imageRule.objectEntries counts)
      (λ entry,
         let num := Js.numberToString entry.1 in
         let count := entry.2 in
         if (1 <? count)%N then
           match imageMap !! Js.parseInt num with
           | Some image =>
               push diagnostics
                 (imageRule.duplicateDiagnostic document image num count)
           | None => ret tt
           end
         else ret tt)
  else ret tt.

(** The block [if (firstNumber !== 1) { ... }]. *)
Definition checkStart (document : TextDocument) (firstNumber : N)
    (imageMap : gmap N imageRule.Image) (diagnostics : nat) : M unit :=
  if negb (firstNumber =? 1)%N then
    match imageMap !! firstNumber with
    | Some image =>
        push diagnostics (imageRule.startDiagnostic document image firstNumber)
    | None => ret tt
    end
  else ret tt.

(** The loop [for (let i = 0; i < sortedNumbers.length; i++)] from [i = 1]
    on, with [sortedNumbers[i-1]] carried along as [previous]. *)
Definition checkSequence (document : TextDocument)
    (imageMap : gmap N imageRule.Image) (firstNumber : N) (rest : list N)
    (diagnostics : nat) : M unit :=
  foldM
    (λ previous currentNum,
       (if negb (currentNum =? previous + 1)%N then
          match imageMap !! currentNum with
          | Some image =>
              push diagnostics
                (imageRule.sequenceDiagnostic document image previous
                   currentNum)
          | None => ret tt
          end
        else ret tt) ;;
       ret currentNum)
    rest firstNumber ;;
  ret tt.

Definition validateImageNumbering (document : TextDocument)
    (images : list imageRule.Image) (diagnostics : nat) : M unit :=
  let* numbered := collectNumbers images in
  let (imageNumbers, imageMap) := numbered in
  if length imageNumbers =? 0 then ret tt
  else
    let sortedNumbers := merge_sort N.le imageNumbers in
    checkDuplicates document imageNumbers imageMap diagnostics ;;
    match sortedNumbers with
    | [] => ret tt
    | firstNumber :: rest =>
        checkStart document firstNumber imageMap diagnostics ;;
        checkSequence document imageMap firstNumber rest diagnostics
    end.

Section Validate.

Variable path : PathModule.

Definition validate (document : TextDocument) (diagnostics : nat) : M unit :=
  let text := getText document in
  let fileName := parseName path (fileName document) in
  let expectedFolderName := fileName +:+ "_files" in
  let* images := findAllImages text in
  findImageTagTypos document text images diagnostics ;;
  if length images =? 0 then ret tt
  else
    validateFolderNames path document images expectedFolderName diagnostics ;;
    validateImageNumbering document images diagnostics.

End Validate.

End imageRule.

Module extension.

Section WithPath.

Variable path : PathModule.

Definition validateDocument (document : TextDocument) : M unit :=
  if negb (extension.isHtmlLike document) then ret tt
  else
    let* diagnostics := newArray in
    markRule.validate document diagnostics ;;
    imageRule.validate path document diagnostics ;;
    collectionSet (uri document) diagnostics.

End WithPath.

End extension.

(** The stores that differ from [s] only by new objects and by the
    elements of the array at the address [array], which are [after]. *)
Definition pushed (array : nat) (after : list Diagnostic) (s s' : Store) : Prop :=
  arrays s' = <[array := after]> (arrays s)
  ∧ collection s' = collection s
  ∧ regexps s `prefix_of` regexps s'.

(** The stores that differ from [s] only by new [RegExp] objects. *)
Definition extends (s s' : Store) : Prop :=
  arrays s' = arrays s
  ∧ collection s' = collection s
  ∧ regexps s `prefix_of` regexps s'.

End Objects.

(** ** Notions used in the further properties *)

(** A diagnostic as the rules of the program make them for a document: the
    validator's source, severity Error or Warning, and, where it carries a
    fix, the program's command over the diagnostic's own range, with the
    placeholder for the mark rule and the document's URI for the image
    rule. *)
Definition ownDiagnostic (document : TextDocument) (d : Diagnostic) : Prop :=
  source d = validatorSource
  ∧ (severity d = Error ∨ severity d = Warning)
  ∧ ∀ c, code d = Some c →
      commandId (target c) = fixCommand
      ∧ argRange (target c) = range d
      ∧ ((value c = "fix-mark-marks" ∧ severity d = Warning
          ∧ argUri (target c) = "DOCUMENT_URI_PLACEHOLDER")
         ∨ (value c = "fix-image-tag-typo" ∧ severity d = Error
            ∧ argUri (target c) = uri document)
         ∨ (value c = "fix-image-folder" ∧ severity d = Warning
            ∧ argUri (target c) = uri document)).

(** The numbers 1, 2, ..., [k]. *)
Definition oneTo (k : nat) : list N := N.of_nat <$> seq 1 k.

(** Every character of [s] is in the class [p]. *)
Fixpoint allChars (p : ascii → bool) (s : string) : bool :=
  match s with
  | EmptyString => true
  | String c s' => p c && allChars p s'
  end.

(** What a list of atoms matches, read off the pattern and not off the
    matcher: [sem ci l u pos marks] says that the atoms [l] match the whole
    of [u], which stands at offset [pos], with the group parentheses at the
    offsets [marks], earliest first. *)
Fixpoint sem (ci : bool) (l : list Re.atom) (u : string) (pos : nat)
    (marks : list nat) : Prop :=
  match l with
  | [] => u = "" ∧ marks = []
  | a :: rest =>
      match a with
      | Re.Cls p =>
          ∃ c u', u = String c u' ∧ p c = true ∧ sem ci rest u' (S pos) marks
      | Re.Star p | Re.StarLazy p =>
          ∃ v u', u = v +:+ u' ∧ allChars p v = true
                  ∧ sem ci rest u' (pos + String.length v) marks
      | Re.Alt ws =>
          ∃ w v u', w ∈ ws ∧ Re.stripWord ci w v = Some "" ∧ u = v +:+ u'
                    ∧ sem ci rest u' (pos + String.length v) marks
      | Re.Mark => ∃ marks', marks = pos :: marks' ∧ sem ci rest u pos marks'
      end
  end.

(** A continuation of the matcher that only accepts what the atoms [l]
    match. *)
Definition sound (ci : bool) (l : list Re.atom) (k : Re.cont) : Prop :=
  ∀ s pos marks e ms,
    k s pos marks = Some (e, ms) →
    ∃ u rest new,
      s = u +:+ rest ∧ e = pos + String.length u ∧ ms = rev new ++ marks
      ∧ sem ci l u pos new.

(** The characters of the model, in the order of their codes. *)
Definition allAscii : list ascii := ascii_of_nat <$> seq 0 256.

(** The text [u] is an annotation of the total of a question with the
    number [number] and the unit [unit], as the pattern of the mark rule
    describes it: letters in any case, white space where the pattern allows
    it. *)
Definition annotationText (u number unit : string) : Prop :=
  ∃ open sp1 attrs sp2 sp3 sp4 close,
    u = open +:+ sp1 +:+ attrs +:+ sp2 +:+ "=" +:+ sp3 +:+ number +:+ sp4
        +:+ unit +:+ close
    ∧ Js.toLowerCase open = "<p"
    ∧ allChars Js.isSpace sp1 = true ∧ sp1 ≠ ""
    ∧ Js.toLowerCase attrs
      = "align=" +:+ Js.dq +:+ "right" +:+ Js.dq +:+ "><b>(total for question"
    ∧ allChars Js.isSpace sp2 = true
    ∧ allChars Js.isSpace sp3 = true
    ∧ allChars Js.isDigit number = true ∧ number ≠ ""
    ∧ allChars Js.isSpace sp4 = true
    ∧ (Js.toLowerCase unit = "mark" ∨ Js.toLowerCase unit = "marks")
    ∧ Js.toLowerCase close = ")</b></p>".

(** The text [s] does not go on with a character of the class [p]. *)
Definition stopsAt (p : ascii → bool) (s : string) : bool :=
  match s with
  | EmptyString => true
  | String c _ => negb (p c)
  end.

(** One of the first [n] characters of [s] is a [<] that a letter P
    follows. *)
Fixpoint opensWithin (n : nat) (s : string) : bool :=
  match n, s with
  | S n', String c t =>
      (Ascii.eqb c "<" && match t with
                          | String b _ => Ascii.eqb (Js.toLowerChar b) "p"
                          | EmptyString => false
                          end)
      || opensWithin n' t
  | _, _ => false
  end.

(** The text [u] is an image tag whose attribute [name] holds the path
    [path], as the two attribute patterns of the image rule describe it. *)
Definition imageTag (name u path : string) : Prop :=
  ∃ tag sp a attr b,
    u = tag +:+ sp +:+ a +:+ attr +:+ "=" +:+ Js.dq +:+ path +:+ Js.dq
        +:+ b +:+ ">"
    ∧ Js.toLowerCase tag = "<img"
    ∧ allChars Js.isSpace sp = true ∧ sp ≠ ""
    ∧ allChars Js.notGt a = true
    ∧ Js.toLowerCase attr = name
    ∧ allChars Js.notDq path = true
    ∧ allChars Js.notGt b = true.

(** The list [l] is a scan of the text for the image tags with the
    attribute [name]: each of its matches carries the flag [flag], is the
    text at its offset and is an image tag with this attribute whose path is
    the match's [src]; the matches go from left to right without
    overlapping; and every image tag with this attribute in the text starts
    inside one of them. *)
Definition scanOf (name : string) (flag : bool) (text : string)
    (l : list imageRule.Image) : Prop :=
  Forall (λ image,
            imageRule.hasScAttribute image = flag
            ∧ imageTag name (imageRule.fullMatch image) (imageRule.src image)
            ∧ imageRule.index image + String.length (imageRule.fullMatch image)
              ≤ String.length text
            ∧ imageRule.fullMatch image
              = Js.substring (imageRule.index image)
                  (imageRule.index image
                   + String.length (imageRule.fullMatch image)) text) l
  ∧ StronglySorted
      (λ i1 i2, imageRule.index i1 + String.length (imageRule.fullMatch i1)
                ≤ imageRule.index i2) l
  ∧ ∀ pre u rest path,
      text = pre +:+ u +:+ rest → imageTag name u path →
      ∃ image,
        image ∈ l
        ∧ imageRule.index image ≤ String.length pre
        ∧ String.length pre
          < imageRule.index image + String.length (imageRule.fullMatch image).

(** ** Further documents for the examples *)

Module MoreExamples.

Import Examples.

(** Images numbered 2 and 4. *)
Definition gapped : string :=
  img "lesson5_files/02.png" +:+ img "lesson5_files/04.png".

(** An image whose path has no number. *)
Definition unnumbered : string := img "lesson5_files/cover.png".

(** A well-formed tag, and the path of another image outside any tag. *)
Definition nearTag : string := img "a_files/01.png" +:+ " and b_files/02.png".

(** An annotation with the wrong unit for its number. *)
Definition wrongUnit : string := annotation "3" "mark".

(** A document that is not HTML-like. *)
Definition notes : TextDocument := Host.document "/courses/notes.txt" "plaintext" "x".

End MoreExamples.

(** * Verification *)

(** ** Facts about strings *)

#[local] Arguments String.append !_ _ / : simpl nomatch.
#[local] Set Warnings "-clear-no-such-hyp".

Module JsFacts.

Lemma length_append (a b : string) :
  String.length (a +:+ b) = String.length a + String.length b.
Proof. induction a as [|c a IH]; simpl; [done | by rewrite IH]. Qed.

Lemma append_inv_head (a b c : string) : a +:+ b = a +:+ c → b = c.
Proof. induction a as [|x a IH]; simpl; [done | intros [= H]; auto]. Qed.

Lemma append_inv_tail (a b c : string) : a +:+ c = b +:+ c → a = b.
Proof.
  revert b. induction a as [|x a IH]; intros [|y b]; simpl; try done.
  - intros H. apply (f_equal String.length) in H. simpl in H.
    rewrite length_append in H. lia.
  - intros H. apply (f_equal String.length) in H. simpl in H.
    rewrite length_append in H. lia.
  - intros [= -> H]. f_equal. auto.
Qed.

Lemma length_drop (n : nat) (s : string) :
  String.length (Js.drop n s) = String.length s - n.
Proof. revert s. induction n as [|n IH]; intros [|c s]; simpl; auto. Qed.

Lemma drop_drop_1 (n : nat) (c : ascii) (s : string) (t : string) :
  Js.drop n s = String c t → Js.drop (S n) s = t.
Proof.
  revert s. induction n as [|n IH]; intros [|d s]; simpl; try done.
  - by intros [= _ ->].
  - apply IH.
Qed.

Lemma length_substring (a n : nat) (s : string) :
  a + n ≤ String.length s → String.length (String.substring a n s) = n.
Proof.
  revert a n. induction s as [|c s IH]; intros [|a] [|n]; simpl; try lia.
  - intros H. rewrite IH; lia.
  - intros H. apply (IH a 0). lia.
  - intros H. apply (IH a (S n)). lia.
Qed.

Lemma substring_drop (a n : nat) (s : string) :
  String.substring a n s = String.substring 0 n (Js.drop a s).
Proof.
  revert s. induction a as [|a IH]; intros [|c s]; simpl; try done.
  all: by destruct n.
Qed.

Lemma startsWith_substring (n : nat) (s : string) :
  Js.startsWith (String.substring 0 n s) s = true.
Proof.
  revert n. induction s as [|c s IH]; intros [|n]; simpl; try done.
  rewrite Ascii.eqb_refl. simpl. apply IH.
Qed.

(** [indexOf] finds an occurrence whenever there is one, and the first. *)
Lemma indexOfFrom_Some (p s : string) (pos i : nat) :
  Js.indexOfFrom p s pos = Some i →
  pos ≤ i ∧ Js.startsWith p (Js.drop (i - pos) s) = true.
Proof.
  revert pos. induction s as [|c s IH]; intros pos; simpl.
  - destruct (Js.startsWith p "") eqn:E; [|done]. intros [= <-].
    rewrite Nat.sub_diag. by simpl.
  - destruct (Js.startsWith p (String c s)) eqn:E.
    + intros [= <-]. rewrite Nat.sub_diag. by simpl.
    + intros H. apply IH in H as [H1 H2]. split; [lia|].
      replace (i - pos) with (S (i - S pos)) by lia. done.
Qed.

Lemma indexOfFrom_first (p s : string) (pos i : nat) :
  Js.indexOfFrom p s pos = Some i →
  ∀ j, j < i - pos → Js.startsWith p (Js.drop j s) = false.
Proof.
  revert pos. induction s as [|c s IH]; intros pos; simpl.
  - destruct (Js.startsWith p ""); [|done]. intros [= <-] j Hj. lia.
  - destruct (Js.startsWith p (String c s)) eqn:E.
    + intros [= <-] j Hj. lia.
    + intros H [|j] Hj; [done|]. simpl. apply (IH _ H). lia.
Qed.

(** [indexOf] gives the first occurrence. *)
Lemma indexOf_first (s p : string) (i : nat) :
  Js.indexOf s p = Some i →
  Js.startsWith p (Js.drop i s) = true
  ∧ ∀ j, j < i → Js.startsWith p (Js.drop j s) = false.
Proof.
  unfold Js.indexOf. intros H. split.
  - apply indexOfFrom_Some in H as [_ H]. by rewrite Nat.sub_0_r in H.
  - intros j Hj. apply (indexOfFrom_first _ _ _ _ H). lia.
Qed.

Lemma indexOfFrom_occurs (p s : string) (pos a : nat) :
  Js.startsWith p (Js.drop a s) = true →
  ∃ i, Js.indexOfFrom p s pos = Some i ∧ i ≤ pos + a.
Proof.
  revert s pos. induction a as [|a IH]; intros s pos H; simpl in H.
  - exists pos. split; [|lia]. destruct s; simpl; by rewrite H.
  - destruct s as [|c s].
    + exists pos. split; [|lia]. simpl. by rewrite H.
    + simpl. destruct (Js.startsWith p (String c s)).
      * exists pos. split; [done | lia].
      * destruct (IH s (S pos) H) as (i & Hi & Hle). exists i. split; [done | lia].
Qed.

Lemma indexOf_substring (a b : nat) (s : string) :
  ∃ i, Js.indexOf s (Js.substring a b s) = Some i ∧ i ≤ a.
Proof.
  unfold Js.indexOf, Js.substring.
  destruct (indexOfFrom_occurs (String.substring a (b - a) s) s 0 a) as (i & Hi & Hle).
  - rewrite substring_drop. apply startsWith_substring.
  - exists i. split; [done | lia].
Qed.

Lemma substring_0_append (a b : string) :
  String.substring 0 (String.length a) (a +:+ b) = a.
Proof. induction a as [|c a IH]; simpl; [by destruct b | by f_equal]. Qed.

Lemma substring_skip_append (a b : string) (i n : nat) :
  String.substring (String.length a + i) n (a +:+ b) = String.substring i n b.
Proof. induction a as [|c a IH]; simpl; [done | apply IH]. Qed.

Lemma drop_length (s : string) : Js.drop (String.length s) s = "".
Proof. induction s as [|c s IH]; simpl; [done | apply IH]. Qed.

Lemma substring_0_length (s : string) :
  String.substring 0 (String.length s) s = s.
Proof. induction s as [|c s IH]; simpl; [done | by f_equal]. Qed.

Lemma drop_append (a b : string) : Js.drop (String.length a) (a +:+ b) = b.
Proof. induction a as [|c a IH]; simpl; [by destruct b | done]. Qed.

End JsFacts.

(** ** Facts about the matcher *)

Module ReFacts.

Import Re.

Lemma stripWord_length (ci : bool) (w s s' : string) :
  stripWord ci w s = Some s' →
  String.length s = String.length w + String.length s'.
Proof.
  revert s. induction w as [|a w IH]; intros [|b s]; simpl; try done.
  - by intros [= <-].
  - by intros [= <-].
  - destruct (Js.charEq ci a b); [|done]. intros H. by rewrite (IH _ H).
Qed.

Lemma foldr_min_le_init (a : nat) (ws : list string) :
  foldr (λ v m, String.length v `min` m) a ws ≤ a.
Proof. induction ws as [|x ws IH]; simpl; lia. Qed.

Lemma foldr_min_le_elem (a : nat) (w : string) (ws : list string) :
  w ∈ ws → foldr (λ v m, String.length v `min` m) a ws ≤ String.length w.
Proof.
  induction ws as [|x ws IH]; simpl; [by intros ?%elem_of_nil|].
  intros [->|H]%elem_of_cons; [lia|]. specialize (IH H). lia.
Qed.

Lemma minWord_le (w : string) (ws : list string) :
  w ∈ ws → minWord ws ≤ String.length w.
Proof.
  destruct ws as [|v ws]; [by intros ?%elem_of_nil|]. simpl.
  intros [->|H]%elem_of_cons.
  - apply foldr_min_le_init.
  - by apply foldr_min_le_elem.
Qed.

Lemma star_bounded (p : ascii → bool) (n : nat) (k : cont) :
  bounded n k → bounded n (star p k).
Proof.
  intros Hk s. induction s as [|c s IH]; intros pos marks e ms; simpl.
  - apply Hk.
  - destruct (p c); [|apply Hk].
    destruct (star p k s (S pos) marks) as [[e' ms']|] eqn:E.
    + intros [= -> ->]. apply IH in E. lia.
    + apply Hk.
Qed.

Lemma lazy_bounded (p : ascii → bool) (n : nat) (k : cont) :
  bounded n k → bounded n (lazy p k).
Proof.
  intros Hk s. induction s as [|c s IH]; intros pos marks e ms; simpl.
  - destruct (k "" pos marks) as [[e' ms']|] eqn:E; [|done].
    intros [= -> ->]. by apply Hk in E.
  - destruct (k (String c s) pos marks) as [[e' ms']|] eqn:E.
    + intros [= -> ->]. by apply Hk in E.
    + destruct (p c); [|done]. intros H. apply IH in H. lia.
Qed.

Lemma tryWords_bounded (ci : bool) (ws : list string) (n : nat) (k : cont) :
  bounded n k → bounded (minWord ws + n) (tryWords ci ws k).
Proof.
  intros Hk s pos marks e ms.
  assert (∀ vs, (∀ v, v ∈ vs → minWord ws ≤ String.length v) →
    tryWords ci vs k s pos marks = Some (e, ms) →
    pos + (minWord ws + n) ≤ e ∧ e ≤ pos + String.length s) as Hgen.
  { induction vs as [|v vs IH]; intros Hvs; simpl; [done|].
    assert (minWord ws ≤ String.length v) by (apply Hvs; left).
    assert (∀ u, u ∈ vs → minWord ws ≤ String.length u)
      by (intros; apply Hvs; by right).
    destruct (stripWord ci v s) as [s'|] eqn:E; [|by apply IH].
    apply stripWord_length in E.
    destruct (k s' (pos + String.length v) marks) as [[e' ms']|] eqn:Ek;
      [|by apply IH].
    intros [= -> ->]. apply Hk in Ek. lia. }
  apply Hgen. intros v. apply minWord_le.
Qed.

Lemma run_bounded (ci : bool) (l : list atom) : bounded (minLen l) (run ci l).
Proof.
  induction l as [|a l IH]; simpl.
  - intros s pos marks e ms [= <- <-]. lia.
  - destruct a as [p|p|p|ws|]; simpl.
    + intros [|c s] pos marks e ms; [done|]. destruct (p c); [|done].
      intros H. apply IH in H. simpl. lia.
    + by apply star_bounded.
    + by apply lazy_bounded.
    + by apply tryWords_bounded.
    + intros s pos marks e ms H. by apply IH in H.
Qed.

(** What [search] and [exec] return: a match lies at or after the offset
    where the search starts, inside the text, and is at least as long as
    the pattern requires. *)
Lemma search_spec (re : regex) (text s : string) (pos : nat) (r : result) :
  s = Js.drop pos text → pos ≤ String.length text →
  search re text s pos = Some r →
  pos ≤ index r
  ∧ index r + minLen (atoms re) ≤ lastIndexOf r
  ∧ lastIndexOf r ≤ String.length text
  ∧ matched r = Js.substring (index r) (lastIndexOf r) text.
Proof.
  revert pos. induction s as [|c s IH]; intros pos Hs Hpos; simpl.
  - destruct (run _ _ _ _ _) as [[e ms]|] eqn:E; [|done].
    intros [= <-]. apply run_bounded in E. simpl in E.
    unfold lastIndexOf, mkResult; simpl. unfold Js.substring.
    assert (e = pos) as -> by lia.
    rewrite Nat.sub_diag. 
    assert (String.length (String.substring pos 0 text) = 0) as Hl.
    { apply JsFacts.length_substring. lia. }
    rewrite Hl, Nat.add_0_r, Nat.sub_diag. 
    split_and!; try lia; done.
  - destruct (run _ _ _ _ _) as [[e ms]|] eqn:E.
    + intros [= <-]. apply run_bounded in E. simpl in E.
      assert (String.length (Js.drop pos text) = S (String.length s)) as Hd
        by (by rewrite <-Hs).
      rewrite JsFacts.length_drop in Hd.
      unfold lastIndexOf, mkResult; simpl. unfold Js.substring.
      rewrite JsFacts.length_substring by lia.
      replace (pos + (e - pos)) with e by lia.
      replace (e - pos) with (e - pos) by lia. 
      split_and!; try lia. done.
    + intros H.
      assert (String.length (Js.drop pos text) = S (String.length s)) as Hd
        by (by rewrite <-Hs).
      rewrite JsFacts.length_drop in Hd.
      apply IH in H; [|symmetry; by eapply JsFacts.drop_drop_1|lia].
      destruct H as (? & ? & ? & ?). split_and!; try done; lia.
Qed.

Lemma exec_spec (re : regex) (text : string) (lastIndex : nat) (r : result) :
  exec re text lastIndex = Some r →
  lastIndex ≤ index r
  ∧ index r + minLen (atoms re) ≤ lastIndexOf r
  ∧ lastIndexOf r ≤ String.length text
  ∧ matched r = Js.substring (index r) (lastIndexOf r) text.
Proof.
  unfold exec. destruct (lastIndex <=? String.length text) eqn:E; [|done].
  apply Nat.leb_le in E. by apply search_spec.
Qed.

(** The matches of a global scan start at strictly increasing offsets, when
    no match of the pattern is empty. *)
Lemma execLoop_sorted (fuel : nat) (re : regex) (text : string) (lastIndex : nat) :
  1 ≤ minLen (atoms re) →
  Forall (λ r, lastIndex ≤ index r) (execLoop fuel re text lastIndex)
  ∧ StronglySorted lt (index <$> execLoop fuel re text lastIndex).
Proof.
  intros Hmin. revert lastIndex.
  induction fuel as [|fuel IH]; intros lastIndex; simpl.
  - split; constructor.
  - destruct (exec re text lastIndex) as [r|] eqn:E; [|split; constructor].
    apply exec_spec in E as (H1 & H2 & H3 & H4).
    destruct (IH (lastIndexOf r)) as [Hall Hsorted]. split.
    + constructor; [done|]. eapply Forall_impl; [exact Hall|]. simpl. lia.
    + simpl. constructor; [done|]. apply Forall_fmap.
      eapply Forall_impl; [exact Hall|]. simpl. lia.
Qed.

(** The scan stops because [exec] returns [null]: more rounds than
    [execAll] allows find the same matches. *)
Lemma execLoop_fuel (fuel : nat) (re : regex) (text : string) (lastIndex : nat) :
  1 ≤ minLen (atoms re) →
  String.length text < lastIndex + fuel →
  execLoop (S fuel) re text lastIndex = execLoop fuel re text lastIndex.
Proof.
  intros Hmin. revert lastIndex.
  induction fuel as [|fuel IH]; intros lastIndex Hlen.
  - simpl. destruct (exec re text lastIndex) as [r|] eqn:E; [|done].
    apply exec_spec in E. lia.
  - change (execLoop (S (S fuel)) re text lastIndex) with
      (match exec re text lastIndex with
       | None => []
       | Some r => r :: execLoop (S fuel) re text (lastIndexOf r)
       end).
    change (execLoop (S fuel) re text lastIndex) with
      (match exec re text lastIndex with
       | None => []
       | Some r => r :: execLoop fuel re text (lastIndexOf r)
       end).
    destruct (exec re text lastIndex) as [r|] eqn:E; [|done].
    apply exec_spec in E. f_equal. apply IH. lia.
Qed.

Lemma execAll_fuel (fuel : nat) (re : regex) (text : string) :
  1 ≤ minLen (atoms re) →
  String.length text < fuel →
  execLoop fuel re text 0 = execAll re text.
Proof.
  intros Hmin Hlen. unfold execAll.
  induction Hlen as [|fuel Hle IH]; [done|].
  rewrite execLoop_fuel; [done | done | simpl; lia].
Qed.

Lemma execAll_sorted (re : regex) (text : string) :
  1 ≤ minLen (atoms re) → StronglySorted lt (index <$> execAll re text).
Proof. intros H. by apply execLoop_sorted. Qed.

Lemma execLoop_spec (fuel : nat) (re : regex) (text : string) (lastIndex : nat) :
  Forall (λ r, lastIndexOf r ≤ String.length text
               ∧ matched r = Js.substring (index r) (lastIndexOf r) text)
         (execLoop fuel re text lastIndex).
Proof.
  revert lastIndex. induction fuel as [|fuel IH]; intros lastIndex; simpl.
  - constructor.
  - destruct (exec re text lastIndex) as [r|] eqn:E; [|constructor].
    apply exec_spec in E as (H1 & H2 & H3 & H4). constructor; [done|]. apply IH.
Qed.

(** The matcher, one atom at a time, on the way to a match. *)
Lemma run_word (ci : bool) (w : string) (rest : list atom) (s s' : string)
    (pos : nat) (marks : list nat) (r : nat * list nat) :
  stripWord ci w s = Some s' →
  run ci rest s' (pos + String.length w) marks = Some r →
  run ci (Alt [w] :: rest) s pos marks = Some r.
Proof. intros Hw Hk. simpl. by rewrite Hw, Hk. Qed.

Lemma run_second_word (ci : bool) (w1 w2 : string) (rest : list atom)
    (s s1 s2 : string) (pos : nat) (marks : list nat) (r : nat * list nat) :
  stripWord ci w1 s = Some s1 →
  run ci rest s1 (pos + String.length w1) marks = None →
  stripWord ci w2 s = Some s2 →
  run ci rest s2 (pos + String.length w2) marks = Some r →
  run ci (Alt [w1; w2] :: rest) s pos marks = Some r.
Proof. intros H1 Hk1 H2 Hk2. simpl. by rewrite H1, Hk1, H2, Hk2. Qed.

Lemma run_cls (ci : bool) (p : ascii → bool) (rest : list atom) (c : ascii)
    (s : string) (pos : nat) (marks : list nat) (r : nat * list nat) :
  p c = true →
  run ci rest s (S pos) marks = Some r →
  run ci (Cls p :: rest) (String c s) pos marks = Some r.
Proof. intros Hc Hk. simpl. by rewrite Hc. Qed.

Lemma run_star_stop (ci : bool) (p : ascii → bool) (rest : list atom)
    (c : ascii) (s : string) (pos : nat) (marks : list nat) :
  p c = false →
  run ci (Star p :: rest) (String c s) pos marks
  = run ci rest (String c s) pos marks.
Proof. intros Hc. simpl. by rewrite Hc. Qed.

Lemma run_star_step (ci : bool) (p : ascii → bool) (rest : list atom)
    (c : ascii) (s : string) (pos : nat) (marks : list nat) (r : nat * list nat) :
  p c = true →
  run ci (Star p :: rest) s (S pos) marks = Some r →
  run ci (Star p :: rest) (String c s) pos marks = Some r.
Proof. intros Hc Hk. simpl in *. by rewrite Hc, Hk. Qed.

Lemma run_mark (ci : bool) (rest : list atom) (s : string) (pos : nat)
    (marks : list nat) :
  run ci (Mark :: rest) s pos marks = run ci rest s pos (pos :: marks).
Proof. done. Qed.

Lemma execLoop_S (fuel : nat) (re : regex) (text : string) (lastIndex : nat) :
  execLoop (S fuel) re text lastIndex
  = match exec re text lastIndex with
    | None => []
    | Some r => r :: execLoop fuel re text (lastIndexOf r)
    end.
Proof. done. Qed.

End ReFacts.

(** ** The mark rule *)

(** C1. [isCorrectMarkUsage(n, unit)] is true exactly when [n] is 1 and the
    unit is "mark", or [n] is more than 1 and the unit is "marks"; this holds
    for every string [unit], so for the two units of the pattern; with
    [n = 0] it is false for both units. *)
Theorem isCorrectMarkUsage_iff :
  (∀ (n : N) (unit : string),
     markRule.isCorrectMarkUsage n unit = true
     ↔ (n = 1%N ∧ unit = "mark") ∨ ((1 < n)%N ∧ unit = "marks"))
  ∧ markRule.isCorrectMarkUsage 0 "mark" = false
  ∧ markRule.isCorrectMarkUsage 0 "marks" = false.
Proof.
  split; [|done]. intros n unit. unfold markRule.isCorrectMarkUsage.
  rewrite orb_true_iff, !andb_true_iff, N.eqb_eq, N.ltb_lt, !String.eqb_eq.
  done.
Qed.

(** ** The image rule: the order of the matches *)

(** No pattern that the program scans a text with matches the empty string,
    so each scan ends because [exec] returns [null]. *)
Lemma srcRegex_nonempty : 1 ≤ Re.minLen (Re.atoms imageRule.srcRegex).
Proof. vm_compute. lia. Qed.

Lemma scRegex_nonempty : 1 ≤ Re.minLen (Re.atoms imageRule.scRegex).
Proof. vm_compute. lia. Qed.

Lemma filesRegex_nonempty : 1 ≤ Re.minLen (Re.atoms imageRule.filesRegex).
Proof. vm_compute. lia. Qed.

Lemma markRegex_nonempty : 1 ≤ Re.minLen (Re.atoms markRule.regex).
Proof. vm_compute. lia. Qed.

Lemma scans_complete (re : Re.regex) (text : string) (fuel : nat) :
  re ∈ [markRule.regex; imageRule.srcRegex; imageRule.scRegex;
         imageRule.filesRegex] →
  String.length text < fuel →
  Re.execLoop fuel re text 0 = Re.execAll re text.
Proof.
  intros Hre Hfuel. apply ReFacts.execAll_fuel; [|done].
  repeat (apply elem_of_cons in Hre as [->|Hre]);
    [apply markRegex_nonempty | apply srcRegex_nonempty
    | apply scRegex_nonempty | apply filesRegex_nonempty
    | by apply elem_of_nil in Hre].
Qed.

(** ** Numbers and their digits *)

Lemma digitValue_pretty_N_char (d : N) :
  (d < 10)%N → Js.digitValue (pretty_N_char d) = d.
Proof.
  intros Hd.
  assert (d = 0 ∨ d = 1 ∨ d = 2 ∨ d = 3 ∨ d = 4 ∨ d = 5 ∨ d = 6 ∨ d = 7
          ∨ d = 8 ∨ d = 9)%N as H by lia.
  repeat (destruct H as [->|H]; [done|]). by subst.
Qed.

Lemma parseDigits_pretty_N_go (x : N) (s : string) :
  Js.parseDigits 0 (pretty_N_go x s) = Js.parseDigits x s.
Proof.
  revert s. induction (N.lt_wf_0 x) as [x _ IH]; intros s.
  destruct (decide (x = 0)%N) as [->|Hx]; [done|].
  rewrite pretty_N_go_step by lia.
  rewrite IH by (apply N.div_lt; lia). simpl.
  rewrite digitValue_pretty_N_char by (apply N.mod_lt; lia).
  f_equal. rewrite (N.div_mod x 10) at 3 by lia. lia.
Qed.

(** [parseInt] reads back what [String] prints (of the source, this is so
    for the safe integers). *)
Lemma parseInt_numberToString (n : N) : Js.parseInt (Js.numberToString n) = n.
Proof.
  unfold Js.parseInt, Js.numberToString, pretty, pretty_N.
  destruct (decide (n = 0)%N) as [->|Hn]; [done|].
  by rewrite parseDigits_pretty_N_go.
Qed.

(** ** The image rule: numbering *)

Module NumberingFacts.

Import imageRule.

(** *** The first loop *)

Lemma collectNumbers_gen (images : list Image) (ns : list N) (m : gmap N Image) :
  ∃ m',
    fold_left
      (λ acc image,
         match imageNumber image with
         | Some number => (acc.1 ++ [number], <[number := image]> (acc.2))
         | None => acc
         end)
      images (ns, m) = (ns ++ imageNumbers images, m')
    ∧ ∀ id, m' !! id = match lastMatchWith id images with
                       | Some image => Some image
                       | None => m !! id
                       end.
Proof.
  revert ns m. induction images as [|image images IH]; intros ns m; simpl.
  - exists m. by rewrite app_nil_r.
  - unfold imageNumbers, lastMatchWith. simpl.
    destruct (imageNumber image) as [number|] eqn:E; simpl.
    + destruct (IH (ns ++ [number]) (<[number := image]> m)) as (m' & -> & Hm').
      exists m'. split; [by rewrite <-app_assoc|].
      intros id. rewrite Hm'. unfold lastMatchWith.
      rewrite filter_cons.
      destruct (decide (imageNumber image = Some id)) as [Heq|Hne].
      * assert (number = id) as -> by congruence.
        destruct (filter _ images) as [|x l] eqn:Ef; simpl.
        -- by rewrite lookup_insert_eq.
        -- destruct (last (x :: l)) eqn:El; [done|]. by apply last_None in El.
      * destruct (last (filter _ images)); [done|].
        rewrite lookup_insert_ne; [done | congruence].
    + destruct (IH ns m) as (m' & -> & Hm'). exists m'. split; [done|].
      intros id. rewrite Hm'. unfold lastMatchWith.
      rewrite filter_cons.
      destruct (decide (imageNumber image = Some id)); [congruence | done].
Qed.

Lemma collectNumbers_spec (images : list Image) :
  ∃ imageMap,
    collectNumbers images = (imageNumbers images, imageMap)
    ∧ ∀ id, imageMap !! id = lastMatchWith id images.
Proof.
  destruct (collectNumbers_gen images [] ∅) as (m & Hm & Hl).
  exists m. split; [done|]. intros id. rewrite Hl, lookup_empty.
  by destruct (lastMatchWith id images).
Qed.

Lemma lastMatchWith_is_Some (id : N) (images : list Image) :
  id ∈ imageNumbers images → is_Some (lastMatchWith id images).
Proof.
  unfold imageNumbers, lastMatchWith.
  intros (image & Hin & Hid)%list_elem_of_omap.
  destruct (filter _ images) as [|x l] eqn:E.
  - assert (image ∈ filter (λ image, imageNumber image = Some id) images) as H
      by (by apply list_elem_of_filter).
    rewrite E in H. by apply elem_of_nil in H.
  - destruct (last (x :: l)) eqn:El; [by eexists|].
    by apply last_None in El.
Qed.

Lemma occurrences_pos (id : N) (ids : list N) :
  (0 < occurrences id ids)%N ↔ id ∈ ids.
Proof.
  unfold occurrences. induction ids as [|x ids IH]; simpl.
  - split; [lia | by intros ?%elem_of_nil].
  - rewrite filter_cons. destruct (decide (x = id)) as [->|Hne]; simpl.
    + split; [by left | lia].
    + rewrite IH, elem_of_cons. split; [by right|]. by intros [?|?].
Qed.

(** *** The object [counts] *)

Lemma getCount_countsIncr (counts : list (N * N)) (x k : N) :
  getCount (countsIncr counts x) k
  = if decide (k = x) then (getCount counts k + 1)%N else getCount counts k.
Proof.
  induction counts as [|[k' c] counts IH]; simpl.
  - destruct (N.eqb_spec x k), (decide (k = x)); simpl; congruence || lia.
  - destruct (N.eqb_spec k' x) as [->|Hne]; simpl.
    + destruct (N.eqb_spec x k), (decide (k = x)); simpl; congruence || lia.
    + destruct (N.eqb_spec k' k) as [->|Hne'].
      * destruct (decide (k = x)); simpl; congruence || lia.
      * done.
Qed.

Lemma keys_countsIncr (counts : list (N * N)) (x : N) :
  (countsIncr counts x).*1 = if decide (x ∈ counts.*1) then counts.*1
                             else counts.*1 ++ [x].
Proof.
  induction counts as [|[k' c] counts IH].
  - rewrite decide_False; [done | apply not_elem_of_nil].
  - cbn [countsIncr]. destruct (N.eqb_spec k' x) as [->|Hne].
    + rewrite decide_True; [done | left].
    + rewrite fmap_cons, IH, fmap_cons. cbn [fst].
      destruct (decide (x ∈ counts.*1)) as [Hin|Hnin].
      * rewrite decide_True; [done | by right].
      * rewrite decide_False; [done|].
        intros [?|?]%elem_of_cons; congruence.
Qed.

Lemma counts_spec (ids : list N) :
  let counts := fold_left countsIncr ids [] in
  NoDup counts.*1
  ∧ (∀ k, k ∈ counts.*1 ↔ k ∈ ids)
  ∧ (∀ k, getCount counts k = occurrences k ids).
Proof.
  simpl. induction ids as [|x ids IH] using rev_ind.
  - simpl. split_and!; [constructor | done | done].
  - rewrite fold_left_app. simpl. destruct IH as (Hnd & Hkeys & Hcount).
    split_and!.
    + rewrite keys_countsIncr. destruct (decide _) as [|Hnin]; [done|].
      apply NoDup_app. split_and!; [done | | apply NoDup_singleton].
      intros k Hk ->%list_elem_of_singleton. done.
    + intros k. rewrite keys_countsIncr, elem_of_app, list_elem_of_singleton.
      destruct (decide _) as [Hin|Hnin].
      * rewrite Hkeys. split; [by left|]. intros [?| ->]; [done|]. by apply Hkeys.
      * rewrite elem_of_app, list_elem_of_singleton, Hkeys. done.
    + intros k. rewrite getCount_countsIncr, Hcount. unfold occurrences.
      rewrite filter_app, length_app, filter_cons, filter_nil.
      destruct (decide (k = x)) as [->|Hne].
      * rewrite decide_True by done. simpl. lia.
      * rewrite decide_False by done. simpl. f_equal. lia.
Qed.

Lemma elem_of_counts (counts : list (N * N)) (k c : N) :
  NoDup counts.*1 → (k, c) ∈ counts → getCount counts k = c.
Proof.
  induction counts as [|[k' c'] counts IH]; simpl.
  - by intros _ ?%elem_of_nil.
  - intros [Hnin Hnd]%NoDup_cons [[= -> ->]|Hin]%elem_of_cons.
    + by rewrite N.eqb_refl.
    + destruct (N.eqb_spec k' k) as [->|Hne]; [|by apply IH].
      destruct Hnin. apply list_elem_of_fmap. by exists (k, c).
Qed.

Lemma getCount_elem_of (counts : list (N * N)) (k : N) :
  k ∈ counts.*1 → (k, getCount counts k) ∈ counts.
Proof.
  induction counts as [|[k' c'] counts IH]; simpl.
  - by intros ?%elem_of_nil.
  - destruct (N.eqb_spec k' k) as [->|Hne]; [by left|].
    intros [?|Hin]%elem_of_cons; [done|]. right. by apply IH.
Qed.

(** *** [Object.entries] keeps the properties *)

Lemma filter_partition_Permutation {A : Type} (p : A → bool) (l : list A) :
  List.filter p l ++ List.filter (λ x, negb (p x)) l ≡ₚ l.
Proof.
  induction l as [|x l IH]; simpl; [done|].
  destruct (p x); simpl.
  - by constructor.
  - rewrite <-Permutation_middle. by constructor.
Qed.

Lemma objectEntries_Permutation (counts : list (N * N)) :
  objectEntries counts ≡ₚ counts.
Proof.
  unfold objectEntries. rewrite merge_sort_Permutation.
  apply filter_partition_Permutation.
Qed.

(** *** Messages tell the numbers apart *)

Lemma pretty_N_char_digit (d : N) : Js.isDigit (pretty_N_char d) = true.
Proof. destruct d as [|p]; [done|]. by do 4 (destruct p as [p|p|]; try done). Qed.

Lemma pretty_N_go_digits (x : N) (s : string) :
  digits s = true → digits (pretty_N_go x s) = true.
Proof.
  revert s. induction (N.lt_wf_0 x) as [x _ IH]; intros s Hs.
  destruct (decide (x = 0)%N) as [->|Hx]; [done|].
  rewrite pretty_N_go_step by lia. apply IH.
  - apply N.div_lt; lia.
  - simpl. by rewrite pretty_N_char_digit.
Qed.

Lemma numberToString_digits (n : N) : digits (Js.numberToString n) = true.
Proof.
  unfold Js.numberToString, pretty, pretty_N.
  destruct (decide (n = 0)%N); [done|]. by apply pretty_N_go_digits.
Qed.

Lemma digits_space_inj (a b x y : string) :
  digits a = true → digits b = true →
  a +:+ String " " x = b +:+ String " " y → a = b.
Proof.
  revert b. induction a as [|c a IH]; intros [|d b]; simpl; try done.
  - intros _ [Hd _]%andb_true_iff [= <- _]. done.
  - intros [Hc _]%andb_true_iff _ [= -> _]. done.
  - intros [_ Ha]%andb_true_iff [_ Hb]%andb_true_iff [= -> H]. f_equal. eauto.
Qed.

Lemma duplicateMessage_inj (id id' count count' : N) :
  duplicateMessage (Js.numberToString id) count
  = duplicateMessage (Js.numberToString id') count' → id = id'.
Proof.
  unfold duplicateMessage. intros H%JsFacts.append_inv_head.
  apply digits_space_inj in H; [|apply numberToString_digits..].
  by apply (inj pretty) in H.
Qed.

(** *** What the three checks push *)

Section Emitted.

Variable document : TextDocument.
Variable imageMap : gmap N Image.

Lemma size_list_to_set_le (l : list N) :
  size (list_to_set l : gset N) ≤ length l.
Proof.
  induction l as [|x l IH].
  - by rewrite list_to_set_nil, size_empty.
  - rewrite list_to_set_cons. cbn [length].
    rewrite size_union_alt, size_singleton.
    assert (size (list_to_set l ∖ {[x]} : gset N) ≤ size (list_to_set l : gset N)).
    { apply subseteq_size. set_solver. }
    lia.
Qed.

Lemma size_list_to_set_NoDup (l : list N) :
  size (list_to_set l : gset N) = length l ↔ NoDup l.
Proof.
  split; [|apply size_list_to_set].
  induction l as [|x l IH]; [constructor|].
  rewrite list_to_set_cons. cbn [length].
  intros H. destruct (decide (x ∈ l)) as [Hin|Hnin].
  - assert (({[x]} ∪ list_to_set l : gset N) = list_to_set l) as Heq
      by (apply (elem_of_list_to_set (C:=gset N)) in Hin; set_solver).
    rewrite Heq in H. pose proof (size_list_to_set_le l). lia.
  - constructor; [done|]. apply IH.
    rewrite size_union in H
      by (rewrite disjoint_singleton_l, elem_of_list_to_set; done).
    rewrite size_singleton in H. lia.
Qed.

Lemma checkDuplicates_emitted (imageNumbers : list N) (diagnostics : list Diagnostic) :
  checkDuplicates document imageNumbers imageMap diagnostics
  = diagnostics ++ duplicatesEmitted document imageMap imageNumbers.
Proof.
  unfold checkDuplicates, duplicatesEmitted.
  destruct (decide (NoDup imageNumbers)) as [Hnd|Hnd].
  - apply (size_list_to_set (C:=gset N)) in Hnd. rewrite Hnd, Nat.eqb_refl. simpl.
    by rewrite app_nil_r.
  - destruct (Nat.eqb_spec (size (list_to_set imageNumbers : gset N))
                (length imageNumbers)) as [Heq|_].
    { by apply size_list_to_set_NoDup in Heq. }
    simpl. generalize (objectEntries (fold_left countsIncr imageNumbers [])).
    intros entries. revert diagnostics.
    induction entries as [|entry entries IH]; intros diagnostics; simpl.
    + by rewrite app_nil_r.
    + rewrite IH. unfold duplicatesOf at 2.
      destruct (1 <? entry.2)%N; [|done]. rewrite parseInt_numberToString.
      destruct (imageMap !! entry.1); [|done]. by rewrite <-app_assoc.
Qed.

Lemma checkStart_emitted (firstNumber : N) (diagnostics : list Diagnostic) :
  checkStart document firstNumber imageMap diagnostics
  = diagnostics ++ startEmitted document imageMap firstNumber.
Proof.
  unfold checkStart, startEmitted.
  destruct (N.eqb_spec firstNumber 1) as [->|Hne]; simpl.
  - by rewrite app_nil_r.
  - rewrite decide_False by done.
    destruct (imageMap !! firstNumber); [done | by rewrite app_nil_r].
Qed.

Lemma checkSequence_emitted (previous : N) (rest : list N)
    (diagnostics : list Diagnostic) :
  checkSequence document imageMap previous rest diagnostics
  = diagnostics ++ sequenceEmitted document imageMap previous rest.
Proof.
  revert previous diagnostics.
  induction rest as [|currentNum rest IH]; intros previous diagnostics; simpl.
  - by rewrite app_nil_r.
  - rewrite IH. unfold sequenceOf.
    destruct (N.eqb_spec currentNum (previous + 1)) as [->|Hne]; simpl.
    + by rewrite decide_True.
    + rewrite decide_False by done.
      destruct (imageMap !! currentNum); [by rewrite <-app_assoc | done].
Qed.

Lemma startEmitted_warnings (firstNumber : N) :
  Forall (λ d, severity d = Warning) (startEmitted document imageMap firstNumber).
Proof.
  unfold startEmitted. destruct (decide _); [constructor|].
  destruct (imageMap !! firstNumber); repeat constructor.
Qed.

Lemma sequenceEmitted_warnings (previous : N) (rest : list N) :
  Forall (λ d, severity d = Warning) (sequenceEmitted document imageMap previous rest).
Proof.
  revert previous. induction rest as [|currentNum rest IH]; intros previous; simpl.
  - constructor.
  - apply Forall_app. split; [|apply IH]. unfold sequenceOf.
    destruct (decide _); [constructor|].
    destruct (imageMap !! currentNum); repeat constructor.
Qed.

(** One entry of [counts] per number: the entry of [id] gives the only
    duplicate error that names [id]. *)
Lemma duplicates_filter (entries : list (N * N)) (id count : N) (image : Image) :
  NoDup entries.*1 → (id, count) ∈ entries → (1 < count)%N →
  imageMap !! id = Some image →
  filter (λ d, severity d = Error
               ∧ message d = duplicateMessage (Js.numberToString id) count)
         (concat (duplicatesOf document imageMap <$> entries))
  = [duplicateDiagnostic document image (Js.numberToString id) count].
Proof.
  intros Hnd Hin Hcount Himage.
  assert (∀ l : list (N * N), id ∉ l.*1 →
    filter (λ d, severity d = Error
                 ∧ message d = duplicateMessage (Js.numberToString id) count)
           (concat (duplicatesOf document imageMap <$> l)) = []) as Hnone.
  { induction l as [|[k c] l IH]; [done|].
    rewrite !fmap_cons. cbn [concat fst].
    intros Hnin. rewrite filter_app, IH by (intros ?; apply Hnin; by right).
    rewrite app_nil_r. unfold duplicatesOf. cbn [fst snd].
    destruct (1 <? c)%N; [|done]. destruct (imageMap !! k); [|done].
    rewrite filter_cons, decide_False; [done|]. cbn [message duplicateDiagnostic].
    intros [_ Hm]. apply duplicateMessage_inj in Hm as ->. apply Hnin. by left. }
  induction entries as [|[k c] entries IH].
  { by apply elem_of_nil in Hin. }
  rewrite fmap_cons in Hnd. cbn [fst] in Hnd.
  apply NoDup_cons in Hnd as [Hk Hnd].
  rewrite fmap_cons. cbn [concat]. rewrite filter_app.
  apply elem_of_cons in Hin as [[= <- <-]|Hin].
  - rewrite Hnone by done. rewrite app_nil_r. unfold duplicatesOf. cbn [fst snd].
    apply N.ltb_lt in Hcount. rewrite Hcount, Himage.
    rewrite filter_cons, decide_True; [done | by split].
  - rewrite IH by done.
    assert (k ≠ id) as Hne.
    { intros ->. apply Hk. apply list_elem_of_fmap. by exists (id, count). }
    unfold duplicatesOf at 1. cbn [fst snd].
    destruct (1 <? c)%N; [|done]. destruct (imageMap !! k); [|done].
    rewrite filter_cons, decide_False; [done|]. cbn [message duplicateDiagnostic].
    intros [_ Hm]. by apply duplicateMessage_inj in Hm.
Qed.

End Emitted.

(** [validateImageNumbering] pushes the diagnostics of the three checks, in
    their order, for the sorted numbers. *)
Lemma validateImageNumbering_emitted (document : TextDocument)
    (images : list Image) (diagnostics : list Diagnostic) :
  ∃ imageMap,
    (∀ id, imageMap !! id = lastMatchWith id images)
    ∧ validateImageNumbering document images diagnostics
      = diagnostics ++
          match merge_sort N.le (imageNumbers images) with
          | [] => []
          | firstNumber :: rest =>
              duplicatesEmitted document imageMap (imageNumbers images)
              ++ startEmitted document imageMap firstNumber
              ++ sequenceEmitted document imageMap firstNumber rest
          end.
Proof.
  destruct (collectNumbers_spec images) as (imageMap & Hc & Hm).
  exists imageMap. split; [done|].
  unfold validateImageNumbering. rewrite Hc.
  destruct (imageNumbers images) as [|n ns] eqn:E.
  - simpl. by rewrite app_nil_r.
  - cbn [length Nat.eqb]. 
    destruct (merge_sort N.le (n :: ns)) as [|firstNumber rest] eqn:Es.
    + pose proof (merge_sort_Permutation N.le (n :: ns)) as Hp.
      rewrite Es in Hp. by apply Permutation_nil_cons in Hp.
    + rewrite checkSequence_emitted, checkStart_emitted, checkDuplicates_emitted.
      by rewrite <-!app_assoc.
Qed.

End NumberingFacts.

Section Numbering.

Import imageRule NumberingFacts.

Lemma occurrences_Permutation (id : N) (l k : list N) :
  l ≡ₚ k → occurrences id l = occurrences id k.
Proof. intros H. unfold occurrences. by rewrite H. Qed.

Lemma occurrences_NoDup (id : N) (l : list N) :
  NoDup l → (occurrences id l ≤ 1)%N.
Proof.
  induction 1 as [|x l Hx Hl IH]; unfold occurrences in *; [simpl; lia|].
  rewrite filter_cons. destruct (decide (x = id)) as [->|]; [|done].
  assert (¬ (0 < occurrences id l)%N) by (by rewrite occurrences_pos).
  unfold occurrences in *. simpl. lia.
Qed.

Lemma elem_of_concat_fmap {A B : Type} (g : B → list A) (l : list B) (x : A) :
  x ∈ concat (g <$> l) → ∃ y, y ∈ l ∧ x ∈ g y.
Proof.
  induction l as [|y l IH]; [by intros ?%elem_of_nil|].
  rewrite fmap_cons. cbn [concat]. intros [H|H]%elem_of_app.
  - exists y. split; [left | done].
  - destruct (IH H) as (z & Hz & Hx). exists z. split; [by right | done].
Qed.

(** In a sorted list the occurrences of a number are adjacent. *)
Lemma sorted_adjacent (id : N) (l : list N) :
  StronglySorted N.le l → (1 < occurrences id l)%N →
  ∃ l1 l2, l = l1 ++ id :: id :: l2.
Proof.
  induction l as [|x l IH]; intros Hs Hocc.
  - unfold occurrences in Hocc. simpl in Hocc. lia.
  - apply StronglySorted_inv in Hs as [Hs Hall].
    destruct (decide (x = id)) as [->|Hne].
    + assert (id ∈ l) as Hin.
      { apply occurrences_pos. unfold occurrences in *.
        rewrite filter_cons, decide_True in Hocc by done. simpl in Hocc. lia. }
      destruct l as [|y l]; [by apply elem_of_nil in Hin|].
      assert (y = id) as ->.
      { apply StronglySorted_inv in Hs as [_ Hy].
        apply Forall_cons in Hall as [Hle _].
        apply elem_of_cons in Hin as [->|Hin]; [done|].
        rewrite Forall_forall in Hy. specialize (Hy _ Hin). lia. }
      by exists [], l.
    + destruct IH as (l1 & l2 & ->); [done | |].
      { unfold occurrences in *. by rewrite filter_cons, decide_False in Hocc. }
      by exists (x :: l1), l2.
Qed.

Lemma sequenceEmitted_adjacent (document : TextDocument) (imageMap : gmap N Image)
    (previous a b : N) (l1 l2 : list N) (d : Diagnostic) :
  d ∈ sequenceOf document imageMap a b →
  d ∈ sequenceEmitted document imageMap previous (l1 ++ a :: b :: l2).
Proof.
  intros Hd. revert previous.
  induction l1 as [|x l1 IH]; intros previous; simpl.
  - apply elem_of_app. right. apply elem_of_app. by left.
  - apply elem_of_app. right. apply IH.
Qed.

(** [padStart(2, '0')] on the digits of a number puts one 0 in front of a
    number below 10. *)
Lemma length_pretty_N_go (x : N) (s : string) :
  String.length s ≤ String.length (pretty_N_go x s).
Proof.
  revert s. induction (N.lt_wf_0 x) as [x _ IH]; intros s.
  destruct (decide (x = 0)%N) as [->|Hx]; [done|].
  rewrite pretty_N_go_step by lia.
  etrans; [|apply IH; apply N.div_lt; lia]. simpl. lia.
Qed.

Lemma padStart2_numberToString (n : N) :
  Js.padStart2 (Js.numberToString n)
  = (if (n <? 10)%N then "0" else "") +:+ Js.numberToString n.
Proof.
  destruct (N.ltb_spec n 10) as [Hlt|Hge].
  - assert (n = 0 ∨ n = 1 ∨ n = 2 ∨ n = 3 ∨ n = 4 ∨ n = 5 ∨ n = 6 ∨ n = 7
            ∨ n = 8 ∨ n = 9)%N as H by lia.
    repeat (destruct H as [->|H]; [done|]). by subst.
  - unfold Js.padStart2, Js.numberToString, pretty, pretty_N.
    rewrite decide_False by lia.
    rewrite pretty_N_go_step by lia.
    rewrite pretty_N_go_step by (apply N.div_str_pos; lia).
    match goal with
    | |- context [pretty_N_go ?x ?s] =>
        pose proof (length_pretty_N_go x s) as Hlen;
        destruct (pretty_N_go x s) as [|c1 [|c2 r]]; simpl in Hlen; try lia
    end.
    done.
Qed.

(** C4. Where the numbers read from the paths of the matches are safe
    integers: for every number [id] that occurs more than once among them,
    [validateImageNumbering] pushes exactly one Error diagnostic with the
    message "Duplicate image number: <id> is used <count> times", [count]
    being the number of occurrences, and this diagnostic lies over the last
    match with this number, from its offset to the end of its text; every
    Error that it pushes is such a diagnostic, for a number that occurs more
    than once. *)
Theorem duplicate_number_error (document : TextDocument) (images : list Image)
    (diagnostics : list Diagnostic) (id : N) :
  forallb Js.isSafeInteger (imageNumbers images) = true →
  (1 < occurrences id (imageNumbers images))%N →
  ∃ image emitted,
    lastMatchWith id images = Some image
    ∧ validateImageNumbering document images diagnostics = diagnostics ++ emitted
    ∧ filter (λ d, severity d = Error
                   ∧ message d
                     = "Duplicate image number: " +:+ Js.numberToString id
                       +:+ " is used "
                       +:+ Js.numberToString (occurrences id (imageNumbers images))
                       +:+ " times")
             emitted
      = [mkDiagnostic
           (newRange
              (positionAt document (Z.of_nat (index image)))
              (positionAt document
                 (Z.of_nat (index image + String.length (fullMatch image)))))
           ("Duplicate image number: " +:+ Js.numberToString id +:+ " is used "
            +:+ Js.numberToString (occurrences id (imageNumbers images))
            +:+ " times")
           Error validatorSource None]
    ∧ ∀ d, d ∈ emitted → severity d = Error →
           ∃ id', (1 < occurrences id' (imageNumbers images))%N
                  ∧ message d
                    = "Duplicate image number: " +:+ Js.numberToString id'
                      +:+ " is used "
                      +:+ Js.numberToString (occurrences id' (imageNumbers images))
                      +:+ " times".
Proof.
  intros _ Hocc.
  assert (id ∈ imageNumbers images) as Hin by (apply occurrences_pos; lia).
  destruct (lastMatchWith_is_Some id images Hin) as [image Himage].
  destruct (validateImageNumbering_emitted document images diagnostics)
    as (imageMap & Hmap & ->).
  exists image. eexists. split; [done|]. split; [reflexivity|].
  destruct (merge_sort N.le (imageNumbers images)) as [|firstNumber rest] eqn:Es.
  { pose proof (merge_sort_Permutation N.le (imageNumbers images)) as Hp.
    rewrite Es in Hp. apply Permutation_nil in Hp. rewrite Hp in Hin.
    by apply elem_of_nil in Hin. }
  destruct (counts_spec (imageNumbers images)) as (Hnd & Hkeys & Hcount).
  split.
  - rewrite !filter_app.
    assert (∀ l, Forall (λ d, severity d = Warning) l →
      filter (λ d, severity d = Error
                   ∧ message d
                     = duplicateMessage (Js.numberToString id)
                         (occurrences id (imageNumbers images))) l
      = []) as Hw.
    { induction l as [|d l IH]; [done|]. intros [Hd Hl]%Forall_cons.
      rewrite filter_cons, decide_False, IH; [done | done |].
      intros [He _]. congruence. }
    change (String.append "Duplicate image number: " _)
      with (duplicateMessage (Js.numberToString id)
              (occurrences id (imageNumbers images))).
    rewrite (Hw _ (startEmitted_warnings _ _ _)),
      (Hw _ (sequenceEmitted_warnings _ _ _ _)), !app_nil_r.
    unfold duplicatesEmitted.
    destruct (decide (NoDup (imageNumbers images))) as [Hnodup|_].
    { apply (occurrences_NoDup id) in Hnodup. lia. }
    apply duplicates_filter.
    + by rewrite objectEntries_Permutation.
    + rewrite objectEntries_Permutation, <-Hcount.
      apply getCount_elem_of. by apply Hkeys.
    + done.
    + by rewrite Hmap.
  - intros d [Hd|[Hd|Hd]%elem_of_app]%elem_of_app He.
    + unfold duplicatesEmitted in Hd.
      destruct (decide (NoDup (imageNumbers images))); [by apply elem_of_nil in Hd|].
      apply elem_of_concat_fmap in Hd as ([k c] & Hentry & Hd).
      rewrite objectEntries_Permutation in Hentry.
      apply elem_of_counts in Hentry as Hc; [|done]. rewrite Hcount in Hc.
      unfold duplicatesOf in Hd. cbn [fst snd] in Hd.
      destruct (N.ltb_spec 1 c) as [Hlt|_]; [|by apply elem_of_nil in Hd].
      destruct (imageMap !! k); [|by apply elem_of_nil in Hd].
      apply list_elem_of_singleton in Hd as ->. exists k. by subst c.
    + pose proof (startEmitted_warnings document imageMap firstNumber) as Hw.
      rewrite Forall_forall in Hw. specialize (Hw _ Hd). congruence.
    + pose proof (sequenceEmitted_warnings document imageMap firstNumber rest) as Hw.
      rewrite Forall_forall in Hw. specialize (Hw _ Hd). congruence.
Qed.

(** C9. Where the numbers read from the paths of the matches are safe
    integers, a number [id] that occurs more than once also fails the check
    of the sequence: the sorted list keeps the repetitions, the later of two
    equal neighbours is not the earlier plus 1, and [validateImageNumbering]
    pushes the Warning "Image numbering is not sequential. Expected <id+1>,
    found <id>", both numbers in decimal digits with a 0 in front of a number
    below 10, over the last match with this number, from its offset to the
    end of its text. *)
Theorem duplicate_number_gap_warning (document : TextDocument)
    (images : list Image) (diagnostics : list Diagnostic) (id : N) :
  forallb Js.isSafeInteger (imageNumbers images) = true →
  (1 < occurrences id (imageNumbers images))%N →
  ∃ image emitted,
    lastMatchWith id images = Some image
    ∧ validateImageNumbering document images diagnostics = diagnostics ++ emitted
    ∧ mkDiagnostic
        (newRange
           (positionAt document (Z.of_nat (index image)))
           (positionAt document
              (Z.of_nat (index image + String.length (fullMatch image)))))
        ("Image numbering is not sequential. Expected "
         +:+ ((if (id + 1 <? 10)%N then "0" else "")
              +:+ Js.numberToString (id + 1))
         +:+ ", found "
         +:+ ((if (id <? 10)%N then "0" else "") +:+ Js.numberToString id))
        Warning validatorSource None ∈ emitted.
Proof.
  intros _ Hocc.
  assert (id ∈ imageNumbers images) as Hin by (apply occurrences_pos; lia).
  destruct (lastMatchWith_is_Some id images Hin) as [image Himage].
  destruct (validateImageNumbering_emitted document images diagnostics)
    as (imageMap & Hmap & ->).
  exists image. eexists. split; [done|]. split; [reflexivity|].
  destruct (sorted_adjacent id (merge_sort N.le (imageNumbers images)))
    as (l1 & l2 & Hs).
  { apply StronglySorted_merge_sort; apply _. }
  { by rewrite (occurrences_Permutation _ _ _ (merge_sort_Permutation N.le _)). }
  rewrite Hs. rewrite <-!padStart2_numberToString.
  assert (mkDiagnostic (getMatchRange document image)
            ("Image numbering is not sequential. Expected "
             +:+ Js.padStart2 (Js.numberToString (id + 1)) +:+ ", found "
             +:+ Js.padStart2 (Js.numberToString id))
            Warning validatorSource None
          ∈ sequenceOf document imageMap id id) as Hd.
  { unfold sequenceOf. rewrite decide_False by lia. rewrite Hmap, Himage.
    apply list_elem_of_singleton. done. }
  destruct l1 as [|x l1]; simpl.
  - do 2 (apply elem_of_app; right). apply elem_of_app. by left.
  - do 2 (apply elem_of_app; right). by apply sequenceEmitted_adjacent.
Qed.

End Numbering.

(** ** The image rule: folder names *)

Section Folders.

Import imageRule.

Variable path : PathModule.

Lemma getSubstitution_noDollar (matched before after replacement : string) :
  noDollar replacement = true →
  getSubstitution matched before after replacement = replacement.
Proof.
  induction replacement as [|c r IH]; simpl; [done|].
  intros [Hc Hr]%andb_true_iff. apply negb_true_iff in Hc. rewrite Hc.
  by rewrite IH.
Qed.

Lemma replace_first (s pattern replacement : string) (i : nat) :
  Js.indexOf s pattern = Some i → noDollar replacement = true →
  replace s pattern replacement
  = replaceRange s i (i + String.length pattern) replacement.
Proof.
  intros Hi Hr. unfold replace, replaceRange. rewrite Hi.
  by rewrite getSubstitution_noDollar.
Qed.

Lemma replaceRange_middle (pre mid post replacement : string) :
  replaceRange (pre +:+ mid +:+ post) (String.length pre)
    (String.length pre + String.length mid) replacement
  = pre +:+ replacement +:+ post.
Proof.
  unfold replaceRange, Js.substring. rewrite Nat.sub_0_r, JsFacts.substring_0_append.
  do 2 f_equal. rewrite <-JsFacts.length_append.
  replace (pre +:+ mid +:+ post) with ((pre +:+ mid) +:+ post).
  - apply JsFacts.drop_append.
  - induction pre as [|c pre IH]; simpl; [done | by f_equal].
Qed.

Lemma validateFolderNames_emitted (document : TextDocument) (images : list Image)
    (expectedFolderName : string) (diagnostics : list Diagnostic) :
  validateFolderNames path document images expectedFolderName diagnostics
  = diagnostics ++
      ((λ image, folderDiagnostic path document image expectedFolderName)
       <$> filter (λ image, src image ≠ ""
                            ∧ Js.includes (src image) expectedFolderName = false)
                  images).
Proof.
  unfold validateFolderNames. revert diagnostics.
  induction images as [|image images IH]; intros diagnostics.
  - simpl. by rewrite app_nil_r.
  - cbn [fold_left]. rewrite IH, filter_cons. unfold truthy.
    destruct (String.eqb_spec (src image) "") as [Hs|Hs]; simpl.
    + rewrite decide_False; [done | by intros [? _]].
    + destruct (Js.includes (src image) expectedFolderName) eqn:E; simpl.
      * rewrite decide_False; [done | by intros [_ ?]].
      * rewrite decide_True by done. by rewrite fmap_cons, <-app_assoc.
Qed.

(** C5, amended. For every image match whose path is not empty and does not
    contain the expected folder name, [validateFolderNames] pushes one
    Warning with the message 'Image source should be in "<expectedFolder>"
    folder' over the range of the match, in the order of the matches, and
    for no other match; [validate] calls it with the name of the document's
    file without its extension, followed by "_files".  The Warning carries a
    fix exactly when the match has the [src] attribute and not [sc]; the fix
    replaces the range of the match by the result of [replace] on the tag;
    where the path first occurs in the tag at the place at hand and
    <expectedFolder>/<basename of the path> holds no [$], this is the tag
    with the path rewritten to <expectedFolder>/<basename of the path>. *)
Theorem folder_name_warning (document : TextDocument) (images : list Image)
    (expectedFolderName : string) (diagnostics : list Diagnostic) :
  validateFolderNames path document images expectedFolderName diagnostics
  = diagnostics ++
      ((λ image, folderDiagnostic path document image expectedFolderName)
       <$> filter (λ image, src image ≠ ""
                            ∧ Js.includes (src image) expectedFolderName = false)
                  images)
  ∧ (∀ image,
       let d := folderDiagnostic path document image expectedFolderName in
       let correctedSrc :=
         expectedFolderName +:+ "/" +:+ basename path (src image) in
       severity d = Warning
       ∧ message d = "Image source should be in " +:+ Js.dq
                     +:+ expectedFolderName +:+ Js.dq +:+ " folder"
       ∧ range d = getMatchRange document image
       ∧ (code d = None ↔ hasScAttribute image = true)
       ∧ (hasScAttribute image = false →
          ∃ newText,
            code d = Some (mkCode "fix-image-folder"
                             (mkCommandUri fixCommand (uri document)
                                (getMatchRange document image) newText))
            ∧ newText = replace (fullMatch image) (src image) correctedSrc
            ∧ ∀ pre post,
                fullMatch image = pre +:+ src image +:+ post →
                Js.indexOf (fullMatch image) (src image)
                  = Some (String.length pre) →
                noDollar correctedSrc = true →
                newText = pre +:+ correctedSrc +:+ post))
  ∧ (∀ diagnostics,
       validate path document diagnostics
       = let images := findAllImages (getText document) in
         let diagnostics :=
           findImageTagTypos document (getText document) images diagnostics in
         if length images =? 0 then diagnostics
         else validateImageNumbering document images
                (validateFolderNames path document images
                   (parseName path (fileName document) +:+ "_files")
                   diagnostics)).
Proof.
  split; [apply validateFolderNames_emitted|]. split; [|done].
  intros image. cbn zeta. unfold folderDiagnostic. cbn [severity message range code].
  split_and!; try done.
  - destruct (hasScAttribute image); simpl; split; congruence.
  - intros ->. simpl. eexists. split; [reflexivity|]. split; [done|].
    intros pre post Hsplit Hi Hd. rewrite (replace_first _ _ _ _ Hi Hd), Hsplit.
    apply replaceRange_middle.
Qed.

End Folders.

(** ** The image rule: paths outside a well-formed tag *)

Section Typos.

Import imageRule.

Lemma setAdd_fold (l : list string) (init : list string) :
  NoDup init →
  let set := fold_left setAdd l init in
  NoDup set ∧ (∀ p, p ∈ set ↔ p ∈ init ∨ p ∈ l).
Proof.
  revert init. induction l as [|x l IH]; intros init Hinit; simpl.
  - split; [done|]. intros p. rewrite elem_of_nil. naive_solver.
  - assert (NoDup (setAdd init x)) as Hx.
    { unfold setAdd. destruct (decide (x ∈ init)); [done|].
      apply NoDup_app. split_and!; [done | | apply NoDup_singleton].
      by intros p Hp ->%list_elem_of_singleton. }
    destruct (IH _ Hx) as [Hnd Hin]. split; [done|].
    intros p. rewrite Hin, elem_of_cons. unfold setAdd.
    destruct (decide (x ∈ init)).
    + naive_solver.
    + rewrite elem_of_app, list_elem_of_singleton. naive_solver.
Qed.

(** The set of paths holds every reference once, and each of its paths
    occurs in the text. *)
Lemma filesMatches_spec (text : string) :
  NoDup (filesMatches text)
  ∧ (∀ p, p ∈ filesMatches text
          ↔ ∃ m, m ∈ Re.execAll filesRegex text ∧ Re.matched m = p)
  ∧ (∀ p, p ∈ filesMatches text → ∃ i, Js.indexOf text p = Some i).
Proof.
  assert (∀ (l : list Re.result) init,
    fold_left (λ set m, setAdd set (Re.matched m)) l init
    = fold_left setAdd (Re.matched <$> l) init) as Hfold.
  { induction l as [|m l IH]; intros init; simpl; [done | apply IH]. }
  unfold filesMatches. rewrite Hfold.
  destruct (setAdd_fold (Re.matched <$> Re.execAll filesRegex text) [])
    as [Hnd Hin]; [constructor|].
  assert (∀ p, p ∈ fold_left setAdd (Re.matched <$> Re.execAll filesRegex text) []
               ↔ ∃ m, m ∈ Re.execAll filesRegex text ∧ Re.matched m = p) as Hiff.
  { intros p. rewrite Hin, list_elem_of_fmap, elem_of_nil. naive_solver. }
  split_and!; [done | done |].
  intros p (m & Hm & <-)%Hiff.
  pose proof (ReFacts.execLoop_spec (S (String.length text)) filesRegex text 0) as Hs.
  rewrite Forall_forall in Hs. destruct (Hs m Hm) as [_ ->].
  destruct (JsFacts.indexOf_substring (Re.index m) (Re.lastIndexOf m) text)
    as (i & Hi & _).
  by exists i.
Qed.

Lemma findImageTagTypos_fold (document : TextDocument) (text : string)
    (images : list Image) (diagnostics : list Diagnostic) :
  findImageTagTypos document text images diagnostics
  = fold_left (checkFilePath document text images) (filesMatches text) diagnostics.
Proof.
  unfold findImageTagTypos. by destruct (filesMatches text).
Qed.


Lemma checkFilePath_typo (document : TextDocument) (text : string)
    (images : list Image) (diagnostics : list Diagnostic) (filePath : string)
    (i : nat) (typoMatch : Re.result) :
  foundInCorrectTag images filePath = false →
  Js.indexOf text filePath = Some i →
  firstTypo typoMatches (contextText text filePath (Z.of_nat i)) = Some typoMatch →
  let error :=
    typoDiagnostic document filePath (startSearchIndex (Z.of_nat i)) typoMatch in
  checkFilePath document text images diagnostics filePath
  = diagnostics ++ error ::
      (if covered document (diagnostics ++ [error]) (Z.of_nat i) then []
       else [outsideTagDiagnostic document filePath (Z.of_nat i)]).
Proof.
  intros Hfound Hi Htypo. cbn zeta. unfold checkFilePath.
  rewrite Hfound, Hi, Htypo.
  destruct (covered document _ (Z.of_nat i)); cbn [negb]; [done|].
  by rewrite <-app_assoc.
Qed.

Lemma checkFilePath_outside (document : TextDocument) (text : string)
    (images : list Image) (diagnostics : list Diagnostic) (filePath : string)
    (i : nat) :
  foundInCorrectTag images filePath = false →
  Js.indexOf text filePath = Some i →
  firstTypo typoMatches (contextText text filePath (Z.of_nat i)) = None →
  covered document diagnostics (Z.of_nat i) = false →
  checkFilePath document text images diagnostics filePath
  = diagnostics ++ [outsideTagDiagnostic document filePath (Z.of_nat i)].
Proof.
  intros Hfound Hi Htypo Hcovered. unfold checkFilePath.
  by rewrite Hfound, Hi, Htypo, Hcovered.
Qed.

(** The check of a path only pushes to the array. *)
Lemma checkFilePath_emitted (document : TextDocument) (text : string)
    (images : list Image) (diagnostics : list Diagnostic)
    (filePath : string) :
  ∃ emitted,
    checkFilePath document text images diagnostics filePath
    = diagnostics ++ emitted.
Proof.
  unfold checkFilePath.
  destruct (foundInCorrectTag images filePath);
    [exists []; by rewrite app_nil_r|].
  destruct (Js.indexOf text filePath) as [i|]; [|exists []; by rewrite app_nil_r].
  destruct (firstTypo _ _) as [typoMatch|];
    destruct (negb _); eexists; rewrite <-?app_assoc; try reflexivity.
  all: by rewrite app_nil_r.
Qed.

Lemma fold_checkFilePath_emitted (document : TextDocument) (text : string)
    (images : list Image) (paths : list string) (diagnostics : list Diagnostic) :
  ∃ emitted,
    fold_left (checkFilePath document text images) paths diagnostics
    = diagnostics ++ emitted.
Proof.
  revert diagnostics.
  induction paths as [|p paths IH]; intros diagnostics; simpl.
  - exists []. by rewrite app_nil_r.
  - destruct (checkFilePath_emitted document text images diagnostics p)
      as [e1 ->].
    destruct (IH (diagnostics ++ e1)) as [e2 ->].
    exists (e1 ++ e2). by rewrite app_assoc.
Qed.

(** The loop over the patterns finds a match when one of them matches. *)
Lemma firstTypo_some (patterns : list Re.regex) (context : string)
    (typoRegex : Re.regex) :
  typoRegex ∈ patterns → is_Some (Re.exec typoRegex context 0) →
  is_Some (firstTypo patterns context).
Proof.
  induction patterns as [|re patterns IH]; [by intros ?%elem_of_nil|].
  intros [<-|Hin]%elem_of_cons Hexec; simpl.
  - by destruct Hexec as [m ->].
  - destruct (Re.exec re context 0); [done | by apply IH].
Qed.



(** C7, amended. For a distinct reference path that no well-formed match
    holds in its [src] (examined once, at its first occurrence in the text):
    if no typo pattern matches in the text around the first occurrence and
    no diagnostic pushed so far covers the position of the first occurrence,
    the check of this path pushes exactly one diagnostic, which stays in the
    result: a Warning without a fix, over the range from 5 characters before
    the occurrence to 5 characters after it, which says that a file path is
    outside a proper img tag. *)
Theorem outside_tag_warning_for_path (document : TextDocument) (text : string)
    (images : list Image) (diagnostics : list Diagnostic)
    (before after : list string) (filePath : string) :
  filesMatches text = before ++ filePath :: after →
  foundInCorrectTag images filePath = false →
  NoDup (filesMatches text)
  ∧ (∀ p, p ∈ filesMatches text
          ↔ ∃ m, m ∈ Re.execAll filesRegex text ∧ Re.matched m = p)
  ∧ ∃ i, Js.indexOf text filePath = Some i
    ∧ Js.startsWith filePath (Js.drop i text) = true
    ∧ (∀ j, j < i → Js.startsWith filePath (Js.drop j text) = false)
    ∧ let earlier :=
        fold_left (checkFilePath document text images) before diagnostics in
      let warning :=
        mkDiagnostic
          (newRange (positionAt document (Z.of_nat i - 5)%Z)
             (positionAt document
                (Z.of_nat i + Z.of_nat (String.length filePath) + 5)%Z))
          "File path found outside a proper <img> tag. Check for HTML syntax errors."
          Warning validatorSource None in
      firstTypo typoMatches (contextText text filePath (Z.of_nat i)) = None →
      covered document earlier (Z.of_nat i) = false →
      checkFilePath document text images earlier filePath = earlier ++ [warning]
      ∧ ∃ later,
          fold_left (checkFilePath document text images) after
            (earlier ++ [warning])
          = (earlier ++ [warning]) ++ later
          ∧ findImageTagTypos document text images diagnostics
            = (earlier ++ [warning]) ++ later.
Proof.
  intros Hsplit Hfound.
  destruct (filesMatches_spec text) as (Hnd & Hiff & Hocc).
  split; [done|]. split; [done|].
  destruct (Hocc filePath) as [i Hi].
  { rewrite Hsplit. apply elem_of_app. right. by left. }
  exists i. split; [done|].
  destruct (JsFacts.indexOf_first _ _ _ Hi) as [Hat Hfirst].
  split; [done|]. split; [done|]. cbn zeta. intros Htypo Hcovered.
  rewrite findImageTagTypos_fold, Hsplit, fold_left_app. cbn [fold_left].
  rewrite (checkFilePath_outside _ _ _ _ _ i) by done.
  split; [done|].
  match goal with
  | |- context [fold_left ?f after ?init] =>
      destruct (fold_checkFilePath_emitted document text images after init)
        as [later Hlater]
  end.
  exists later. by rewrite Hlater.
Qed.

End Typos.

(** ** The validation pass *)

Section Pass.

Variable path : PathModule.

Lemma fold_left_ext {A B : Type} (f g : A → B → A) (l : list B) (a : A) :
  (∀ a x, f a x = g a x) → fold_left f l a = fold_left g l a.
Proof.
  intros H. revert a. induction l as [|x l IH]; intros a; simpl; [done|].
  by rewrite H, IH.
Qed.

(** *** The rules only push to the array *)

Lemma fold_left_push_Forall {A B : Type} (P : A → Prop) (test : B → bool)
    (make : B → A) (l : list B) (acc : list A) :
  (∀ x, P (make x)) → Forall P acc →
  Forall P (fold_left (λ acc x, if test x then acc ++ [make x] else acc) l acc).
Proof.
  intros Hmake. revert acc. induction l as [|x l IH]; intros acc Hacc; simpl; [done|].
  apply IH. destruct (test x); [|done].
  apply Forall_app. split; [done|]. by constructor.
Qed.

Lemma markRule_validate_emitted (document : TextDocument)
    (diagnostics : list Diagnostic) :
  markRule.validate document diagnostics
  = diagnostics ++ markRule.validate document [].
Proof.
  unfold markRule.validate.
  generalize (markRule.findTotalQuestionMarks (getText document)). intros l.
  assert (∀ init acc,
    fold_left
      (λ diagnostics m,
         if negb (markRule.isCorrectMarkUsage (markRule.points m) (markRule.term m))
         then diagnostics ++
                [markRule.createDiagnostic (markRule.getMatchRange document m)
                   (markRule.points m)]
         else diagnostics) l (init ++ acc)
    = init ++
      fold_left
        (λ diagnostics m,
           if negb (markRule.isCorrectMarkUsage (markRule.points m) (markRule.term m))
           then diagnostics ++
                  [markRule.createDiagnostic (markRule.getMatchRange document m)
                     (markRule.points m)]
           else diagnostics) l acc) as H.
  { induction l as [|m l IH]; intros init acc; simpl; [done|].
    destruct (negb _); [|apply IH]. rewrite <-app_assoc. apply IH. }
  specialize (H diagnostics []). by rewrite app_nil_r in H.
Qed.

Lemma findImageTagTypos_emitted (document : TextDocument) (text : string)
    (images : list imageRule.Image) (diagnostics : list Diagnostic) :
  ∃ emitted,
    imageRule.findImageTagTypos document text images diagnostics
    = diagnostics ++ emitted.
Proof. rewrite findImageTagTypos_fold. apply fold_checkFilePath_emitted. Qed.

Lemma imageRule_validate_emitted (document : TextDocument)
    (diagnostics : list Diagnostic) :
  ∃ emitted,
    imageRule.validate path document diagnostics = diagnostics ++ emitted.
Proof.
  unfold imageRule.validate. cbn zeta.
  destruct (findImageTagTypos_emitted document (getText document)
              (imageRule.findAllImages (getText document)) diagnostics)
    as [e1 ->].
  destruct (length _ =? 0); [by exists e1|].
  rewrite validateFolderNames_emitted.
  destruct (NumberingFacts.validateImageNumbering_emitted document
              (imageRule.findAllImages (getText document))
              ((diagnostics ++ e1) ++
                 ((λ image, imageRule.folderDiagnostic path document image
                              (parseName path (fileName document) +:+ "_files"))
                  <$> filter (λ image, imageRule.src image ≠ ""
                                ∧ Js.includes (imageRule.src image)
                                    (parseName path (fileName document) +:+ "_files")
                                  = false)
                        (imageRule.findAllImages (getText document)))))
    as (m & _ & ->).
  eexists. rewrite <-!app_assoc. reflexivity.
Qed.

(** *** The diagnostics depend on the snapshot only *)

Section SameSnapshot.

Variables d1 d2 : TextDocument.
Hypothesis Hsame : sameSnapshot d1 d2.

Lemma markRule_validate_same (diagnostics : list Diagnostic) :
  markRule.validate d1 diagnostics = markRule.validate d2 diagnostics.
Proof.
  destruct Hsame as (Htext & _ & _ & Hpos).
  unfold markRule.validate. rewrite Htext. apply fold_left_ext.
  intros a m. unfold markRule.getMatchRange. by rewrite !Hpos.
Qed.

Lemma getMatchRange_same (image : imageRule.Image) :
  imageRule.getMatchRange d1 image = imageRule.getMatchRange d2 image.
Proof.
  destruct Hsame as (_ & _ & _ & Hpos).
  unfold imageRule.getMatchRange. by rewrite !Hpos.
Qed.

Lemma covered_same (diagnostics : list Diagnostic) (offset : Z) :
  imageRule.covered d1 diagnostics offset = imageRule.covered d2 diagnostics offset.
Proof.
  destruct Hsame as (_ & _ & _ & Hpos).
  unfold imageRule.covered. by rewrite Hpos.
Qed.

Lemma checkFilePath_same (text : string) (images : list imageRule.Image)
    (diagnostics : list Diagnostic) (filePath : string) :
  imageRule.checkFilePath d1 text images diagnostics filePath
  = imageRule.checkFilePath d2 text images diagnostics filePath.
Proof.
  destruct Hsame as (_ & _ & Huri & Hpos).
  unfold imageRule.checkFilePath, imageRule.typoDiagnostic,
    imageRule.outsideTagDiagnostic.
  destruct (imageRule.foundInCorrectTag images filePath); [done|].
  destruct (Js.indexOf text filePath) as [i|]; [|done].
  rewrite Huri, !Hpos.
  destruct (imageRule.firstTypo _ _) as [typoMatch|].
  - rewrite !Hpos. by rewrite covered_same.
  - by rewrite covered_same.
Qed.

Lemma findImageTagTypos_same (text : string) (images : list imageRule.Image)
    (diagnostics : list Diagnostic) :
  imageRule.findImageTagTypos d1 text images diagnostics
  = imageRule.findImageTagTypos d2 text images diagnostics.
Proof.
  rewrite !findImageTagTypos_fold. apply fold_left_ext.
  intros a p. apply checkFilePath_same.
Qed.

Lemma validateFolderNames_same (images : list imageRule.Image)
    (expectedFolderName : string) (diagnostics : list Diagnostic) :
  imageRule.validateFolderNames path d1 images expectedFolderName diagnostics
  = imageRule.validateFolderNames path d2 images expectedFolderName diagnostics.
Proof.
  destruct Hsame as (_ & _ & Huri & _).
  unfold imageRule.validateFolderNames. apply fold_left_ext.
  intros a image. unfold imageRule.folderDiagnostic.
  by rewrite Huri, getMatchRange_same.
Qed.

Lemma validateImageNumbering_same (images : list imageRule.Image)
    (diagnostics : list Diagnostic) :
  imageRule.validateImageNumbering d1 images diagnostics
  = imageRule.validateImageNumbering d2 images diagnostics.
Proof.
  unfold imageRule.validateImageNumbering.
  destruct (imageRule.collectNumbers images) as [imageNumbers imageMap].
  destruct (length imageNumbers =? 0); [done|].
  assert (∀ diagnostics,
    imageRule.checkDuplicates d1 imageNumbers imageMap diagnostics
    = imageRule.checkDuplicates d2 imageNumbers imageMap diagnostics) as Hdup.
  { intros a. unfold imageRule.checkDuplicates.
    destruct (negb _); [|done]. apply fold_left_ext. intros b entry.
    unfold imageRule.duplicateDiagnostic.
    destruct (1 <? entry.2)%N; [|done].
    destruct (imageMap !! _); [|done]. by rewrite getMatchRange_same. }
  assert (∀ firstNumber diagnostics,
    imageRule.checkStart d1 firstNumber imageMap diagnostics
    = imageRule.checkStart d2 firstNumber imageMap diagnostics) as Hstart.
  { intros n a. unfold imageRule.checkStart, imageRule.startDiagnostic.
    destruct (negb _); [|done].
    destruct (imageMap !! n); [|done]. by rewrite getMatchRange_same. }
  assert (∀ rest previous diagnostics,
    imageRule.checkSequence d1 imageMap previous rest diagnostics
    = imageRule.checkSequence d2 imageMap previous rest diagnostics) as Hseq.
  { induction rest as [|n rest IH]; intros previous a; simpl; [done|].
    rewrite IH. unfold imageRule.sequenceDiagnostic.
    destruct (negb _); [|done].
    destruct (imageMap !! n); [|done]. by rewrite getMatchRange_same. }
  destruct (merge_sort N.le imageNumbers) as [|firstNumber rest]; [apply Hdup|].
  by rewrite Hseq, Hstart, Hdup.
Qed.

Lemma runAllRules_same :
  extension.runAllRules path d1 = extension.runAllRules path d2.
Proof.
  unfold extension.runAllRules, imageRule.validate. cbn zeta.
  rewrite markRule_validate_same.
  destruct Hsame as (Htext & Hname & _ & _). rewrite Htext, Hname.
  rewrite findImageTagTypos_same.
  destruct (length _ =? 0); [done|].
  by rewrite validateFolderNames_same, validateImageNumbering_same.
Qed.

End SameSnapshot.

(** C10. Every diagnostic of the mark rule carries a fix whose command names
    the document by the literal string DOCUMENT_URI_PLACEHOLDER, which is
    not the string of the document's URI (such a string holds a colon, after
    its scheme); the pass keeps these diagnostics as the rule made them, in
    front of those of the image rule, and stores them so for an HTML-like
    document; and the fix command run on such a payload edits what
    [Uri.parse] makes of the placeholder, whatever the document is. *)
Theorem mark_fix_names_placeholder (parse : string → string)
    (document : TextDocument) (collection : gmap string (list Diagnostic)) :
  Js.includes (uri document) ":" = true →
  ∃ imageDiagnostics,
    extension.runAllRules path document
    = markRule.validate document [] ++ imageDiagnostics
    ∧ Forall
        (λ d, ∃ c,
           code d = Some c
           ∧ value c = "fix-mark-marks"
           ∧ commandId (target c) = fixCommand
           ∧ argUri (target c) = "DOCUMENT_URI_PLACEHOLDER"
           ∧ argUri (target c) ≠ uri document
           ∧ extension.editUri
               (extension.fixIssue parse (argUri (target c))
                  (argRange (target c)) (argText (target c)))
             = parse "DOCUMENT_URI_PLACEHOLDER")
        (markRule.validate document [])
    ∧ (extension.isHtmlLike document = true →
       extension.validateDocument path document collection !! uri document
       = Some (markRule.validate document [] ++ imageDiagnostics)).
Proof.
  intros Hcolon.
  destruct (imageRule_validate_emitted document (markRule.validate document []))
    as [emitted He].
  exists emitted. split; [exact He|]. split.
  - unfold markRule.validate.
    generalize (markRule.findTotalQuestionMarks (getText document)). intros l.
    apply (fold_left_push_Forall _
             (λ m, negb (markRule.isCorrectMarkUsage (markRule.points m)
                           (markRule.term m)))
             (λ m, markRule.createDiagnostic (markRule.getMatchRange document m)
                     (markRule.points m))); [|constructor].
    intros m. eexists. split; [reflexivity|]. cbn.
    split_and!; try reflexivity.
    intros Heq. rewrite <-Heq in Hcolon. by vm_compute in Hcolon.
  - intros Hhtml. unfold extension.validateDocument. rewrite Hhtml. cbn [negb].
    rewrite lookup_insert_eq. f_equal. exact He.
Qed.

End Pass.

(** ** The mark rule: the corrected text, extracted again *)

Section Reextract.

Import markRule.

Lemma numberToString_cons (n : N) :
  ∃ d ds, Js.numberToString n = String d ds
          ∧ Js.isDigit d = true ∧ digits ds = true.
Proof.
  pose proof (NumberingFacts.numberToString_digits n) as Hd.
  destruct (Js.numberToString n) as [|d ds] eqn:E.
  - exfalso. pose proof (f_equal Js.parseInt E) as E'.
    rewrite parseInt_numberToString in E'. subst n. by vm_compute in E.
  - simpl in Hd. apply andb_true_iff in Hd as [H1 H2]. by exists d, ds.
Qed.

Lemma isDigit_not_isSpace (c : ascii) : Js.isDigit c = true → Js.isSpace c = false.
Proof.
  unfold Js.isDigit, Js.isSpace, Js.inRange.
  intros [H1 H2]%andb_true_iff. apply Nat.leb_le in H1, H2.
  repeat (apply orb_false_iff; split).
  - apply andb_false_iff. right. apply Nat.leb_gt. lia.
  - apply Nat.eqb_neq. lia.
  - apply Nat.eqb_neq. lia.
Qed.

(** A greedy run of digits that ends before a character which is none takes
    them all, if the rest of the pattern then matches. *)
Lemma star_digits (k : Re.cont) (ds rest : string) (pos : nat)
    (marks : list nat) (r : nat * list nat) :
  digits ds = true →
  (∀ c rest', rest = String c rest' → Js.isDigit c = false) →
  k rest (pos + String.length ds) marks = Some r →
  Re.star Js.isDigit k (ds +:+ rest) pos marks = Some r.
Proof.
  intros Hds Hrest. revert pos.
  induction ds as [|d ds IH]; intros pos Hk; simpl in *.
  - rewrite Nat.add_0_r in Hk. destruct rest as [|c rest']; [done|].
    simpl. by rewrite (Hrest c rest' eq_refl).
  - apply andb_true_iff in Hds as [Hd Hds]. rewrite Hd.
    rewrite (IH Hds (S pos)); [done|].
    by replace (S pos + String.length ds) with (pos + S (String.length ds)) by lia.
Qed.

Lemma run_marksText (ds : string) (d : ascii) :
  Js.isDigit d = true → digits ds = true →
  Re.run true (Re.atoms regex) (marksText d ds) 0 []
  = Some (58 + String.length ds,
          [49 + String.length ds; 44 + String.length ds;
           43 + String.length ds; 42]).
Proof.
  intros Hd Hds. unfold marksText, regex, Re.Word, Re.Plus, Re.Group.
  cbn [Re.atoms app]. simpl String.append. unfold Js.dq. simpl String.append.
  eapply ReFacts.run_word; [reflexivity|].
  eapply ReFacts.run_cls; [reflexivity|].
  rewrite ReFacts.run_star_stop by reflexivity.
  eapply ReFacts.run_word; [reflexivity|].
  eapply ReFacts.run_star_step; [reflexivity|].
  rewrite ReFacts.run_star_stop by reflexivity.
  eapply ReFacts.run_word; [reflexivity|].
  eapply ReFacts.run_star_step; [reflexivity|].
  rewrite ReFacts.run_star_stop by (by apply isDigit_not_isSpace).
  rewrite ReFacts.run_mark.
  eapply ReFacts.run_cls; [exact Hd|].
  change (Re.run true (Re.Star Js.isDigit :: ?rest)) with
    (Re.star Js.isDigit (Re.run true rest)).
  apply star_digits; [exact Hds | by intros c rest' [= <- _] |].
  rewrite ReFacts.run_mark.
  eapply ReFacts.run_star_step; [reflexivity|].
  rewrite ReFacts.run_star_stop by reflexivity.
  rewrite ReFacts.run_mark.
  eapply ReFacts.run_second_word; [reflexivity | reflexivity | reflexivity |].
  rewrite ReFacts.run_mark.
  eapply ReFacts.run_word; [reflexivity|].
  cbn [Re.run String.length]. do 2 f_equal; [lia | repeat (f_equal; try lia)].
Qed.

Lemma length_marksText (d : ascii) (ds : string) :
  String.length (marksText d ds) = 58 + String.length ds.
Proof.
  unfold marksText, Js.dq. simpl. rewrite JsFacts.length_append. simpl. lia.
Qed.

Lemma exec_marksText (ds : string) (d : ascii) :
  Js.isDigit d = true → digits ds = true →
  Re.exec regex (marksText d ds) 0
  = Some (Re.Result 0 (marksText d ds) [String d ds; "marks"]).
Proof.
  intros Hd Hds. unfold Re.exec. cbn [Nat.leb Js.drop].
  assert (∀ s, Re.search regex s s 0
               = match Re.run true (Re.atoms regex) s 0 [] with
                 | Some r => Some (Re.mkResult s 0 r)
                 | None => match s with
                           | EmptyString => None
                           | String _ s' => Re.search regex s s' 1
                           end
                 end) as Hsearch by (by intros []).
  rewrite Hsearch, run_marksText by done.
  unfold Re.mkResult. cbn [fst snd rev app Re.captures]. f_equal. f_equal.
  - unfold Js.substring. rewrite Nat.sub_0_r, <-(length_marksText d).
    apply JsFacts.substring_0_length.
  - f_equal; [|f_equal].
    + unfold Js.substring, marksText, Js.dq.
      replace (43 + String.length ds - 42) with (S (String.length ds)) by lia.
      simpl. f_equal. apply JsFacts.substring_0_append.
    + unfold Js.substring, marksText, Js.dq.
      replace (49 + String.length ds - (44 + String.length ds)) with 5 by lia.
      replace (44 + String.length ds) with (43 + (String.length ds + 1)) by lia.
      simpl. by rewrite JsFacts.substring_skip_append.
Qed.

Lemma findTotalQuestionMarks_marksText (ds : string) (d : ascii) :
  Js.isDigit d = true → digits ds = true →
  findTotalQuestionMarks (marksText d ds)
  = [mkMatch (marksText d ds) (Js.parseInt (String d ds)) "marks" 0].
Proof.
  intros Hd Hds. unfold findTotalQuestionMarks, Re.execAll.
  rewrite ReFacts.execLoop_S, exec_marksText by done.
  unfold Re.lastIndexOf. cbn [Re.index Re.matched Nat.add].
  rewrite length_marksText.
  change (58 + String.length ds) with (S (57 + String.length ds)).
  rewrite ReFacts.execLoop_S.
  assert (Re.exec regex (marksText d ds) (S (57 + String.length ds)) = None) as ->.
  { unfold Re.exec. rewrite length_marksText.
    change (S (57 + String.length ds)) with (58 + String.length ds).
    rewrite Nat.leb_refl, <-(length_marksText d), JsFacts.drop_length. done. }
  done.
Qed.

(** The corrected text that a fix proposes for a safe integer is an
    annotation again: extracted again, it gives one match, with the number
    and the term of the fix. *)
Lemma corrected_text_extracted_again (n : N) :
  Js.isSafeInteger n = true →
  findTotalQuestionMarks (createCorrectedText n)
  = [mkMatch (createCorrectedText n) n (getCorrectTerm n) 0].
Proof.
  intros _. unfold createCorrectedText, getCorrectTerm.
  destruct (N.eqb_spec n 1) as [->|Hn]; [by vm_compute|].
  destruct (numberToString_cons n) as (d & ds & Hs & Hd & Hds).
  rewrite Hs. change (_ +:+ _) with (marksText d ds).
  rewrite findTotalQuestionMarks_marksText by done.
  by rewrite <-Hs, parseInt_numberToString.
Qed.

(** The fix of the mark rule passes the check of the rule exactly for the
    safe integers other than 0. *)
Lemma fix_passes_iff_positive (n : N) :
  Js.isSafeInteger n = true →
  Forall (λ m, isCorrectMarkUsage (points m) (term m) = true)
         (findTotalQuestionMarks (createCorrectedText n))
  ↔ n ≠ 0%N.
Proof.
  intros Hsafe. rewrite corrected_text_extracted_again, Forall_singleton by done.
  cbn [points term]. unfold isCorrectMarkUsage, getCorrectTerm.
  destruct (N.eqb_spec n 1) as [->|Hn]; [done|]. cbn [andb orb].
  destruct (N.ltb_spec 1 n) as [Hlt|Hle]; cbn [andb String.eqb]; split; try done; lia.
Qed.

End Reextract.

(** ** Examples, witnesses and counterexamples *)

Section Instances.

Import Examples.

Example run_numbered :
  extension.runAllRules Host.posix (lesson numbered)
  = [ mkDiagnostic (mkRange (mkPosition 0 64) (mkPosition 0 96))
        "Duplicate image number: 2 is used 2 times" Error validatorSource None;
      mkDiagnostic (mkRange (mkPosition 0 64) (mkPosition 0 96))
        "Image numbering is not sequential. Expected 03, found 02"
        Warning validatorSource None ].
Proof. vm_compute. reflexivity. Qed.

Example run_noFinding : extension.runAllRules Host.posix (lesson noFinding) = [].
Proof. vm_compute. reflexivity. Qed.

(** The numbers 1, 2, 2, 3: the number 2 occurs twice, and the one Error is
    over the third tag, the last one with the number 2. *)
Lemma duplicate_number_error_witness :
  let images := imageRule.findAllImages numbered in
  imageNumbers images = [1; 2; 2; 3]%N
  ∧ forallb Js.isSafeInteger (imageNumbers images) = true
  ∧ (1 < occurrences 2 (imageNumbers images))%N
  ∧ ∃ emitted,
      imageRule.validateImageNumbering (lesson numbered) images [] = emitted
      ∧ filter (λ d, severity d = Error) emitted
        = [mkDiagnostic (mkRange (mkPosition 0 64) (mkPosition 0 96))
             "Duplicate image number: 2 is used 2 times"
             Error validatorSource None].
Proof.
  cbn zeta. split; [vm_compute; reflexivity|].
  assert (forallb Js.isSafeInteger
            (imageNumbers (imageRule.findAllImages numbered)) = true) as Hsafe
    by (vm_compute; reflexivity).
  split; [exact Hsafe|].
  assert (1 < occurrences 2 (imageNumbers (imageRule.findAllImages numbered)))%N
    as Hocc by (vm_compute; reflexivity).
  split; [exact Hocc|].
  destruct (duplicate_number_error (lesson numbered)
              (imageRule.findAllImages numbered) [] 2 Hsafe Hocc)
    as (image & emitted & Himage & Hemitted & Hone & Hall).
  cbn [app] in Hemitted.
  exists emitted. split; [exact Hemitted|].
  assert (image = imageRule.mkImage (img "lesson5_files/02.png")
                    "lesson5_files/02.png" 64 false) as ->
    by (vm_compute in Himage; injection Himage as <-; reflexivity).
  assert (filter (λ d, severity d = Error) emitted
          = filter (λ d, severity d = Error
                         ∧ message d
                           = "Duplicate image number: " +:+ Js.numberToString 2
                             +:+ " is used "
                             +:+ Js.numberToString
                                   (occurrences 2
                                      (imageNumbers
                                         (imageRule.findAllImages numbered)))
                             +:+ " times") emitted) as ->.
  { rewrite <-Hemitted. vm_compute. reflexivity. }
  rewrite Hone. vm_compute. reflexivity.
Defined.

(** The same document: the second 2 is not 2 + 1, and the Warning names 03
    and 02. *)
Lemma duplicate_number_gap_warning_witness :
  let images := imageRule.findAllImages numbered in
  forallb Js.isSafeInteger (imageNumbers images) = true
  ∧ (1 < occurrences 2 (imageNumbers images))%N
  ∧ mkDiagnostic (mkRange (mkPosition 0 64) (mkPosition 0 96))
      "Image numbering is not sequential. Expected 03, found 02"
      Warning validatorSource None
    ∈ imageRule.validateImageNumbering (lesson numbered) images [].
Proof.
  cbn zeta.
  assert (forallb Js.isSafeInteger
            (imageNumbers (imageRule.findAllImages numbered)) = true) as Hsafe
    by (vm_compute; reflexivity).
  split; [exact Hsafe|].
  assert (1 < occurrences 2 (imageNumbers (imageRule.findAllImages numbered)))%N
    as Hocc by (vm_compute; reflexivity).
  split; [exact Hocc|].
  destruct (duplicate_number_gap_warning (lesson numbered)
              (imageRule.findAllImages numbered) [] 2 Hsafe Hocc)
    as (image & emitted & Himage & Hemitted & Hin).
  cbn [app] in Hemitted. rewrite Hemitted.
  assert (image = imageRule.mkImage (img "lesson5_files/02.png")
                    "lesson5_files/02.png" 64 false) as ->
    by (vm_compute in Himage; injection Himage as <-; reflexivity).
  exact Hin.
Defined.

Example run_typo :
  extension.runAllRules Host.posix (lesson typo)
  = [ mkDiagnostic (mkRange (mkPosition 0 0) (mkPosition 0 30))
        ("Possible typo in image tag. Should be " +:+ img "lesson5_files/01.png")
        Error validatorSource
        (Some (mkCode "fix-image-tag-typo"
                 (mkCommandUri fixCommand "file:///courses/lesson5.html"
                    (mkRange (mkPosition 0 0) (mkPosition 0 30))
                    (img "lesson5_files/01.png")))) ].
Proof. vm_compute. reflexivity. Qed.



Example run_bare :
  extension.runAllRules Host.posix (lesson bare)
  = [ mkDiagnostic (mkRange (mkPosition 0 0) (mkPosition 0 29))
        "File path found outside a proper <img> tag. Check for HTML syntax errors."
        Warning validatorSource None ].
Proof. vm_compute. reflexivity. Qed.

(** A path in running text. *)
Lemma outside_tag_warning_for_path_witness :
  imageRule.filesMatches bare = [] ++ "lesson5_files/07.png" :: []
  ∧ imageRule.foundInCorrectTag (imageRule.findAllImages bare)
      "lesson5_files/07.png" = false
  ∧ NoDup (imageRule.filesMatches bare)
  ∧ ∃ i, Js.indexOf bare "lesson5_files/07.png" = Some i.
Proof.
  split; [vm_compute; reflexivity|]. split; [vm_compute; reflexivity|].
  destruct (outside_tag_warning_for_path (lesson bare) bare
              (imageRule.findAllImages bare) [] [] [] "lesson5_files/07.png")
    as (Hnd & _ & i & Hi & _); [vm_compute; reflexivity..|].
  split; [exact Hnd|]. by exists i.
Defined.

(** The claim C7 fails on a repeated path: the reference at offset 73 is in
    no tag, no typo pattern matches around it and no diagnostic covers its
    position, but the path is checked once, at its first occurrence, and the
    only Warning is the one around offset 0. *)
Lemma outside_tag_warning_skips_repeated_reference :
  let text := repeatedBare in
  let images := imageRule.findAllImages text in
  let output := imageRule.findImageTagTypos (lesson text) text images [] in
  ((λ m, (Re.index m, Re.matched m)) <$> Re.execAll imageRule.filesRegex text)
    = [(0, "a_files/1.png"); (73, "a_files/1.png")]
  ∧ images = []
  ∧ imageRule.firstTypo imageRule.typoMatches
      (imageRule.contextText text "a_files/1.png" 73) = None
  ∧ output = [imageRule.outsideTagDiagnostic (lesson text) "a_files/1.png" 0]
  ∧ imageRule.covered (lesson text) output 73 = false
  ∧ ¬ (∀ m, m ∈ Re.execAll imageRule.filesRegex text →
            imageRule.foundInCorrectTag images (Re.matched m) = false →
            imageRule.firstTypo imageRule.typoMatches
              (imageRule.contextText text (Re.matched m) (Z.of_nat (Re.index m)))
            = None →
            imageRule.covered (lesson text) output (Z.of_nat (Re.index m)) = false →
            imageRule.outsideTagDiagnostic (lesson text) (Re.matched m)
              (Z.of_nat (Re.index m)) ∈ output).
Proof.
  cbn zeta. split_and!; try (vm_compute; reflexivity).
  intros H.
  specialize (H (Re.Result 73 "a_files/1.png" ["a"; "1"])).
  assert (imageRule.outsideTagDiagnostic (lesson repeatedBare) "a_files/1.png" 73
          ∈ imageRule.findImageTagTypos (lesson repeatedBare) repeatedBare
              (imageRule.findAllImages repeatedBare) []) as Hd.
  { apply H; [vm_compute; right; left | vm_compute; reflexivity..]. }
  vm_compute in Hd. apply list_elem_of_singleton in Hd. discriminate Hd.
Qed.

Example run_wrongFolder :
  extension.runAllRules Host.posix (lesson wrongFolder)
  = [ mkDiagnostic (mkRange (mkPosition 0 0) (mkPosition 0 30))
        ("Image source should be in " +:+ Js.dq +:+ "lesson5_files" +:+ Js.dq
         +:+ " folder")
        Warning validatorSource
        (Some (mkCode "fix-image-folder"
                 (mkCommandUri fixCommand "file:///courses/lesson5.html"
                    (mkRange (mkPosition 0 0) (mkPosition 0 30))
                    (img "lesson5_files/01.png")))) ].
Proof. vm_compute. reflexivity. Qed.

(** The claim C5 fails on an empty path: an [img] tag whose [src] is the
    empty string is a well-formed match whose path does not contain the
    expected folder name, and no Warning is pushed for it. *)
Lemma folder_warning_skips_empty_src :
  let document := lesson emptySrc in
  let images := imageRule.findAllImages emptySrc in
  let expectedFolderName := parseName Host.posix (fileName document) +:+ "_files" in
  images = [imageRule.mkImage emptySrc "" 0 false]
  ∧ expectedFolderName = "lesson5_files"
  ∧ imageRule.validateFolderNames Host.posix document images expectedFolderName []
    = []
  ∧ imageRule.validate Host.posix document [] = []
  ∧ ¬ (∀ image, image ∈ images →
         Js.includes (imageRule.src image) expectedFolderName = false →
         ∃ d, d ∈ imageRule.validateFolderNames Host.posix document images
                    expectedFolderName []
              ∧ severity d = Warning).
Proof.
  cbn zeta. split_and!; try (vm_compute; reflexivity).
  intros H.
  destruct (H (imageRule.mkImage emptySrc "" 0 false)) as (d & Hd & _).
  - vm_compute. left.
  - vm_compute. reflexivity.
  - vm_compute in Hd. by apply elem_of_nil in Hd.
Qed.

(** C2 at the value 0: the fix for [0 mark] is [0 marks], which
    [isCorrectMarkUsage] rejects again, so the fixed text still triggers the
    rule; [getCorrectTerm] names "marks" as the correct term for 0 and
    [isCorrectMarkUsage] accepts "marks" only above 1. *)
Theorem fix_for_zero_marks_still_fails :
  let text := annotation "0" "mark" in
  ∃ m m',
    markRule.findTotalQuestionMarks text = [m]
    ∧ markRule.points m = 0%N
    ∧ markRule.isCorrectMarkUsage (markRule.points m) (markRule.term m) = false
    ∧ (argText ∘ target <$>
         (markRule.validate (lesson text) [] ≫= λ d, option_list (code d)))
      = [markRule.createCorrectedText 0]
    ∧ replaceRange text (markRule.index m)
        (markRule.index m + String.length (markRule.fullMatch m))
        (markRule.createCorrectedText (markRule.points m))
      = annotation "0" "marks"
    ∧ markRule.findTotalQuestionMarks (annotation "0" "marks") = [m']
    ∧ markRule.isCorrectMarkUsage (markRule.points m') (markRule.term m') = false
    ∧ markRule.getCorrectTerm 0 = "marks"
    ∧ length (markRule.validate (lesson (annotation "0" "marks")) []) = 1.
Proof.
  cbn zeta. eexists _, _. split; [vm_compute; reflexivity|].
  split_and!; vm_compute; reflexivity.
Qed.

(** The lesson with an image in the folder [wrong_files]. *)
Lemma folder_name_warning_witness :
  let document := lesson wrongFolder in
  let image := imageRule.mkImage wrongFolder "wrong_files/01.png" 0 false in
  imageRule.findAllImages wrongFolder = [image]
  ∧ imageRule.hasScAttribute image = false
  ∧ imageRule.validateFolderNames Host.posix document [image] "lesson5_files" []
    = [imageRule.folderDiagnostic Host.posix document image "lesson5_files"]
  ∧ ∃ newText,
      code (imageRule.folderDiagnostic Host.posix document image "lesson5_files")
      = Some (mkCode "fix-image-folder"
                (mkCommandUri fixCommand (uri document)
                   (imageRule.getMatchRange document image) newText))
      ∧ newText = img "lesson5_files/01.png".
Proof.
  cbn zeta. split; [vm_compute; reflexivity|]. split; [reflexivity|].
  destruct (folder_name_warning Host.posix (lesson wrongFolder)
              [imageRule.mkImage wrongFolder "wrong_files/01.png" 0 false]
              "lesson5_files" []) as (Hemitted & Hd & _).
  split; [rewrite Hemitted; vm_compute; reflexivity|].
  destruct (Hd (imageRule.mkImage wrongFolder "wrong_files/01.png" 0 false))
    as (_ & _ & _ & _ & Hfix).
  destruct (Hfix eq_refl) as (newText & Hcode & Hnew & _).
  exists newText. split; [exact Hcode|]. rewrite Hnew. vm_compute. reflexivity.
Defined.

(** The lesson with the annotation [0 mark]: the payload names the
    placeholder, and the edit goes to a file of that name, not to the
    lesson. *)
Lemma mark_fix_names_placeholder_witness :
  let document := lesson (annotation "0" "mark") in
  Js.includes (uri document) ":" = true
  ∧ uri document = "file:///courses/lesson5.html"
  ∧ ∃ d c,
      extension.validateDocument Host.posix document ∅ !! uri document = Some [d]
      ∧ code d = Some c
      ∧ argUri (target c) = "DOCUMENT_URI_PLACEHOLDER"
      ∧ argUri (target c) ≠ uri document
      ∧ extension.editUri
          (extension.fixIssue Host.uriParse (argUri (target c))
             (argRange (target c)) (argText (target c)))
        = "file:///DOCUMENT_URI_PLACEHOLDER".
Proof.
  cbn zeta. split; [reflexivity|]. split; [reflexivity|].
  destruct (mark_fix_names_placeholder Host.posix Host.uriParse
              (lesson (annotation "0" "mark")) ∅ eq_refl)
    as (imageDiagnostics & Hrun & Hall & Hstored).
  assert (∃ d, markRule.validate (lesson (annotation "0" "mark")) [] = [d])
    as [d Hd] by (vm_compute; by eexists).
  assert (imageDiagnostics = []) as ->.
  { assert (extension.runAllRules Host.posix (lesson (annotation "0" "mark"))
            = markRule.validate (lesson (annotation "0" "mark")) [] ++ [])
      as Hone by (vm_compute; reflexivity).
    rewrite Hrun in Hone. by apply app_inv_head in Hone. }
  rewrite Hd in Hall, Hstored. apply Forall_inv in Hall.
  destruct Hall as (c & Hc & _ & _ & Huri & Hne & Hedit).
  exists d, c. split; [exact (Hstored eq_refl)|].
  split; [exact Hc|]. split; [exact Huri|]. split; [exact Hne|].
  rewrite Hedit. vm_compute. reflexivity.
Defined.

End Instances.

(** * Further properties of the rules *)

(** ** The mark rule and the pass *)

Section PassMore.

Variable path : PathModule.

(** The loop of the mark rule as a list: the diagnostics of the matches
    that fail the check, in order. *)
Lemma mark_validate_list (document : TextDocument)
    (diagnostics : list Diagnostic) :
  markRule.validate document diagnostics
  = diagnostics ++
      ((λ m, markRule.createDiagnostic (markRule.getMatchRange document m)
               (markRule.points m))
       <$> filter (λ m, markRule.isCorrectMarkUsage (markRule.points m)
                          (markRule.term m) = false)
             (markRule.findTotalQuestionMarks (getText document))).
Proof.
  unfold markRule.validate.
  generalize (markRule.findTotalQuestionMarks (getText document)). intros l.
  revert diagnostics. induction l as [|m l IH]; intros diagnostics.
  - simpl. by rewrite app_nil_r.
  - cbn [fold_left]. rewrite IH, filter_cons.
    destruct (markRule.isCorrectMarkUsage _ _) eqn:E; cbn [negb].
    + by rewrite decide_False.
    + rewrite decide_True by done. by rewrite fmap_cons, <-app_assoc.
Qed.

(** X1. The mark rule pushes one diagnostic for each match that fails
    [isCorrectMarkUsage], in the order of the matches, after the diagnostics
    that the array holds, and none for a match that passes; the diagnostic
    is a Warning over the range of the match whose fix, over the same range,
    is the corrected text for the number of the match. *)
Theorem mark_validate_emitted (document : TextDocument)
    (diagnostics : list Diagnostic) :
  markRule.validate document diagnostics
  = diagnostics ++
      ((λ m, mkDiagnostic (markRule.getMatchRange document m)
               ("Use " +:+ Js.dq +:+ markRule.getCorrectTerm (markRule.points m)
                +:+ Js.dq +:+ " for " +:+ Js.numberToString (markRule.points m)
                +:+ " point" +:+ (if (1 <? markRule.points m)%N then "s" else ""))
               Warning validatorSource
               (Some (mkCode "fix-mark-marks"
                        (mkCommandUri fixCommand "DOCUMENT_URI_PLACEHOLDER"
                           (markRule.getMatchRange document m)
                           (markRule.createCorrectedText (markRule.points m))))))
       <$> filter (λ m, markRule.isCorrectMarkUsage (markRule.points m)
                          (markRule.term m) = false)
             (markRule.findTotalQuestionMarks (getText document))).
Proof. apply mark_validate_list. Qed.


(** X2. [validateDocument] writes the entry of the document only: the
    entries of the other URIs stay as they are, a document that is not
    HTML-like leaves the whole collection as it is, and validating the same
    document again changes nothing more. *)
Theorem validateDocument_frame (document : TextDocument)
    (collection : gmap string (list Diagnostic)) :
  (∀ other, other ≠ uri document →
     extension.validateDocument path document collection !! other
     = collection !! other)
  ∧ (extension.isHtmlLike document = false →
     extension.validateDocument path document collection = collection)
  ∧ extension.validateDocument path document
      (extension.validateDocument path document collection)
    = extension.validateDocument path document collection.
Proof.
  unfold extension.validateDocument.
  destruct (extension.isHtmlLike document); cbn [negb].
  - split_and!; [|done|by rewrite insert_insert_eq].
    intros other Hother. by rewrite lookup_insert_ne.
  - done.
Qed.

Lemma ownDiagnostic_checkFilePath (document : TextDocument) (text : string)
    (images : list imageRule.Image) (diagnostics : list Diagnostic)
    (filePath : string) :
  Forall (ownDiagnostic document) diagnostics →
  Forall (ownDiagnostic document)
    (imageRule.checkFilePath document text images diagnostics filePath).
Proof.
  intros H. unfold imageRule.checkFilePath.
  destruct (imageRule.foundInCorrectTag images filePath); [done|].
  destruct (Js.indexOf text filePath) as [i|]; [|done].
  assert (ownDiagnostic document
            (imageRule.outsideTagDiagnostic document filePath (Z.of_nat i))) as Hw.
  { split_and!; [done | by right | done]. }
  assert (∀ m, ownDiagnostic document
            (imageRule.typoDiagnostic document filePath
               (imageRule.startSearchIndex (Z.of_nat i)) m)) as He.
  { intros m. split_and!; [done | by left |].
    intros c [= <-]. split_and!; [done | done |]. right. left. done. }
  destruct (imageRule.firstTypo _ _) as [m|]; destruct (negb _);
    rewrite ?Forall_app, ?Forall_singleton; auto.
Qed.

Lemma ownDiagnostic_findImageTagTypos (document : TextDocument) (text : string)
    (images : list imageRule.Image) (diagnostics : list Diagnostic) :
  Forall (ownDiagnostic document) diagnostics →
  Forall (ownDiagnostic document)
    (imageRule.findImageTagTypos document text images diagnostics).
Proof.
  rewrite findImageTagTypos_fold. generalize (imageRule.filesMatches text).
  intros l. revert diagnostics.
  induction l as [|p l IH]; intros diagnostics H; simpl; [done|].
  by apply IH, ownDiagnostic_checkFilePath.
Qed.

Lemma ownDiagnostic_folder (document : TextDocument) (image : imageRule.Image)
    (expectedFolderName : string) :
  ownDiagnostic document
    (imageRule.folderDiagnostic path document image expectedFolderName).
Proof.
  split_and!; [done | by right |]. unfold imageRule.folderDiagnostic.
  cbn [code]. destruct (imageRule.hasScAttribute image); cbn [negb]; [done|].
  intros c [= <-]. split_and!; [done | done |]. right. right. done.
Qed.

Lemma ownDiagnostic_numbering (document : TextDocument)
    (images : list imageRule.Image) :
  Forall (ownDiagnostic document)
    (imageRule.validateImageNumbering document images []).
Proof.
  destruct (NumberingFacts.validateImageNumbering_emitted document images [])
    as (imageMap & _ & ->).
  rewrite app_nil_l.
  destruct (merge_sort N.le (imageNumbers images)) as [|firstNumber rest];
    [constructor|].
  rewrite !Forall_app. split_and!.
  - unfold duplicatesEmitted. destruct (decide _); [constructor|].
    apply Forall_forall. intros d ([k c] & _ & Hd)%elem_of_concat_fmap.
    unfold duplicatesOf in Hd. cbn [fst snd] in Hd.
    destruct (1 <? c)%N; [|by apply elem_of_nil in Hd].
    destruct (imageMap !! k); [|by apply elem_of_nil in Hd].
    apply list_elem_of_singleton in Hd as ->.
    split_and!; [done | by left | done].
  - unfold startEmitted. destruct (decide _); [constructor|].
    destruct (imageMap !! firstNumber); [|constructor].
    apply Forall_singleton. split_and!; [done | by right | done].
  - generalize firstNumber. induction rest as [|n rest IH]; intros previous;
      cbn [sequenceEmitted]; [constructor|].
    apply Forall_app. split; [|apply IH]. unfold sequenceOf.
    destruct (decide _); [constructor|].
    destruct (imageMap !! n); [|constructor].
    apply Forall_singleton. split_and!; [done | by right | done].
Qed.

Lemma validateImageNumbering_append (document : TextDocument)
    (images : list imageRule.Image) (diagnostics : list Diagnostic) :
  imageRule.validateImageNumbering document images diagnostics
  = diagnostics ++ imageRule.validateImageNumbering document images [].
Proof.
  destruct (NumberingFacts.validateImageNumbering_emitted document images [])
    as (m1 & Hm1 & ->).
  destruct (NumberingFacts.validateImageNumbering_emitted document images
              diagnostics) as (m2 & Hm2 & ->).
  assert (m1 = m2) as -> by (apply map_eq; intros id; by rewrite Hm1, Hm2).
  done.
Qed.

Lemma validateFolderNames_append (document : TextDocument)
    (images : list imageRule.Image) (expectedFolderName : string)
    (diagnostics : list Diagnostic) :
  imageRule.validateFolderNames path document images expectedFolderName
    diagnostics
  = diagnostics ++
      imageRule.validateFolderNames path document images expectedFolderName [].
Proof. by rewrite !validateFolderNames_emitted. Qed.

(** X3. The image rule pushes its diagnostics in the order of its three
    checks: those of the typo check, then, if the text has a well-formed
    match, the folder warnings and the numbering diagnostics; the last two
    groups do not depend on what the array holds, and a text without a
    well-formed match gets the typo check only. *)
Theorem image_validate_order (document : TextDocument)
    (diagnostics : list Diagnostic) :
  let text := getText document in
  let images := imageRule.findAllImages text in
  ∃ typos,
    imageRule.findImageTagTypos document text images diagnostics
    = diagnostics ++ typos
    ∧ imageRule.validate path document diagnostics
      = diagnostics ++ typos ++
          (if decide (images = []) then []
           else imageRule.validateFolderNames path document images
                  (parseName path (fileName document) +:+ "_files") []
                ++ imageRule.validateImageNumbering document images []).
Proof.
  cbn zeta.
  destruct (findImageTagTypos_emitted document (getText document)
              (imageRule.findAllImages (getText document)) diagnostics)
    as [typos Ht].
  exists typos. split; [done|]. unfold imageRule.validate. cbn zeta.
  rewrite Ht. destruct (imageRule.findAllImages (getText document)) as [|i l] eqn:E.
  - cbn [length Nat.eqb]. rewrite decide_True by done. by rewrite app_nil_r.
  - cbn [length Nat.eqb]. rewrite decide_False by done.
    rewrite validateImageNumbering_append, validateFolderNames_append.
    by rewrite <-!app_assoc.
Qed.

(** X4. Every diagnostic of a pass is one of the program's own: its source
    is the validator's, its severity is Error or Warning, and a fix that it
    carries is the program's command over the diagnostic's own range; the
    mark rule's fixes name the placeholder and belong to Warnings, the fixes
    of the typo check name the document and belong to Errors, and those of
    the folder check name the document and belong to Warnings. *)
Theorem runAllRules_own (document : TextDocument) :
  Forall (ownDiagnostic document) (extension.runAllRules path document).
Proof.
  unfold extension.runAllRules, imageRule.validate. cbn zeta.
  assert (Forall (ownDiagnostic document)
            (imageRule.findImageTagTypos document (getText document)
               (imageRule.findAllImages (getText document))
               (markRule.validate document []))) as Htypos.
  { apply ownDiagnostic_findImageTagTypos.
    rewrite mark_validate_list, app_nil_l.
    apply Forall_forall. intros d (m & -> & _)%list_elem_of_fmap.
    split_and!; [done | by right |].
    intros c [= <-]. split_and!; [done | done |]. left. done. }
  destruct (length _ =? 0); [done|].
  rewrite validateImageNumbering_append, validateFolderNames_emitted.
  rewrite !Forall_app. split_and!; [done | | apply ownDiagnostic_numbering].
  apply Forall_forall. intros d (image & -> & _)%list_elem_of_fmap.
  apply ownDiagnostic_folder.
Qed.

End PassMore.

(** ** The image rule: more on numbering *)

Section NumberingMore.

Import imageRule NumberingFacts.

Lemma imageNumbers_filter (images : list Image) :
  imageNumbers (filter (λ image, is_Some (imageNumber image)) images)
  = imageNumbers images.
Proof.
  unfold imageNumbers. induction images as [|image images IH]; [done|].
  rewrite filter_cons.
  destruct (decide (is_Some (imageNumber image))) as [[n Hn]|Hn].
  - simpl. rewrite Hn. by f_equal.
  - simpl. destruct (imageNumber image) as [n|] eqn:E; [|done].
    destruct Hn. by eexists.
Qed.

Lemma lastMatchWith_filter (id : N) (images : list Image) :
  lastMatchWith id (filter (λ image, is_Some (imageNumber image)) images)
  = lastMatchWith id images.
Proof.
  unfold lastMatchWith. f_equal.
  induction images as [|image images IH]; [done|].
  rewrite !filter_cons.
  destruct (decide (is_Some (imageNumber image))) as [Hs|Hn].
  - rewrite filter_cons. destruct (decide _); by rewrite IH.
  - rewrite decide_False; [done|]. intros H. apply Hn. by eexists.
Qed.

Lemma imageNumbers_none (images : list Image) :
  Forall (λ image, imageNumber image = None) images → imageNumbers images = [].
Proof.
  unfold imageNumbers. induction 1 as [|image l Hi Hl IH]; [done|].
  simpl. by rewrite Hi.
Qed.

(** X5. A match whose path has no number (no [/<digits>.]) does not count
    in the numbering check: the result is the same without these matches,
    and if no match has a number the check pushes nothing. *)
Theorem numbering_ignores_unnumbered (document : TextDocument)
    (images : list Image) (diagnostics : list Diagnostic) :
  validateImageNumbering document images diagnostics
  = validateImageNumbering document
      (filter (λ image, is_Some (imageNumber image)) images) diagnostics
  ∧ (Forall (λ image, imageNumber image = None) images →
     validateImageNumbering document images diagnostics = diagnostics).
Proof.
  destruct (validateImageNumbering_emitted document images diagnostics)
    as (m1 & Hm1 & H1).
  split.
  - destruct (validateImageNumbering_emitted document
                (filter (λ image, is_Some (imageNumber image)) images)
                diagnostics) as (m2 & Hm2 & ->).
    rewrite H1, imageNumbers_filter.
    assert (m1 = m2) as ->; [|done].
    apply map_eq. intros id. by rewrite Hm1, Hm2, lastMatchWith_filter.
  - intros Hnone. rewrite H1.
    rewrite (imageNumbers_none _ Hnone). by rewrite app_nil_r.
Qed.


(** *** The smallest number and the neighbours in the sorted list *)

Lemma sorted_head_min (ids : list N) (first : N) (rest : list N) :
  merge_sort N.le ids = first :: rest →
  first ∈ ids ∧ ∀ n, n ∈ ids → (first ≤ n)%N.
Proof.
  intros Hs.
  pose proof (merge_sort_Permutation N.le ids) as Hp.
  pose proof (StronglySorted_merge_sort N.le ids) as Hsorted.
  rewrite Hs in Hp, Hsorted. split.
  - rewrite <-Hp. left.
  - intros n Hn. rewrite <-Hp in Hn.
    apply StronglySorted_inv in Hsorted as [_ Hall].
    apply elem_of_cons in Hn as [->|Hn]; [done|].
    rewrite Forall_forall in Hall. by apply Hall.
Qed.

Lemma sorted_neighbours (a b : N) (l : list N) :
  StronglySorted N.le l → a ∈ l → b ∈ l → (a < b)%N →
  (∀ n, n ∈ l → ¬ (a < n < b)%N) →
  ∃ l1 l2, l = l1 ++ a :: b :: l2.
Proof.
  intros Hs Ha Hb Hab. induction l as [|x l IH]; intros Hbetween.
  { by apply elem_of_nil in Ha. }
  apply StronglySorted_inv in Hs as [Hs Hall]. rewrite Forall_forall in Hall.
  assert (b ∈ l) as Hbl.
  { apply elem_of_cons in Hb as [->|Hb]; [|done].
    apply elem_of_cons in Ha as [->|Ha]; [lia|].
    specialize (Hall _ Ha). lia. }
  destruct (decide (a ∈ l)) as [Hal|Hal].
  - destruct IH as (l1 & l2 & ->); [done..| |].
    + intros n Hn. apply Hbetween. by right.
    + by exists (x :: l1), l2.
  - apply elem_of_cons in Ha as [<-|Ha]; [|done].
    destruct l as [|y l]; [by apply elem_of_nil in Hbl|].
    assert (y = b) as ->.
    { assert (a ≤ y)%N by (apply Hall; left).
      assert (y ≠ a) by (intros ->; apply Hal; left).
      assert (y ≤ b)%N.
      { apply elem_of_cons in Hbl as [->|Hbl]; [done|].
        apply StronglySorted_inv in Hs as [_ Hy].
        rewrite Forall_forall in Hy. by apply Hy. }
      destruct (decide (y = b)) as [|Hne]; [done|].
      destruct (Hbetween y); [right; left | lia]. }
    by exists [], l.
Qed.

(** *** The messages of the three checks differ *)

Lemma start_not_duplicate (found num : string) (count : N) :
  "Image numbering should start with 01, found " +:+ found
  ≠ duplicateMessage num count.
Proof. unfold duplicateMessage. simpl. discriminate. Qed.

Lemma start_not_sequence (found : string) (previous currentNum : N) :
  "Image numbering should start with 01, found " +:+ found
  ≠ sequenceMessage previous currentNum.
Proof. unfold sequenceMessage. simpl. discriminate. Qed.

Lemma duplicatesEmitted_errors (document : TextDocument) (imageMap : gmap N Image)
    (ids : list N) (d : Diagnostic) :
  d ∈ duplicatesEmitted document imageMap ids →
  ∃ id count, message d = duplicateMessage id count.
Proof.
  unfold duplicatesEmitted. destruct (decide _); [by intros ?%elem_of_nil|].
  intros ([k c] & _ & Hd)%elem_of_concat_fmap.
  unfold duplicatesOf in Hd. cbn [fst snd] in Hd.
  destruct (1 <? c)%N; [|by apply elem_of_nil in Hd].
  destruct (imageMap !! k); [|by apply elem_of_nil in Hd].
  apply list_elem_of_singleton in Hd as ->. by exists (Js.numberToString k), c.
Qed.

Lemma sequenceEmitted_messages (document : TextDocument)
    (imageMap : gmap N Image) (previous : N) (rest : list N) (d : Diagnostic) :
  d ∈ sequenceEmitted document imageMap previous rest →
  ∃ a b, message d = sequenceMessage a b.
Proof.
  revert previous. induction rest as [|n rest IH]; intros previous;
    cbn [sequenceEmitted]; [by intros ?%elem_of_nil|].
  intros [Hd|Hd]%elem_of_app; [|by eapply IH].
  unfold sequenceOf in Hd. destruct (decide _); [by apply elem_of_nil in Hd|].
  destruct (imageMap !! n); [|by apply elem_of_nil in Hd].
  apply list_elem_of_singleton in Hd as ->. by exists previous, n.
Qed.

(** X6. The check of the start, where the numbers read from the paths of
    the matches are safe integers: with [m] the smallest number of the
    matches, if [m] is not 1 the check pushes exactly one diagnostic with
    the message "Image numbering should start with 01, found <m>" ([m] in
    decimal digits, with a 0 in front of a number below 10), a Warning
    without a fix over the last match with the number [m], from its offset
    to the end of its text; if [m] is 1 it pushes no diagnostic whose
    message begins like this. *)
Theorem numbering_start_warning (document : TextDocument) (images : list Image)
    (diagnostics : list Diagnostic) (m : N) :
  forallb Js.isSafeInteger (imageNumbers images) = true →
  m ∈ imageNumbers images →
  (∀ n, n ∈ imageNumbers images → (m ≤ n)%N) →
  ∃ image emitted,
    lastMatchWith m images = Some image
    ∧ validateImageNumbering document images diagnostics = diagnostics ++ emitted
    ∧ (m ≠ 1%N →
       filter (λ d, message d
                    = "Image numbering should start with 01, found "
                      +:+ ((if (m <? 10)%N then "0" else "")
                           +:+ Js.numberToString m))
              emitted
       = [mkDiagnostic
            (newRange
               (positionAt document (Z.of_nat (index image)))
               (positionAt document
                  (Z.of_nat (index image + String.length (fullMatch image)))))
            ("Image numbering should start with 01, found "
             +:+ ((if (m <? 10)%N then "0" else "") +:+ Js.numberToString m))
            Warning validatorSource None])
    ∧ (m = 1%N →
       ∀ d found, d ∈ emitted →
         message d ≠ "Image numbering should start with 01, found " +:+ found).
Proof.
  intros _ Hm Hmin.
  destruct (lastMatchWith_is_Some m images Hm) as [image Himage].
  destruct (validateImageNumbering_emitted document images diagnostics)
    as (imageMap & Hmap & ->).
  exists image. eexists. split; [done|]. split; [reflexivity|].
  destruct (merge_sort N.le (imageNumbers images)) as [|firstNumber rest] eqn:Es.
  { pose proof (merge_sort_Permutation N.le (imageNumbers images)) as Hp.
    rewrite Es in Hp. apply Permutation_nil in Hp. rewrite Hp in Hm.
    by apply elem_of_nil in Hm. }
  destruct (sorted_head_min _ _ _ Es) as [Hfirst Hle].
  assert (firstNumber = m) as ->.
  { specialize (Hmin _ Hfirst). specialize (Hle _ Hm). lia. }
  assert (∀ l : list Diagnostic,
    (∀ d, d ∈ l → message d ≠ startMessage m) →
    filter (λ d, message d = startMessage m) l = []) as Hnone.
  { induction l as [|d l IH]; [done|]. intros Hl.
    rewrite filter_cons, decide_False by (apply Hl; left).
    apply IH. intros d' Hd'. apply Hl. by right. }
  split.
  - intros Hne. rewrite <-padStart2_numberToString.
    change (String.append "Image numbering should start with 01, found " _)
      with (startMessage m).
    rewrite !filter_app.
    rewrite (Hnone (duplicatesEmitted _ _ _)), (Hnone (sequenceEmitted _ _ _ _)).
    + unfold startEmitted. rewrite decide_False by done.
      rewrite Hmap, Himage. rewrite filter_cons, decide_True by done.
      by rewrite app_nil_r.
    + intros d (a & b & ->)%sequenceEmitted_messages Heq.
      symmetry in Heq. by apply start_not_sequence in Heq.
    + intros d (a & b & ->)%duplicatesEmitted_errors Heq.
      symmetry in Heq. by apply start_not_duplicate in Heq.
  - intros -> d n [Hd|[Hd|Hd]%elem_of_app]%elem_of_app Heq; symmetry in Heq.
    + apply duplicatesEmitted_errors in Hd as (a & b & Hd).
      rewrite Hd in Heq. by apply start_not_duplicate in Heq.
    + unfold startEmitted in Hd. rewrite decide_True in Hd by done.
      by apply elem_of_nil in Hd.
    + apply sequenceEmitted_messages in Hd as (a & b & Hd).
      rewrite Hd in Heq. by apply start_not_sequence in Heq.
Qed.

(** X7. The check of the sequence, where the numbers read from the paths
    of the matches are safe integers: if [a] and [b] are numbers of matches,
    [a] below [b], with no number of a match between them, and [b] is not
    [a + 1], the check pushes the Warning "Image numbering is not
    sequential. Expected <a+1>, found <b>" (both in decimal digits, with a 0
    in front of a number below 10), without a fix, over the last match with
    the number [b], from its offset to the end of its text. *)
Theorem numbering_gap_warning (document : TextDocument) (images : list Image)
    (diagnostics : list Diagnostic) (a b : N) :
  forallb Js.isSafeInteger (imageNumbers images) = true →
  a ∈ imageNumbers images → b ∈ imageNumbers images → (a < b)%N →
  (∀ n, n ∈ imageNumbers images → ¬ (a < n < b)%N) →
  b ≠ (a + 1)%N →
  ∃ image emitted,
    lastMatchWith b images = Some image
    ∧ validateImageNumbering document images diagnostics = diagnostics ++ emitted
    ∧ mkDiagnostic
        (newRange
           (positionAt document (Z.of_nat (index image)))
           (positionAt document
              (Z.of_nat (index image + String.length (fullMatch image)))))
        ("Image numbering is not sequential. Expected "
         +:+ ((if (a + 1 <? 10)%N then "0" else "")
              +:+ Js.numberToString (a + 1))
         +:+ ", found "
         +:+ ((if (b <? 10)%N then "0" else "") +:+ Js.numberToString b))
        Warning validatorSource None ∈ emitted.
Proof.
  intros _ Ha Hb Hab Hbetween Hgap.
  destruct (lastMatchWith_is_Some b images Hb) as [image Himage].
  destruct (validateImageNumbering_emitted document images diagnostics)
    as (imageMap & Hmap & ->).
  exists image. eexists. split; [done|]. split; [reflexivity|].
  pose proof (merge_sort_Permutation N.le (imageNumbers images)) as Hp.
  destruct (sorted_neighbours a b (merge_sort N.le (imageNumbers images)))
    as (l1 & l2 & Hs).
  { apply StronglySorted_merge_sort; apply _. }
  { by rewrite Hp. }
  { by rewrite Hp. }
  { done. }
  { intros n Hn. apply Hbetween. by rewrite <-Hp. }
  rewrite Hs. rewrite <-!padStart2_numberToString.
  assert (mkDiagnostic (getMatchRange document image)
            ("Image numbering is not sequential. Expected "
             +:+ Js.padStart2 (Js.numberToString (a + 1)) +:+ ", found "
             +:+ Js.padStart2 (Js.numberToString b))
            Warning validatorSource None
          ∈ sequenceOf document imageMap a b) as Hd.
  { unfold sequenceOf. rewrite decide_False by done. rewrite Hmap, Himage.
    by apply list_elem_of_singleton. }
  destruct l1 as [|x l1]; simpl.
  - do 2 (apply elem_of_app; right). apply elem_of_app. by left.
  - do 2 (apply elem_of_app; right). by apply sequenceEmitted_adjacent.
Qed.


(** *** The numbering 1, 2, ..., k *)

Lemma oneTo_sorted (k : nat) : StronglySorted N.le (oneTo k).
Proof.
  unfold oneTo. generalize 1. induction k as [|k IH]; intros p; simpl.
  - constructor.
  - constructor; [apply IH|]. apply Forall_forall.
    intros n (q & -> & Hq)%list_elem_of_fmap. apply elem_of_seq in Hq. lia.
Qed.

Lemma oneTo_NoDup (k : nat) : NoDup (oneTo k).
Proof.
  unfold oneTo. apply NoDup_fmap_2; [|apply NoDup_seq].
  intros x y. apply Nat2N.inj.
Qed.

Lemma sequenceEmitted_consecutive (document : TextDocument)
    (imageMap : gmap N Image) (p k : nat) :
  sequenceEmitted document imageMap (N.of_nat p) (N.of_nat <$> seq (S p) k) = [].
Proof.
  revert p. induction k as [|k IH]; intros p; [done|].
  cbn [seq fmap list_fmap sequenceEmitted]. rewrite IH. unfold sequenceOf.
  rewrite decide_True; [done | lia].
Qed.

Lemma sequenceEmitted_nil_inv (document : TextDocument)
    (imageMap : gmap N Image) (p : nat) (rest : list N) :
  (∀ n, n ∈ rest → is_Some (imageMap !! n)) →
  sequenceEmitted document imageMap (N.of_nat p) rest = [] →
  rest = N.of_nat <$> seq (S p) (length rest).
Proof.
  revert p. induction rest as [|n rest IH]; intros p Hsome; [done|].
  cbn [sequenceEmitted]. intros [Hn Hrest]%app_eq_nil.
  unfold sequenceOf in Hn.
  destruct (decide (n = (N.of_nat p + 1)%N)) as [->|Hne].
  - replace (N.of_nat p + 1)%N with (N.of_nat (S p)) in * by lia.
    cbn [length seq fmap list_fmap]. f_equal. apply IH; [|done].
    intros n Hn'. apply Hsome. by right.
  - destruct (Hsome n) as [image Himage]; [left|]. by rewrite Himage in Hn.
Qed.

(** X8. The numbering check is silent exactly for the numberings 1, 2, ...,
    k (in any order of the matches, each number once; k may be 0): it pushes
    no diagnostic if and only if the numbers of the matches are a
    permutation of 1..k for some k. *)
Theorem numbering_silent_iff (document : TextDocument) (images : list Image)
    (diagnostics : list Diagnostic) :
  validateImageNumbering document images diagnostics = diagnostics
  ↔ ∃ k, imageNumbers images ≡ₚ oneTo k.
Proof.
  destruct (validateImageNumbering_emitted document images diagnostics)
    as (imageMap & Hmap & ->).
  pose proof (merge_sort_Permutation N.le (imageNumbers images)) as Hp.
  pose proof (StronglySorted_merge_sort N.le (imageNumbers images)) as Hsorted.
  split.
  - intros He.
    rewrite <-(app_nil_r diagnostics) in He at 2. apply app_inv_head in He.
    destruct (merge_sort N.le (imageNumbers images)) as [|firstNumber rest] eqn:Es.
    { exists 0. by rewrite <-Hp. }
    apply app_eq_nil in He as [_ [Hstart Hseq]%app_eq_nil].
    assert (∀ n, n ∈ firstNumber :: rest → is_Some (imageMap !! n)) as Hsome.
    { intros n Hn. rewrite Hmap. apply lastMatchWith_is_Some. by rewrite <-Hp. }
    assert (firstNumber = 1%N) as ->.
    { unfold startEmitted in Hstart.
      destruct (decide (firstNumber = 1%N)) as [|Hne]; [done|].
      destruct (Hsome firstNumber) as [image Himage]; [left|].
      by rewrite Himage in Hstart. }
    exists (S (length rest)). rewrite <-Hp. unfold oneTo. cbn [seq fmap list_fmap].
    apply (sequenceEmitted_nil_inv document imageMap 1) in Hseq.
    + by rewrite <-Hseq.
    + intros n Hn. apply Hsome. by right.
  - intros [k Hk].
    assert (merge_sort N.le (imageNumbers images) = oneTo k) as ->.
    { apply (StronglySorted_unique N.le); [done | apply oneTo_sorted |].
      by rewrite Hp. }
    assert (duplicatesEmitted document imageMap (imageNumbers images) = []) as Hd.
    { unfold duplicatesEmitted. rewrite decide_True; [done|].
      rewrite Hk. apply oneTo_NoDup. }
    destruct k as [|k]; [by rewrite app_nil_r|].
    unfold oneTo. cbn [seq fmap list_fmap]. rewrite Hd.
    unfold startEmitted. rewrite decide_True by done.
    rewrite (sequenceEmitted_consecutive document imageMap 1 k).
    by rewrite app_nil_r.
Qed.

End NumberingMore.

(** ** The image rule: more on the typo check *)

Section TyposMore.

Import imageRule.

(** X9. The typo check reports no path that a well-formed match holds in
    its [src], wherever else the path occurs: if every reference path of the
    text is contained in the [src] of some match (in particular if the text
    has no reference), the check leaves the array as it is. *)
Theorem typo_check_silent (document : TextDocument) (text : string)
    (images : list Image) (diagnostics : list Diagnostic) :
  (∀ m, m ∈ Re.execAll filesRegex text →
        ∃ image, image ∈ images ∧ Js.includes (src image) (Re.matched m) = true) →
  findImageTagTypos document text images diagnostics = diagnostics.
Proof.
  intros Hall. rewrite findImageTagTypos_fold.
  destruct (filesMatches_spec text) as (_ & Hiff & _).
  assert (∀ p, p ∈ filesMatches text → foundInCorrectTag images p = true) as Hfound.
  { intros p (m & Hm & <-)%Hiff. destruct (Hall m Hm) as (image & Hi & Hinc).
    unfold foundInCorrectTag. apply existsb_exists. exists image.
    split; [by apply list_elem_of_In | done]. }
  clear Hiff. revert Hfound. generalize (filesMatches text). intros l.
  induction l as [|p l IH]; intros Hfound; [done|].
  cbn [fold_left].
  replace (checkFilePath document text images diagnostics p) with diagnostics.
  - apply IH. intros q Hq. apply Hfound. by right.
  - unfold checkFilePath. by rewrite Hfound by left.
Qed.

(** X10. For each distinct reference path the typo check pushes at most two
    diagnostics, and only of two kinds: an Error with the fix
    [fix-image-tag-typo], or a Warning without a fix. *)
Theorem typo_check_bound (document : TextDocument) (text : string)
    (images : list Image) (diagnostics : list Diagnostic) :
  ∃ emitted,
    findImageTagTypos document text images diagnostics = diagnostics ++ emitted
    ∧ length emitted ≤ 2 * length (filesMatches text)
    ∧ length (filter (λ d, severity d = Error) emitted)
      ≤ length (filesMatches text)
    ∧ Forall (λ d, (severity d = Error
                    ∧ value <$> code d = Some "fix-image-tag-typo")
                   ∨ (severity d = Warning ∧ code d = None))
             emitted.
Proof.
  rewrite findImageTagTypos_fold. generalize (filesMatches text). intros l.
  revert diagnostics. induction l as [|p l IH]; intros diagnostics.
  - exists []. simpl. rewrite app_nil_r. split_and!; [done | lia | lia | constructor].
  - cbn [fold_left].
    assert (∃ e, checkFilePath document text images diagnostics p
                 = diagnostics ++ e
                 ∧ length e ≤ 2
                 ∧ length (filter (λ d, severity d = Error) e) ≤ 1
                 ∧ Forall (λ d, (severity d = Error
                                 ∧ value <$> code d = Some "fix-image-tag-typo")
                                ∨ (severity d = Warning ∧ code d = None)) e)
      as (e & -> & Hlen & Herr & Hkind).
    { unfold checkFilePath.
      destruct (foundInCorrectTag images p).
      { exists []. rewrite app_nil_r. split_and!; [done | simpl; lia.. | constructor]. }
      destruct (Js.indexOf text p) as [i|].
      2: { exists []. rewrite app_nil_r.
           split_and!; [done | simpl; lia.. | constructor]. }
      destruct (firstTypo _ _) as [m|]; destruct (negb _).
      - eexists [_; _]. rewrite <-app_assoc.
        split_and!; [done | simpl; lia | simpl; lia |].
        constructor; [by left|]. constructor; [by right | constructor].
      - eexists [_]. split_and!; [done | simpl; lia | simpl; lia |].
        constructor; [by left | constructor].
      - eexists [_]. split_and!; [done | simpl; lia | simpl; lia |].
        constructor; [by right | constructor].
      - exists []. rewrite app_nil_r.
        split_and!; [done | simpl; lia.. | constructor]. }
    destruct (IH (diagnostics ++ e)) as (e' & -> & Hlen' & Herr' & Hkind').
    exists (e ++ e'). rewrite app_assoc.
    split_and!; [done | | | by apply Forall_app].
    + rewrite length_app. cbn [length]. lia.
    + rewrite filter_app, length_app. cbn [length]. lia.
Qed.

End TyposMore.

(** ** What the patterns match *)

Module SemFacts.

Import Re.

Lemma append_assoc (a b c : string) : (a +:+ b) +:+ c = a +:+ (b +:+ c).
Proof. induction a as [|x a IH]; simpl; [done | by f_equal]. Qed.

Lemma append_nil_r (a : string) : a +:+ "" = a.
Proof. induction a as [|x a IH]; simpl; [done | by f_equal]. Qed.

Lemma drop_add (i n : nat) (s : string) :
  Js.drop (i + n) s = Js.drop n (Js.drop i s).
Proof.
  revert s. induction i as [|i IH]; intros s; simpl; [done|].
  destruct s as [|c s]; [by destruct n | apply IH].
Qed.

(** Stepping over a part of the text that is known. *)
Lemma drop_over (i : nat) (text x t : string) :
  Js.drop i text = x +:+ t → Js.drop (i + String.length x) text = t.
Proof. intros H. by rewrite drop_add, H, JsFacts.drop_append. Qed.

Lemma substring_at (i : nat) (text y t : string) :
  Js.drop i text = y +:+ t → Js.substring i (i + String.length y) text = y.
Proof.
  intros H. unfold Js.substring. rewrite JsFacts.substring_drop, H.
  replace (i + String.length y - i) with (String.length y) by lia.
  apply JsFacts.substring_0_append.
Qed.

Lemma stripWord_split (ci : bool) (w s s' : string) :
  stripWord ci w s = Some s' →
  ∃ v, s = v +:+ s' ∧ stripWord ci w v = Some ""
       ∧ String.length v = String.length w.
Proof.
  revert s. induction w as [|a w IH]; intros s; simpl.
  - intros [= <-]. by exists "".
  - destruct s as [|b s]; [done|].
    destruct (Js.charEq ci a b) eqn:E; [|done].
    intros (v & -> & Hv & Hlen)%IH. exists (String b v). simpl.
    rewrite E. by rewrite Hlen.
Qed.

Lemma star_sound (ci : bool) (p : ascii → bool) (l : list atom) (k : cont) :
  sound ci l k → sound ci (Star p :: l) (star p k).
Proof.
  intros Hk.
  assert (∀ s pos marks e ms, k s pos marks = Some (e, ms) →
    ∃ u rest new, s = u +:+ rest ∧ e = pos + String.length u
      ∧ ms = rev new ++ marks ∧ sem ci (Star p :: l) u pos new) as Hstop.
  { intros s pos marks e ms (u & rest & new & -> & -> & -> & Hsem)%Hk.
    exists u, rest, new. split_and!; try done.
    exists "", u. simpl. by rewrite Nat.add_0_r. }
  intros s. induction s as [|c s IH]; intros pos marks e ms; simpl.
  - apply Hstop.
  - destruct (p c) eqn:Hc; [|apply Hstop].
    destruct (star p k s (S pos) marks) as [[e' ms']|] eqn:E; [|apply Hstop].
    intros [= -> ->].
    apply IH in E as (u & rest & new & -> & -> & -> & v & u' & -> & Hv & Hsem).
    exists (String c (v +:+ u')), rest, new. split_and!; try done.
    + simpl. lia.
    + exists (String c v), u'. simpl. rewrite Hc, Hv. split_and!; try done.
      by replace (pos + S (String.length v)) with (S pos + String.length v) by lia.
Qed.

Lemma lazy_sound (ci : bool) (p : ascii → bool) (l : list atom) (k : cont) :
  sound ci l k → sound ci (StarLazy p :: l) (lazy p k).
Proof.
  intros Hk.
  assert (∀ s pos marks e ms, k s pos marks = Some (e, ms) →
    ∃ u rest new, s = u +:+ rest ∧ e = pos + String.length u
      ∧ ms = rev new ++ marks ∧ sem ci (StarLazy p :: l) u pos new) as Hstop.
  { intros s pos marks e ms (u & rest & new & -> & -> & -> & Hsem)%Hk.
    exists u, rest, new. split_and!; try done.
    exists "", u. simpl. by rewrite Nat.add_0_r. }
  intros s. induction s as [|c s IH]; intros pos marks e ms; simpl.
  - destruct (k "" pos marks) as [[e' ms']|] eqn:E; [|done].
    intros [= -> ->]. by apply Hstop.
  - destruct (k (String c s) pos marks) as [[e' ms']|] eqn:E.
    { intros [= -> ->]. by apply Hstop. }
    destruct (p c) eqn:Hc; [|done]. intros H.
    apply IH in H as (u & rest & new & -> & -> & -> & v & u' & -> & Hv & Hsem).
    exists (String c (v +:+ u')), rest, new. split_and!; try done.
    + simpl. lia.
    + exists (String c v), u'. simpl. rewrite Hc, Hv. split_and!; try done.
      by replace (pos + S (String.length v)) with (S pos + String.length v) by lia.
Qed.

Lemma tryWords_sound (ci : bool) (ws : list string) (l : list atom) (k : cont) :
  sound ci l k → sound ci (Alt ws :: l) (tryWords ci ws k).
Proof.
  intros Hk s pos marks e ms.
  assert (∀ vs, vs ⊆ ws → tryWords ci vs k s pos marks = Some (e, ms) →
    ∃ u rest new, s = u +:+ rest ∧ e = pos + String.length u
      ∧ ms = rev new ++ marks ∧ sem ci (Alt ws :: l) u pos new) as Hgen.
  { induction vs as [|w vs IH]; intros Hvs; simpl; [done|].
    assert (w ∈ ws) as Hw by (apply Hvs; left).
    assert (vs ⊆ ws) as Hvs' by (intros x Hx; apply Hvs; by right).
    destruct (stripWord ci w s) as [s'|] eqn:E; [|by apply IH].
    destruct (k s' (pos + String.length w) marks) as [[e' ms']|] eqn:E';
      [|by apply IH].
    intros [= -> ->].
    apply stripWord_split in E as (v & -> & Hv & Hlen).
    apply Hk in E' as (u & rest & new & -> & -> & -> & Hsem).
    exists (v +:+ u), rest, new. split_and!.
    - by rewrite append_assoc.
    - rewrite JsFacts.length_append. lia.
    - done.
    - exists w, v, u. rewrite Hlen. done. }
  by apply Hgen.
Qed.

(** The matcher only accepts what the pattern matches. *)
Lemma run_sound (ci : bool) (l : list atom) : sound ci l (run ci l).
Proof.
  induction l as [|a l IH]; simpl.
  - intros s pos marks e ms [= <- <-]. exists "", s, []. simpl.
    split_and!; first [done | lia].
  - destruct a as [p|p|p|ws|].
    + intros [|c s] pos marks e ms; [done|]. destruct (p c) eqn:Hc; [|done].
      intros (u & rest & new & -> & -> & -> & Hsem)%IH.
      exists (String c u), rest, new. simpl.
      split_and!; first [done | lia | by exists c, u].
    + by apply star_sound.
    + by apply lazy_sound.
    + by apply tryWords_sound.
    + intros s pos marks e ms (u & rest & new & -> & -> & -> & Hsem)%IH.
      exists u, rest, (pos :: new). split_and!; try done.
      * simpl. by rewrite <-app_assoc.
      * by exists new.
Qed.

(** A match of [search] is a part of the text that the pattern matches, and
    its groups are the parts between the parentheses. *)
Lemma search_sound (re : regex) (text s : string) (pos : nat) (r : result) :
  s = Js.drop pos text → pos ≤ String.length text →
  search re text s pos = Some r →
  ∃ rest marks,
    Js.drop (index r) text = matched r +:+ rest
    ∧ groups r = captures text marks
    ∧ sem (ignoreCase re) (atoms re) (matched r) (index r) marks.
Proof.
  revert pos. induction s as [|c s IH]; intros pos Hs Hpos; simpl.
  - destruct (run _ _ _ _ _) as [[e ms]|] eqn:E; [|done].
    intros [= <-].
    apply run_sound in E as (u & rest & new & Hu & -> & -> & Hsem).
    rewrite Hs in Hu. unfold mkResult. simpl.
    rewrite (substring_at _ _ _ _ Hu), app_nil_r, rev_involutive.
    by exists rest, new.
  - destruct (run _ _ _ _ _) as [[e ms]|] eqn:E.
    + intros [= <-].
      apply run_sound in E as (u & rest & new & Hu & -> & -> & Hsem).
      rewrite Hs in Hu. unfold mkResult. simpl.
      rewrite (substring_at _ _ _ _ Hu), app_nil_r, rev_involutive.
      by exists rest, new.
    + apply IH.
      * symmetry. by apply JsFacts.drop_drop_1 with c.
      * pose proof (JsFacts.length_drop pos text) as Hl.
        rewrite <-Hs in Hl. simpl in Hl. lia.
Qed.

Lemma execLoop_sound (fuel : nat) (re : regex) (text : string) (lastIndex : nat) :
  Forall (λ r, ∃ rest marks,
            Js.drop (index r) text = matched r +:+ rest
            ∧ groups r = captures text marks
            ∧ sem (ignoreCase re) (atoms re) (matched r) (index r) marks)
         (execLoop fuel re text lastIndex).
Proof.
  revert lastIndex. induction fuel as [|fuel IH]; intros lastIndex; simpl.
  - constructor.
  - destruct (exec re text lastIndex) as [r|] eqn:E; [|constructor].
    constructor; [|apply IH]. unfold exec in E.
    destruct (lastIndex <=? String.length text) eqn:El; [|done].
    apply Nat.leb_le in El. by eapply search_sound.
Qed.

(** Successive matches of a scan do not overlap. *)
Lemma execLoop_apart (fuel : nat) (re : regex) (text : string) (lastIndex : nat) :
  Forall (λ r, lastIndex ≤ index r) (execLoop fuel re text lastIndex)
  ∧ StronglySorted (λ r1 r2, lastIndexOf r1 ≤ index r2)
      (execLoop fuel re text lastIndex).
Proof.
  revert lastIndex. induction fuel as [|fuel IH]; intros lastIndex; simpl.
  - split; constructor.
  - destruct (exec re text lastIndex) as [r|] eqn:E; [|split; constructor].
    apply ReFacts.exec_spec in E as (H1 & H2 & H3 & H4).
    destruct (IH (lastIndexOf r)) as [Hall Hsorted]. split.
    + constructor; [done|]. eapply Forall_impl; [exact Hall|]. simpl. lia.
    + by constructor.
Qed.

End SemFacts.

Module CaseFacts.

Lemma elem_of_allAscii (c : ascii) : c ∈ allAscii.
Proof.
  unfold allAscii. apply list_elem_of_fmap. exists (nat_of_ascii c).
  split; [by rewrite ascii_nat_embedding|].
  apply elem_of_seq. pose proof (nat_ascii_bounded c). lia.
Qed.

Lemma ascii_forall (P : ascii → bool) :
  forallb P allAscii = true → ∀ c, P c = true.
Proof.
  intros H c. rewrite forallb_forall in H. apply H.
  apply list_elem_of_In, elem_of_allAscii.
Qed.

Lemma charEq_lower (a b : ascii) :
  Js.charEq true a b = true → Js.toLowerChar b = Js.toLowerChar a.
Proof.
  intros H.
  assert (implb (Js.charEq true a b)
            (Ascii.eqb (Js.toLowerChar b) (Js.toLowerChar a)) = true) as Himp.
  { clear H. revert b. apply (ascii_forall (λ b, implb (Js.charEq true a b)
            (Ascii.eqb (Js.toLowerChar b) (Js.toLowerChar a)))).
    revert a. apply (ascii_forall (λ a, forallb (λ b, implb (Js.charEq true a b)
            (Ascii.eqb (Js.toLowerChar b) (Js.toLowerChar a))) allAscii)).
    by vm_compute. }
  rewrite H in Himp. apply Ascii.eqb_eq. exact Himp.
Qed.

Lemma stripWord_lower (w v : string) :
  Re.stripWord true w v = Some "" → Js.toLowerCase v = Js.toLowerCase w.
Proof.
  revert v. induction w as [|a w IH]; intros [|b v];
    cbn [Re.stripWord Js.toLowerCase]; try done.
  destruct (Js.charEq true a b) eqn:E; [|done].
  intros H. by rewrite (charEq_lower _ _ E), (IH _ H).
Qed.

Lemma toLowerCase_append (a b : string) :
  Js.toLowerCase (a +:+ b) = Js.toLowerCase a +:+ Js.toLowerCase b.
Proof. induction a as [|c a IH]; simpl; [done | by rewrite IH]. Qed.

Lemma toLowerCase_fixed (p : ascii → bool) (v : string) :
  (∀ c, p c = true → Js.toLowerChar c = c) →
  allChars p v = true → Js.toLowerCase v = v.
Proof.
  intros Hp. induction v as [|c v IH]; simpl; [done|].
  intros [Hc Hv]%andb_true_iff. by rewrite (Hp c Hc), IH.
Qed.

Lemma isSpace_lower (c : ascii) : Js.isSpace c = true → Js.toLowerChar c = c.
Proof.
  intros H.
  assert (implb (Js.isSpace c) (Ascii.eqb (Js.toLowerChar c) c) = true) as Himp.
  { clear H. revert c. apply ascii_forall. by vm_compute. }
  rewrite H in Himp. apply Ascii.eqb_eq. exact Himp.
Qed.

Lemma isDigit_lower (c : ascii) : Js.isDigit c = true → Js.toLowerChar c = c.
Proof.
  intros H.
  assert (implb (Js.isDigit c) (Ascii.eqb (Js.toLowerChar c) c) = true) as Himp.
  { clear H. revert c. apply ascii_forall. by vm_compute. }
  rewrite H in Himp. apply Ascii.eqb_eq. exact Himp.
Qed.

Lemma toLowerCase_length (s : string) :
  String.length (Js.toLowerCase s) = String.length s.
Proof. induction s as [|c s IH]; simpl; [done | by rewrite IH]. Qed.

Lemma charEq_caseless (a b : ascii) :
  Js.charEq true a b = true →
  Ascii.eqb (Js.toUpperChar a) (Js.toLowerChar a) = true → b = a.
Proof.
  intros H1 H2.
  assert (implb (Js.charEq true a b
                 && Ascii.eqb (Js.toUpperChar a) (Js.toLowerChar a))
            (Ascii.eqb b a) = true) as Himp.
  { clear H1 H2. revert b.
    apply (ascii_forall (λ b, implb (Js.charEq true a b
                 && Ascii.eqb (Js.toUpperChar a) (Js.toLowerChar a))
            (Ascii.eqb b a))).
    revert a.
    apply (ascii_forall (λ a, forallb (λ b, implb (Js.charEq true a b
                 && Ascii.eqb (Js.toUpperChar a) (Js.toLowerChar a))
            (Ascii.eqb b a)) allAscii)).
    by vm_compute. }
  rewrite H1, H2 in Himp. apply Ascii.eqb_eq. exact Himp.
Qed.

(** A word without letters is matched by itself only. *)
Lemma stripWord_exact (w v : string) :
  allChars (λ a, Ascii.eqb (Js.toUpperChar a) (Js.toLowerChar a)) w = true →
  Re.stripWord true w v = Some "" → v = w.
Proof.
  revert v. induction w as [|a w IH]; intros [|b v];
    cbn [Re.stripWord allChars]; try done.
  intros [Ha Hw]%andb_true_iff.
  destruct (Js.charEq true a b) eqn:E; [|done].
  intros H. by rewrite (charEq_caseless _ _ E Ha), (IH _ Hw H).
Qed.

Lemma lower_charEq (a b : ascii) :
  Js.toLowerChar b = Js.toLowerChar a → Js.charEq true a b = true.
Proof.
  intros H.
  assert (implb (Ascii.eqb (Js.toLowerChar b) (Js.toLowerChar a))
            (Js.charEq true a b) = true) as Himp.
  { clear H. revert b.
    apply (ascii_forall (λ b, implb (Ascii.eqb (Js.toLowerChar b)
              (Js.toLowerChar a)) (Js.charEq true a b))).
    revert a.
    apply (ascii_forall (λ a, forallb (λ b, implb (Ascii.eqb (Js.toLowerChar b)
              (Js.toLowerChar a)) (Js.charEq true a b)) allAscii)).
    by vm_compute. }
  rewrite H, Ascii.eqb_refl in Himp. exact Himp.
Qed.

Lemma lower_stripWord (w v : string) :
  Js.toLowerCase v = Js.toLowerCase w → Re.stripWord true w v = Some "".
Proof.
  revert v. induction w as [|a w IH]; intros [|b v];
    cbn [Re.stripWord Js.toLowerCase]; try done.
  intros [= Hab Hvw]. rewrite (lower_charEq _ _ Hab). by apply IH.
Qed.

Lemma toLowerCase_cons_inv (s : string) (x : ascii) (t : string) :
  Js.toLowerCase s = String x t →
  ∃ c s', s = String c s' ∧ Js.toLowerChar c = x ∧ Js.toLowerCase s' = t.
Proof. destruct s as [|c s]; simpl; [done|]. intros [= <- <-]. by eexists _, _. Qed.

Lemma toLowerCase_nil_inv (s : string) : Js.toLowerCase s = "" → s = "".
Proof. by destruct s. Qed.

(** A property of all characters, checked on each of them. *)
Lemma ascii_implb (P Q : ascii → bool) :
  forallb (λ c, implb (P c) (Q c)) allAscii = true →
  ∀ c, P c = true → Q c = true.
Proof.
  intros H c Hc. pose proof (ascii_forall _ H c) as Himp. cbv beta in Himp.
  by rewrite Hc in Himp.
Qed.

End CaseFacts.

(** ** The mark rule: what a match is *)

Ltac str_norm :=
  repeat first [rewrite !SemFacts.append_assoc | progress cbn [String.append]].

Ltac len_norm :=
  repeat first [rewrite !JsFacts.length_append | progress cbn [String.length]].

Section MarkShape.

Import markRule SemFacts CaseFacts.

Lemma capture_between (text : string) (i : nat) (x y t : string) (a b : nat) :
  Js.drop i text = x +:+ y +:+ t →
  a = i + String.length x → b = a + String.length y →
  Js.substring a b text = y.
Proof. intros H -> ->. apply substring_at with t. by apply drop_over. Qed.

(** Every match of the annotation pattern is an annotation, and its two
    groups are the number and the unit. *)
Lemma mark_result_parts (text : string) :
  Forall (λ r, annotationText (Re.matched r) (group 1 r) (group 2 r))
         (Re.execAll regex text).
Proof.
  eapply Forall_impl; [apply execLoop_sound|].
  intros r (rest & marks & Hdrop & Hgroups & Hsem).
  cbn in Hsem.
  destruct Hsem as (w1 & v1 & u1 & Hw1 & Hv1 & Hu1 & c & u2 & -> & Hc
    & sp1 & u3 & -> & Hsp1 & w2 & v2 & u4 & Hw2 & Hv2 & -> & sp2 & u5 & -> & Hsp2
    & w3 & v3 & u6 & Hw3 & Hv3 & -> & sp3 & u7 & -> & Hsp3
    & marks1 & -> & d & u8 & -> & Hd & ds & u9 & -> & Hds
    & marks2 & -> & sp4 & u10 & -> & Hsp4
    & marks3 & -> & w4 & v4 & u11 & Hw4 & Hv4 & ->
    & marks4 & -> & w5 & v5 & u12 & Hw5 & Hv5 & -> & -> & ->).
  apply list_elem_of_singleton in Hw1, Hw2, Hw3, Hw5. subst w1 w2 w3 w5.
  apply stripWord_lower in Hv1, Hv2, Hv5.
  apply stripWord_exact in Hv3; [|done]. subst v3.
  rewrite Hu1 in Hdrop.
  assert (group 1 r = String d ds) as Hg1.
  { unfold group. rewrite Hgroups. cbn [Re.captures lookup list_lookup Nat.sub default].
    apply capture_between with (i := Re.index r)
      (x := v1 +:+ String c (sp1 +:+ v2 +:+ sp2 +:+ "=" +:+ sp3))
      (t := sp4 +:+ v4 +:+ v5 +:+ rest).
    - rewrite Hdrop. str_norm. done.
    - len_norm. lia.
    - len_norm. lia. }
  assert (group 2 r = v4) as Hg2.
  { unfold group. rewrite Hgroups. cbn [Re.captures lookup list_lookup Nat.sub default].
    apply capture_between with (i := Re.index r)
      (x := v1 +:+ String c (sp1 +:+ v2 +:+ sp2 +:+ "=" +:+ sp3
                             +:+ String d (ds +:+ sp4)))
      (t := v5 +:+ rest).
    - rewrite Hdrop. str_norm. done.
    - len_norm. lia.
    - len_norm. lia. }
  rewrite Hg1, Hg2.
  exists v1, (String c sp1), v2, sp2, sp3, sp4, v5.
  assert (Js.toLowerCase v4 = "mark" ∨ Js.toLowerCase v4 = "marks") as Hunit.
  { apply stripWord_lower in Hv4. rewrite Hv4.
    repeat (apply elem_of_cons in Hw4 as [->|Hw4]);
      [by left | by right | by apply elem_of_nil in Hw4]. }
  split_and!; try done.
  all: try (rewrite Hu1; str_norm; by rewrite ?append_nil_r).
  all: cbn [allChars]; first [by rewrite Hc, Hsp1 | by rewrite Hd, Hds].
Qed.

(** An annotation with its letters in lower case. *)
Lemma annotation_lower (u number unit : string) :
  annotationText u number unit →
  ∃ sp1 sp2 sp3 sp4,
    Js.toLowerCase u
    = "<p" +:+ sp1 +:+ "align=" +:+ Js.dq +:+ "right" +:+ Js.dq
      +:+ "><b>(total for question" +:+ sp2 +:+ "=" +:+ sp3 +:+ number +:+ sp4
      +:+ Js.toLowerCase unit +:+ ")</b></p>"
    ∧ allChars Js.isSpace sp1 = true ∧ sp1 ≠ ""
    ∧ allChars Js.isSpace sp2 = true
    ∧ allChars Js.isSpace sp3 = true
    ∧ allChars Js.isSpace sp4 = true.
Proof.
  intros (open & sp1 & attrs & sp2 & sp3 & sp4 & close & -> & Hopen & Hsp1 & Hne
          & Hattrs & Hsp2 & Hsp3 & Hnumber & Hnum & Hsp4 & Hunit & Hclose).
  exists sp1, sp2, sp3, sp4. split_and!; try done.
  rewrite !toLowerCase_append. cbn [Js.toLowerCase].
  rewrite Hopen, Hattrs, Hclose.
  rewrite (toLowerCase_fixed _ sp1 isSpace_lower Hsp1).
  rewrite (toLowerCase_fixed _ sp2 isSpace_lower Hsp2).
  rewrite (toLowerCase_fixed _ sp3 isSpace_lower Hsp3).
  rewrite (toLowerCase_fixed _ sp4 isSpace_lower Hsp4).
  rewrite (toLowerCase_fixed _ number isDigit_lower Hnumber).
  str_norm. done.
Qed.

Lemma execLoop_within (fuel : nat) (re : Re.regex) (text : string)
    (lastIndex : nat) :
  Forall (λ r, Re.index r + Re.minLen (Re.atoms re) ≤ Re.lastIndexOf r
               ∧ Re.lastIndexOf r ≤ String.length text
               ∧ Re.matched r = Js.substring (Re.index r) (Re.lastIndexOf r) text)
         (Re.execLoop fuel re text lastIndex).
Proof.
  revert lastIndex. induction fuel as [|fuel IH]; intros lastIndex; simpl.
  - constructor.
  - destruct (Re.exec re text lastIndex) as [r|] eqn:E; [|constructor].
    apply ReFacts.exec_spec in E as (H1 & H2 & H3 & H4). constructor; [done|].
    apply IH.
Qed.

Lemma StronglySorted_fmap_2 {A B} (R : A → A → Prop) (S : B → B → Prop)
    (f : A → B) (l : list A) :
  (∀ x y, R x y → S (f x) (f y)) →
  StronglySorted R l → StronglySorted S (f <$> l).
Proof.
  intros HRS. induction 1 as [|x l Hl IH Hx]; simpl; constructor; [done|].
  apply Forall_fmap. eapply Forall_impl; [exact Hx|]. intros y. apply HRS.
Qed.

(** X11. The matches of the annotation pattern lie inside the text, are at
    least 54 characters long and do not overlap: each one starts where the
    one before it has ended, or later. *)
Theorem mark_matches_apart (text : string) :
  Forall (λ m, index m + String.length (fullMatch m) ≤ String.length text
               ∧ 54 ≤ String.length (fullMatch m))
         (findTotalQuestionMarks text)
  ∧ StronglySorted
      (λ m1 m2, index m1 + String.length (fullMatch m1) ≤ index m2)
      (findTotalQuestionMarks text).
Proof.
  unfold findTotalQuestionMarks. split.
  - apply Forall_fmap. eapply Forall_impl; [apply execLoop_within|].
    intros r (Hmin & Hlen & _). unfold Re.lastIndexOf in *.
    change (Re.minLen (Re.atoms regex)) with 54 in Hmin.
    unfold compose. cbn [fullMatch index]. lia.
  - eapply StronglySorted_fmap_2; [|apply execLoop_apart]. done.
Qed.

(** X12. A match of the annotation pattern is reported exactly in three
    cases: its number is 0; its number is 1 and its term is "marks"; its
    number is above 1 and its term is "mark".  Where the number is a safe
    integer, the message asks for "mark" exactly when the number is 1, and
    speaks of "points", after the decimal digits of the number, exactly when
    the number is above 1. *)
Theorem mark_warning_cases (text : string) :
  Forall (λ m,
    (isCorrectMarkUsage (points m) (term m) = false
     ↔ points m = 0%N
       ∨ (points m = 1%N ∧ term m = "marks")
       ∨ ((1 < points m)%N ∧ term m = "mark"))
    ∧ (Js.isSafeInteger (points m) = true →
       ∀ range,
         message (createDiagnostic range (points m))
         = if (points m =? 1)%N then "Use " +:+ Js.dq +:+ "mark" +:+ Js.dq
                                      +:+ " for 1 point"
           else if (points m =? 0)%N then "Use " +:+ Js.dq +:+ "marks" +:+ Js.dq
                                           +:+ " for 0 point"
           else "Use " +:+ Js.dq +:+ "marks" +:+ Js.dq +:+ " for "
                +:+ Js.numberToString (points m) +:+ " points"))
  (findTotalQuestionMarks text).
Proof.
  unfold findTotalQuestionMarks. apply Forall_fmap.
  eapply Forall_impl; [apply mark_result_parts|].
  intros r (open & sp1 & attrs & sp2 & sp3 & sp4 & close & _ & _ & _ & _ & _
            & _ & _ & _ & _ & _ & Hterm & _).
  unfold compose. cbn [points term].
  set (n := Js.parseInt (group 1 r)). clearbody n.
  split.
  - unfold isCorrectMarkUsage.
    destruct (N.eqb_spec n 1) as [H1|H1];
      destruct (N.ltb_spec 1 n) as [Hlt|Hle]; try lia;
      destruct Hterm as [-> | ->]; cbn [String.eqb Ascii.eqb andb orb];
      split; try done; try (intros _; lia);
      try (intros [?|[[? ?]|[? ?]]]; done || lia).
    all: try (intros _; by right; left).
    all: try (intros _; by right; right).
  - intros _ range. unfold createDiagnostic, getCorrectTerm. cbn [message].
    destruct (N.eqb_spec n 1) as [H1|H1].
    + rewrite H1. vm_compute. reflexivity.
    + destruct (N.eqb_spec n 0) as [H0|H0].
      * rewrite H0. vm_compute. reflexivity.
      * destruct (N.ltb_spec 1 n) as [Hlt|Hle]; [|lia].
        reflexivity.
Qed.

End MarkShape.

(** ** The image rule: the shape of a match *)

Section ImageShape.

Import imageRule SemFacts CaseFacts.



(** The parts of a match of one of the two attribute patterns. *)
Lemma attribute_match_parts (name : string) (text : string) :
  Forall (λ r, imageTag (Js.toLowerCase name) (Re.matched r) (group 1 r))
  (Re.execAll
     (Re.Regex
        (Re.Word "<img" ++ Re.Plus Js.isSpace ++ [Re.StarLazy Js.notGt]
         ++ Re.Word name ++ quoted (Re.Group [Re.Star Js.notDq])
         ++ [Re.Star Js.notGt] ++ Re.Word ">")
        true)
     text).
Proof.
  eapply Forall_impl; [apply execLoop_sound|].
  intros r (rest & marks & Hdrop & Hgroups & Hsem).
  cbn in Hsem.
  destruct Hsem as (w1 & v1 & u1 & Hw1 & Hv1 & Hu1 & c & u2 & -> & Hc
    & sp & u3 & -> & Hsp & a & u4 & -> & Ha
    & w2 & v2 & u5 & Hw2 & Hv2 & -> & w3 & v3 & u6 & Hw3 & Hv3 & ->
    & marks1 & -> & s & u7 & -> & Hs & marks2 & ->
    & w4 & v4 & u8 & Hw4 & Hv4 & -> & b & u9 & -> & Hb
    & w5 & v5 & u10 & Hw5 & Hv5 & -> & -> & ->).
  apply list_elem_of_singleton in Hw1, Hw2, Hw3, Hw4, Hw5. subst w1 w2 w3 w4 w5.
  apply stripWord_lower in Hv1, Hv2.
  apply stripWord_exact in Hv3; [|done]. apply stripWord_exact in Hv4; [|done].
  apply stripWord_exact in Hv5; [|done]. subst v3 v4 v5.
  rewrite Hu1 in Hdrop.
  assert (group 1 r = s) as Hg1.
  { unfold group. rewrite Hgroups.
    cbn [Re.captures lookup list_lookup Nat.sub default].
    apply capture_between with (i := Re.index r)
      (x := v1 +:+ String c (sp +:+ a +:+ v2 +:+ "=" +:+ Js.dq))
      (t := Js.dq +:+ b +:+ ">" +:+ rest).
    - rewrite Hdrop. str_norm. done.
    - len_norm. lia.
    - len_norm. lia. }
  rewrite Hg1. exists v1, (String c sp), a, v2, b.
  split_and!; try done.
  all: try (rewrite Hu1; str_norm; by rewrite ?append_nil_r).
  all: cbn [allChars]; by rewrite Hc, Hsp.
Qed.

Lemma image_match_parts (text : string) :
  Forall (λ image, imageTag (if hasScAttribute image then "sc" else "src")
                     (fullMatch image) (src image))
         (findAllImages text).
Proof.
  unfold findAllImages. apply Forall_app. split; apply Forall_fmap.
  - eapply Forall_impl; [apply (attribute_match_parts "src")|]. done.
  - eapply Forall_impl; [apply (attribute_match_parts "sc")|]. done.
Qed.


(** X13. Every match that [findAllImages] lists is an image tag: [<img] in
    any case, white space, characters other than [>], the attribute name
    ([src], or [sc] for a match flagged [hasScAttribute]) in any case, [=],
    the path in double quotes, characters other than [>], and [>].  The
    path holds no double quote, and the match is the part of the text at its
    offset. *)
Theorem image_match_shape (text : string) :
  Forall (λ image,
    imageTag (if hasScAttribute image then "sc" else "src")
      (fullMatch image) (src image)
    ∧ allChars Js.notDq (src image) = true
    ∧ fullMatch image
      = Js.substring (index image)
          (index image + String.length (fullMatch image)) text)
  (findAllImages text).
Proof.
  assert (Forall (λ image, fullMatch image
      = Js.substring (index image)
          (index image + String.length (fullMatch image)) text)
    (findAllImages text)) as Hin.
  { unfold findAllImages. apply Forall_app. split; apply Forall_fmap.
    - eapply Forall_impl; [apply execLoop_within|]. by intros r (_ & _ & H).
    - eapply Forall_impl; [apply execLoop_within|]. by intros r (_ & _ & H). }
  eapply Forall_impl;
    [apply Forall_and; split; [apply image_match_parts | exact Hin]|].
  intros image [Htag H']. cbv beta in Htag, H'. split_and!; try done.
  destruct Htag as (tag & sp & a & attr & b & H). by destruct_and!.
Qed.

(** X14. The matches that [findAllImages] lists lie inside the text and are
    at least 11 characters long; those of the same attribute spelling do not
    overlap, each one starting where the one before it has ended, or
    later. *)
Theorem image_matches_apart (text : string) :
  Forall (λ image,
            index image + String.length (fullMatch image) ≤ String.length text
            ∧ 11 ≤ String.length (fullMatch image))
         (findAllImages text)
  ∧ ∀ flag,
      StronglySorted
        (λ i1 i2, index i1 + String.length (fullMatch i1) ≤ index i2)
        (filter (λ image, hasScAttribute image = flag) (findAllImages text)).
Proof.
  unfold findAllImages. split.
  - apply Forall_app. split; apply Forall_fmap.
    + eapply Forall_impl; [apply execLoop_within|].
      intros r (Hmin & Hlen & _). unfold Re.lastIndexOf in *.
      change (Re.minLen (Re.atoms srcRegex)) with 12 in Hmin.
      unfold compose. cbn [fullMatch index]. lia.
    + eapply Forall_impl; [apply execLoop_within|].
      intros r (Hmin & Hlen & _). unfold Re.lastIndexOf in *.
      change (Re.minLen (Re.atoms scRegex)) with 11 in Hmin.
      unfold compose. cbn [fullMatch index]. lia.
  - intros flag. rewrite filter_app.
    assert (∀ (b : bool) (l : list Re.result),
      filter (λ image, hasScAttribute image = flag)
        (map (λ m, mkImage (Re.matched m) (group 1 m) (Re.index m) b) l)
      = if decide (b = flag)
        then map (λ m, mkImage (Re.matched m) (group 1 m) (Re.index m) b) l
        else []) as Hfilter.
    { intros b l. induction l as [|m l IH]; [by destruct (decide _)|].
      cbn [map]. rewrite filter_cons. cbn [hasScAttribute]. rewrite IH.
      by destruct (decide (b = flag)). }
    rewrite !Hfilter.
    destruct (decide (false = flag)), (decide (true = flag)); try congruence.
    + rewrite app_nil_r.
      eapply StronglySorted_fmap_2; [|apply execLoop_apart]. done.
    + eapply StronglySorted_fmap_2; [|apply execLoop_apart]. done.
    + destruct flag; done.
Qed.

End ImageShape.

(** ** The image rule: the fix of the folder check *)

Section FolderFix.

Import imageRule SemFacts CaseFacts.

Variable path : PathModule.

Lemma startsWith_split (p s : string) :
  Js.startsWith p s = true → s = p +:+ Js.drop (String.length p) s.
Proof.
  revert s. induction p as [|a p IH]; intros [|b s]; simpl; try done.
  intros [Hab Hp]%andb_true_iff. apply Ascii.eqb_eq in Hab as ->.
  f_equal. by apply IH.
Qed.

Lemma startsWith_append (p t : string) : Js.startsWith p (p +:+ t) = true.
Proof.
  induction p as [|a p IH]; simpl; [done|]. by rewrite Ascii.eqb_refl, IH.
Qed.

Lemma take_drop (i : nat) (s : string) :
  String.substring 0 i s +:+ Js.drop i s = s.
Proof.
  revert s. induction i as [|i IH]; intros [|c s]; simpl; try done.
  by rewrite IH.
Qed.

Lemma includes_prefix (a b : string) : Js.includes (a +:+ b) a = true.
Proof.
  unfold Js.includes, Js.indexOf.
  destruct (JsFacts.indexOfFrom_occurs a (a +:+ b) 0 0) as (i & -> & _);
    [|done].
  simpl. apply startsWith_append.
Qed.

(** The tag of a match holds its path. *)
Lemma src_occurs (text : string) :
  Forall (λ image, ∃ i, Js.indexOf (fullMatch image) (src image) = Some i)
         (findAllImages text).
Proof.
  eapply Forall_impl; [apply image_match_parts|].
  intros image (tag & sp & a & attr & b & Hfull & _).
  destruct (JsFacts.indexOfFrom_occurs (src image) (fullMatch image) 0
              (String.length (tag +:+ sp +:+ a +:+ attr +:+ "=" +:+ Js.dq)))
    as (i & Hi & _); [|by exists i].
  rewrite Hfull.
  replace (tag +:+ sp +:+ a +:+ attr +:+ "=" +:+ Js.dq +:+ src image
           +:+ Js.dq +:+ b +:+ ">")
    with ((tag +:+ sp +:+ a +:+ attr +:+ "=" +:+ Js.dq)
          +:+ src image +:+ Js.dq +:+ b +:+ ">") by (by str_norm).
  rewrite JsFacts.drop_append. apply startsWith_append.
Qed.

(** X15. The fix of the folder check changes the tag: for a match of the
    text with the attribute [src] whose path does not contain the expected
    folder name, the Warning carries a fix whose text differs from the tag,
    provided that the corrected path holds no [$]. *)
Theorem folder_fix_changes_tag (document : TextDocument) (image : Image)
    (expectedFolderName : string) :
  image ∈ findAllImages (getText document) →
  hasScAttribute image = false →
  Js.includes (src image) expectedFolderName = false →
  noDollar (expectedFolderName +:+ "/" +:+ basename path (src image)) = true →
  ∃ newText,
    code (folderDiagnostic path document image expectedFolderName)
    = Some (mkCode "fix-image-folder"
              (mkCommandUri fixCommand (uri document)
                 (getMatchRange document image) newText))
    ∧ newText ≠ fullMatch image.
Proof.
  intros Himage Hsc Hinc Hdollar.
  pose proof (src_occurs (getText document)) as Hocc.
  rewrite Forall_forall in Hocc. destruct (Hocc image Himage) as [i Hi].
  unfold folderDiagnostic. cbn [code]. rewrite Hsc. cbn [negb].
  eexists. split; [reflexivity|].
  rewrite (replace_first _ _ _ i Hi Hdollar). unfold replaceRange, Js.substring.
  rewrite Nat.sub_0_r. intros Heq.
  apply JsFacts.indexOf_first in Hi as [Hstart _].
  apply startsWith_split in Hstart.
  rewrite <-drop_add in Hstart.
  pose proof (take_drop i (fullMatch image)) as Hsplit.
  rewrite Hstart in Hsplit. rewrite <-Hsplit in Heq at 3.
  apply JsFacts.append_inv_head, JsFacts.append_inv_tail in Heq.
  rewrite <-Heq in Hinc. by rewrite includes_prefix in Hinc.
Qed.

End FolderFix.

(** ** The image rule: the span of a typo match *)

Section TypoWindow.

Import imageRule SemFacts CaseFacts.

Lemma substring_0_inner (x m n : nat) (s : string) :
  x + m ≤ n →
  String.substring x m (String.substring 0 n s) = String.substring x m s.
Proof.
  revert x m n. induction s as [|c s IH]; intros x m n Hle.
  - by destruct n.
  - destruct n as [|n].
    + assert (x = 0) as -> by lia. assert (m = 0) as -> by lia. done.
    + cbn [String.substring]. destruct x as [|x].
      * destruct m as [|m]; [done|]. cbn [String.substring]. f_equal.
        apply (IH 0 m n). lia.
      * cbn [String.substring]. apply IH. lia.
Qed.

Lemma substring_inner (a b x y : nat) (s : string) :
  x ≤ y → a + y ≤ b →
  Js.substring x y (Js.substring a b s) = Js.substring (a + x) (a + y) s.
Proof.
  intros Hxy Hyb. unfold Js.substring.
  rewrite (JsFacts.substring_drop a), substring_0_inner by lia.
  rewrite (JsFacts.substring_drop (a + x)), drop_add.
  rewrite <-JsFacts.substring_drop. f_equal. lia.
Qed.

Lemma length_substring_le (a n : nat) (s : string) :
  String.length (String.substring a n s) ≤ n.
Proof.
  revert a n. induction s as [|c s IH]; intros a n.
  - destruct a, n; simpl; lia.
  - destruct a as [|a]; simpl.
    + destruct n as [|n]; simpl; [lia|]. specialize (IH 0 n). lia.
    + apply IH.
Qed.

Lemma firstTypo_exec (patterns : list Re.regex) (context : string)
    (typoMatch : Re.result) :
  firstTypo patterns context = Some typoMatch →
  ∃ typoRegex, typoRegex ∈ patterns
               ∧ Re.exec typoRegex context 0 = Some typoMatch.
Proof.
  induction patterns as [|re patterns IH]; simpl; [done|].
  destruct (Re.exec re context 0) as [m|] eqn:E.
  - intros [= ->]. exists re. split; [left | done].
  - intros (typoRegex & Hin & Hm)%IH. exists typoRegex. split; [by right | done].
Qed.

(** X16. The span of the Error of the typo check is the typo match itself:
    it starts at most 50 characters before the first occurrence of the path,
    ends at most 50 characters after the end of that occurrence and inside
    the text, holds at least 8 characters, and the text between its two
    offsets is the text of the match. *)
Theorem typo_range_in_window (document : TextDocument) (text filePath : string)
    (i : nat) (typoMatch : Re.result) :
  Js.indexOf text filePath = Some i →
  firstTypo typoMatches (contextText text filePath (Z.of_nat i)) = Some typoMatch →
  ∃ a b : nat,
    range (typoDiagnostic document filePath (startSearchIndex (Z.of_nat i))
             typoMatch)
    = newRange (positionAt document (Z.of_nat a))
               (positionAt document (Z.of_nat b))
    ∧ i - 50 ≤ a
    ∧ a + 8 ≤ b
    ∧ b ≤ i + String.length filePath + 50
    ∧ b ≤ String.length text
    ∧ Js.substring a b text = Re.matched typoMatch.
Proof.
  intros Hi Htypo.
  apply firstTypo_exec in Htypo as (typoRegex & Hin & Hexec).
  apply ReFacts.exec_spec in Hexec as (_ & Hmin & Hlen & Hmatched).
  assert (8 ≤ Re.minLen (Re.atoms typoRegex)) as Hnine.
  { repeat (apply elem_of_cons in Hin as [->|Hin]);
      [vm_compute; lia.. | by apply elem_of_nil in Hin]. }
  apply JsFacts.indexOf_first in Hi as [Hstart Hfirst].
  assert (i + String.length filePath ≤ String.length text) as Hfits.
  { destruct filePath as [|c filePath].
    - destruct i as [|i]; [simpl; lia|]. by specialize (Hfirst 0 ltac:(lia)).
    - apply startsWith_split in Hstart.
      pose proof (f_equal String.length Hstart) as Hl.
      rewrite JsFacts.length_append, !JsFacts.length_drop in Hl.
      cbn [String.length] in *. lia. }
  unfold contextText, startSearchIndex, endSearchIndex in *.
  set (lo := Z.to_nat (Z.max 0 (Z.of_nat i - 50))) in *.
  set (hi := Z.to_nat (Z.min (Z.of_nat (String.length text))
                 (Z.of_nat i + Z.of_nat (String.length filePath) + 50))) in *.
  assert (lo = i - 50) as Hlo by (unfold lo; lia).
  assert (hi ≤ String.length text ∧ hi ≤ i + String.length filePath + 50
          ∧ lo ≤ hi) as (Hhi1 & Hhi2 & Hlohi) by (unfold hi; lia).
  assert (String.length (Js.substring lo hi text) ≤ hi - lo) as Hctx
    by apply length_substring_le.
  unfold Re.lastIndexOf in *.
  exists (lo + Re.index typoMatch),
         (lo + Re.index typoMatch + String.length (Re.matched typoMatch)).
  split_and!; try lia.
  - unfold typoDiagnostic. cbn [range]. do 2 f_equal; f_equal; unfold lo; lia.
  - rewrite Hmatched at 2. rewrite substring_inner by lia. f_equal. lia.
Qed.

End TypoWindow.

(** ** The matcher finds what the patterns match *)

Module CompleteFacts.

Import Re SemFacts.

Lemma stripWord_append (ci : bool) (w v s : string) :
  stripWord ci w v = Some "" → stripWord ci w (v +:+ s) = Some s.
Proof.
  revert v. induction w as [|a w IH]; intros [|b v];
    cbn [stripWord String.append]; try done.
  destruct (Js.charEq ci a b); [apply IH | done].
Qed.

Lemma star_complete (p : ascii → bool) (k : cont) (v s : string) (pos : nat)
    (marks : list nat) :
  allChars p v = true →
  is_Some (k s (pos + String.length v) marks) →
  is_Some (star p k (v +:+ s) pos marks).
Proof.
  revert pos. induction v as [|c v IH]; intros pos; simpl.
  - intros _. rewrite Nat.add_0_r. intros Hk.
    destruct s as [|c s]; simpl; [done|].
    destruct (p c); [|done]. by destruct (star p k s (S pos) marks).
  - intros [Hc Hv]%andb_true_iff Hk. rewrite Hc.
    destruct (IH (S pos) Hv) as [r ->]; [|done].
    by replace (S pos + String.length v) with (pos + S (String.length v)) by lia.
Qed.

Lemma lazy_complete (p : ascii → bool) (k : cont) (v s : string) (pos : nat)
    (marks : list nat) :
  allChars p v = true →
  is_Some (k s (pos + String.length v) marks) →
  is_Some (lazy p k (v +:+ s) pos marks).
Proof.
  revert pos. induction v as [|c v IH]; intros pos; simpl.
  - intros _. rewrite Nat.add_0_r. intros [r Hk].
    destruct s as [|c s]; simpl; by rewrite Hk.
  - intros [Hc Hv]%andb_true_iff Hk.
    destruct (k (String c (v +:+ s)) pos marks); [done|]. rewrite Hc.
    apply IH; [done|].
    by replace (S pos + String.length v) with (pos + S (String.length v)) by lia.
Qed.

Lemma tryWords_complete (ci : bool) (ws : list string) (k : cont)
    (w v s : string) (pos : nat) (marks : list nat) :
  w ∈ ws → stripWord ci w v = Some "" →
  is_Some (k s (pos + String.length v) marks) →
  is_Some (tryWords ci ws k (v +:+ s) pos marks).
Proof.
  intros Hw Hv Hk.
  assert (String.length v = String.length w) as Hlen.
  { apply ReFacts.stripWord_length in Hv. simpl in Hv. lia. }
  induction ws as [|w0 ws IH]; [by apply elem_of_nil in Hw|]. simpl.
  apply elem_of_cons in Hw as [<-|Hw].
  - rewrite (stripWord_append _ _ _ _ Hv), <-Hlen.
    destruct Hk as [r ->]. done.
  - destruct (stripWord ci w0 (v +:+ s)) as [s0|]; [|by apply IH].
    destruct (k s0 (pos + String.length w0) marks); [done | by apply IH].
Qed.

(** The matcher accepts whatever the pattern matches. *)
Lemma run_complete (ci : bool) (l : list atom) (u : string) (pos : nat)
    (new : list nat) :
  sem ci l u pos new →
  ∀ rest marks, is_Some (run ci l (u +:+ rest) pos marks).
Proof.
  revert u pos new. induction l as [|a l IH]; intros u pos new; simpl.
  - by intros [-> ->] rest marks.
  - destruct a as [p|p|p|ws|].
    + intros (c & u' & -> & Hc & Hsem) rest marks. simpl. rewrite Hc.
      by eapply IH.
    + intros (v & u' & -> & Hv & Hsem) rest marks. rewrite append_assoc.
      apply star_complete; [done|]. by eapply IH.
    + intros (v & u' & -> & Hv & Hsem) rest marks. rewrite append_assoc.
      apply lazy_complete; [done|]. by eapply IH.
    + intros (w & v & u' & Hw & Hv & -> & Hsem) rest marks.
      rewrite append_assoc.
      eapply tryWords_complete; [done | done |]. by eapply IH.
    + intros (marks' & -> & Hsem) rest marks. by eapply IH.
Qed.

(** [search] returns a match that starts at the first place where the
    matcher accepts, so at or before any such place. *)
Lemma search_finds (re : regex) (text s : string) (pos i : nat) :
  s = Js.drop pos text → pos ≤ i → i ≤ String.length text →
  is_Some (run (ignoreCase re) (atoms re) (Js.drop i text) i []) →
  ∃ r, search re text s pos = Some r ∧ index r ≤ i.
Proof.
  intros Hs Hpos Hi [r0 Hrun]. revert pos Hs Hpos.
  induction s as [|c s IH]; intros pos Hs Hpos; simpl.
  - assert (pos = i) as ->.
    { pose proof (JsFacts.length_drop pos text) as Hl. rewrite <-Hs in Hl.
      simpl in Hl. lia. }
    rewrite <-Hs in Hrun. rewrite Hrun.
    exists (mkResult text i r0). split; [reflexivity | unfold mkResult; cbn [index]; lia].
  - destruct (run (ignoreCase re) (atoms re) (String c s) pos []) as [r|] eqn:E;
      [exists (mkResult text pos r); split;
         [reflexivity | unfold mkResult; cbn [index]; lia]|].
    assert (pos ≠ i) as Hne.
    { intros ->. rewrite <-Hs in Hrun. congruence. }
    apply IH; [|lia]. symmetry. by apply JsFacts.drop_drop_1 with c.
Qed.

(** A scan misses no place where the matcher accepts: each such place lies
    in a match of the scan. *)
Lemma execLoop_covers (fuel : nat) (re : regex) (text : string)
    (lastIndex i : nat) :
  1 ≤ minLen (atoms re) →
  String.length text < lastIndex + fuel →
  lastIndex ≤ i → i ≤ String.length text →
  is_Some (run (ignoreCase re) (atoms re) (Js.drop i text) i []) →
  ∃ r, r ∈ execLoop fuel re text lastIndex
       ∧ index r ≤ i ∧ i < lastIndexOf r.
Proof.
  intros Hmin Hfuel Hlast Hi Hrun. revert lastIndex Hfuel Hlast.
  induction fuel as [|fuel IH]; intros lastIndex Hfuel Hlast; [lia|].
  rewrite ReFacts.execLoop_S. unfold exec.
  destruct (Nat.leb_spec lastIndex (String.length text)) as [_|?]; [|lia].
  destruct (search_finds re text (Js.drop lastIndex text) lastIndex i)
    as (r & Hr & Hri); try done.
  rewrite Hr.
  pose proof Hr as Hspec. apply ReFacts.search_spec in Hspec; [|done|lia].
  destruct Hspec as (H1 & H2 & H3 & H4).
  destruct (decide (i < lastIndexOf r)) as [Hin|Hout].
  - exists r. split; [left | done].
  - destruct (IH (lastIndexOf r)) as (r' & Hr' & Hbounds); [lia | lia |].
    exists r'. split; [by right | done].
Qed.

Lemma execAll_covers (re : regex) (text : string) (i : nat) :
  1 ≤ minLen (atoms re) → i ≤ String.length text →
  is_Some (run (ignoreCase re) (atoms re) (Js.drop i text) i []) →
  ∃ r, r ∈ execAll re text ∧ index r ≤ i ∧ i < lastIndexOf r.
Proof.
  intros Hmin Hi Hrun. unfold execAll.
  apply execLoop_covers; try done; lia.
Qed.

(** The same for a place where the pattern matches. *)
Lemma execAll_covers_sem (re : regex) (text pre u rest : string)
    (marks : list nat) :
  1 ≤ minLen (atoms re) →
  text = pre +:+ u +:+ rest →
  sem (ignoreCase re) (atoms re) u (String.length pre) marks →
  ∃ r, r ∈ execAll re text
       ∧ index r ≤ String.length pre ∧ String.length pre < lastIndexOf r.
Proof.
  intros Hmin -> Hsem. apply execAll_covers; [done | |].
  - rewrite JsFacts.length_append. lia.
  - rewrite JsFacts.drop_append. by eapply run_complete.
Qed.

(** A match of a scan is what the matcher returns at the offset of the
    match. *)
Lemma search_run (re : regex) (text s : string) (pos : nat) (r : result) :
  s = Js.drop pos text →
  search re text s pos = Some r →
  ∃ e, run (ignoreCase re) (atoms re) (Js.drop (index r) text) (index r) []
       = Some e
       ∧ r = mkResult text (index r) e.
Proof.
  revert pos. induction s as [|c s IH]; intros pos Hs; cbn [search].
  - destruct (run (ignoreCase re) (atoms re) "" pos []) as [e|] eqn:E; [|done].
    intros [= <-]. unfold mkResult at 1 2. cbn [index]. rewrite <-Hs.
    by exists e.
  - destruct (run (ignoreCase re) (atoms re) (String c s) pos []) as [e|] eqn:E.
    + intros [= <-]. unfold mkResult at 1 2. cbn [index]. rewrite <-Hs.
      by exists e.
    + apply IH. symmetry. by apply JsFacts.drop_drop_1 with c.
Qed.

Lemma execLoop_run (fuel : nat) (re : regex) (text : string) (lastIndex : nat) :
  Forall (λ r, ∃ e,
            run (ignoreCase re) (atoms re) (Js.drop (index r) text) (index r) []
            = Some e
            ∧ r = mkResult text (index r) e)
         (execLoop fuel re text lastIndex).
Proof.
  revert lastIndex. induction fuel as [|fuel IH]; intros lastIndex; simpl.
  - constructor.
  - destruct (exec re text lastIndex) as [r|] eqn:E; [|constructor].
    constructor; [|apply IH]. unfold exec in E.
    destruct (lastIndex <=? String.length text); [|done].
    by eapply search_run.
Qed.

End CompleteFacts.

(** ** The mark rule finds every annotation *)

Module AnnotationFacts.

Import Re SemFacts CaseFacts CompleteFacts markRule.






(** The matcher on a text of known shape. *)
Lemma run_word_some (w : string) (rest : list atom) (v s : string)
    (pos : nat) (marks : list nat) (r : nat * list nat) :
  Js.toLowerCase v = Js.toLowerCase w →
  run true rest s (pos + String.length w) marks = Some r →
  run true (Alt [w] :: rest) (v +:+ s) pos marks = Some r.
Proof.
  intros Hv Hk. apply ReFacts.run_word with s; [|done].
  by apply stripWord_append, lower_stripWord.
Qed.

Lemma star_some (p : ascii → bool) (k : cont) (v s : string) (pos : nat)
    (marks : list nat) (r : nat * list nat) :
  allChars p v = true → stopsAt p s = true →
  k s (pos + String.length v) marks = Some r →
  star p k (v +:+ s) pos marks = Some r.
Proof.
  revert pos. induction v as [|c v IH]; intros pos; simpl.
  - intros _ Hs. rewrite Nat.add_0_r. intros Hk.
    destruct s as [|c s]; simpl; [done|]. simpl in Hs.
    apply negb_true_iff in Hs. by rewrite Hs.
  - intros [Hc Hv]%andb_true_iff Hs Hk. rewrite Hc.
    rewrite (IH (S pos) Hv Hs); [done|].
    by replace (S pos + String.length v) with (pos + S (String.length v)) by lia.
Qed.

Lemma run_star_some (p : ascii → bool) (rest : list atom) (v s : string)
    (pos : nat) (marks : list nat) (r : nat * list nat) :
  allChars p v = true → stopsAt p s = true →
  run true rest s (pos + String.length v) marks = Some r →
  run true (Star p :: rest) (v +:+ s) pos marks = Some r.
Proof. apply star_some. Qed.


Lemma isSpace_stops_lower (x : ascii) :
  Js.isSpace x = false →
  ∀ c, Js.toLowerChar c = x → negb (Js.isSpace c) = true.
Proof.
  intros Hx c <-. apply negb_true_iff.
  destruct (Js.isSpace c) eqn:E; [|done].
  by rewrite (isSpace_lower c E), E in Hx.
Qed.

Lemma isDigit_stops_lower (x : ascii) :
  Js.isDigit x = false →
  ∀ c, Js.toLowerChar c = x → negb (Js.isDigit c) = true.
Proof.
  intros Hx c <-. apply negb_true_iff.
  destruct (Js.isDigit c) eqn:E; [|done].
  by rewrite (isDigit_lower c E), E in Hx.
Qed.

Lemma isSpace_not_isDigit (c : ascii) : Js.isSpace c = true → Js.isDigit c = false.
Proof.
  intros H. apply negb_true_iff. revert c H.
  apply (ascii_implb Js.isSpace (λ c, negb (Js.isDigit c))). by vm_compute.
Qed.

Lemma isDigit_not_isSpace' (c : ascii) : Js.isDigit c = true → Js.isSpace c = false.
Proof.
  intros H. apply negb_true_iff. revert c H.
  apply (ascii_implb Js.isDigit (λ c, negb (Js.isSpace c))). by vm_compute.
Qed.

Lemma run_first_word (ci : bool) (w : string) (ws : list string)
    (rest : list atom) (s s' : string) (pos : nat) (marks : list nat)
    (r : nat * list nat) :
  stripWord ci w s = Some s' →
  run ci rest s' (pos + String.length w) marks = Some r →
  run ci (Alt (w :: ws) :: rest) s pos marks = Some r.
Proof. intros Hw Hk. simpl. by rewrite Hw, Hk. Qed.

Lemma lower_s_not_paren (c : ascii) :
  Js.toLowerChar c = "s"%char → Js.charEq true ")" c = false.
Proof.
  intros H. apply negb_true_iff. revert c H.
  intros c Hc. apply (ascii_implb (λ c, Ascii.eqb (Js.toLowerChar c) "s")
                        (λ c, negb (Js.charEq true ")" c))).
  - by vm_compute.
  - by apply Ascii.eqb_eq.
Qed.

Lemma annotation_run (open sp1 attrs sp2 sp3 number sp4 unit close rest : string)
    (pos : nat) :
  Js.toLowerCase open = "<p" →
  allChars Js.isSpace sp1 = true → sp1 ≠ "" →
  Js.toLowerCase attrs
  = "align=" +:+ Js.dq +:+ "right" +:+ Js.dq +:+ "><b>(total for question" →
  allChars Js.isSpace sp2 = true →
  allChars Js.isSpace sp3 = true →
  allChars Js.isDigit number = true → number ≠ "" →
  allChars Js.isSpace sp4 = true →
  Js.toLowerCase unit = "mark" ∨ Js.toLowerCase unit = "marks" →
  Js.toLowerCase close = ")</b></p>" →
  let p1 := pos + String.length (open +:+ sp1 +:+ attrs +:+ sp2 +:+ "=" +:+ sp3) in
  let p2 := p1 + String.length number in
  let p3 := p2 + String.length sp4 in
  let p4 := p3 + String.length unit in
  run true (atoms regex)
    (open +:+ sp1 +:+ attrs +:+ sp2 +:+ "=" +:+ sp3 +:+ number +:+ sp4
     +:+ unit +:+ close +:+ rest) pos []
  = Some (p4 + String.length close, [p4; p3; p2; p1]).
Proof.
  intros Hopen Hsp1 Hne1 Hattrs Hsp2 Hsp3 Hnumber Hne Hsp4 Hunit Hclose.
  destruct sp1 as [|c1 sp1]; [done|]. destruct number as [|d ds]; [done|].
  cbn [allChars] in Hsp1, Hnumber.
  apply andb_true_iff in Hsp1 as [Hc1 Hsp1].
  apply andb_true_iff in Hnumber as [Hd Hds].
  pose proof Hattrs as Hattrs'. simpl in Hattrs'.
  apply toLowerCase_cons_inv in Hattrs' as (a0 & attrs0 & Hattrs0 & Ha0 & _).
  assert (∃ m0 unit0, unit = String m0 unit0 ∧ Js.toLowerChar m0 = "m"%char)
    as (m0 & unit0 & Hunit0 & Hm0).
  { destruct Hunit as [Hu|Hu];
      apply toLowerCase_cons_inv in Hu as (m0 & unit0 & -> & Hm0 & _);
      by exists m0, unit0. }
  assert (String.length open = 2) as Hl1
    by (by rewrite <-(toLowerCase_length open), Hopen).
  assert (String.length attrs = 36) as Hl2
    by (by rewrite <-(toLowerCase_length attrs), Hattrs).
  assert (String.length close = 9) as Hl3
    by (by rewrite <-(toLowerCase_length close), Hclose).
  cbn zeta. len_norm. rewrite Hl1, Hl2, Hl3.
  unfold regex, Word, Plus, Group. cbn [atoms app].
  eapply run_word_some; [by rewrite Hopen|].
    eapply (ReFacts.run_cls _ _ _ c1 (sp1 +:+ _)); [done|].
    eapply run_star_some; [done | |].
    { rewrite Hattrs0. cbn [String.append stopsAt].
      by apply (isSpace_stops_lower "a"). }
    eapply run_word_some; [by rewrite Hattrs|].
    eapply run_star_some; [done | done |].
    eapply (run_word_some "=" _ "="); [done|].
    eapply run_star_some; [done | |].
    { cbn [String.append stopsAt]. by rewrite isDigit_not_isSpace'. }
    rewrite ReFacts.run_mark.
    eapply (ReFacts.run_cls _ _ _ d (ds +:+ _)); [done|].
    eapply run_star_some; [done | |].
    { destruct sp4 as [|c4 sp4]; cbn [String.append stopsAt].
      - rewrite Hunit0. cbn [String.append]. by apply (isDigit_stops_lower "m").
      - cbn [allChars] in Hsp4. apply andb_true_iff in Hsp4 as [Hc4 _].
        by rewrite isSpace_not_isDigit. }
    rewrite ReFacts.run_mark.
    eapply run_star_some; [done | |].
    { rewrite Hunit0. cbn [String.append stopsAt].
      by apply (isSpace_stops_lower "m"). }
    rewrite ReFacts.run_mark.
    destruct Hunit as [Hu|Hu].
    + eapply run_first_word.
      { apply stripWord_append, lower_stripWord. by rewrite Hu. }
      rewrite ReFacts.run_mark.
      eapply run_word_some; [by rewrite Hclose|].
      assert (String.length unit = 4) as Hl4
        by (by rewrite <-(toLowerCase_length unit), Hu).
      cbn [run]. rewrite Hl4. len_norm. change (String.length Js.dq) with 1.
      f_equal. f_equal; [lia|]. do 3 (f_equal; [lia|]). f_equal. lia.
    + pose proof Hu as Hu'.
      apply toLowerCase_cons_inv in Hu' as (x1 & t1 & Ht1 & Hx1 & Hu').
      apply toLowerCase_cons_inv in Hu' as (x2 & t2 & Ht2 & Hx2 & Hu').
      apply toLowerCase_cons_inv in Hu' as (x3 & t3 & Ht3 & Hx3 & Hu').
      apply toLowerCase_cons_inv in Hu' as (x4 & t4 & Ht4 & Hx4 & Hu').
      apply toLowerCase_cons_inv in Hu' as (x5 & t5 & Ht5 & Hx5 & Hu').
      apply toLowerCase_nil_inv in Hu'. subst t5 t4 t3 t2 t1.
      eapply ReFacts.run_second_word.
      * rewrite Ht1.
        change (String x1 (String x2 (String x3 (String x4 (String x5 ""))))
                +:+ close +:+ rest)
          with (String x1 (String x2 (String x3 (String x4 "")))
                +:+ String x5 (close +:+ rest)).
        apply stripWord_append, lower_stripWord.
        cbn [Js.toLowerCase]. by rewrite Hx1, Hx2, Hx3, Hx4.
      * rewrite ReFacts.run_mark. cbn [run tryWords stripWord].
        by rewrite (lower_s_not_paren x5 Hx5).
      * apply stripWord_append, lower_stripWord. by rewrite Hu.
      * rewrite ReFacts.run_mark.
        eapply run_word_some; [by rewrite Hclose|].
        assert (String.length unit = 5) as Hl4
          by (by rewrite <-(toLowerCase_length unit), Hu).
        cbn [run]. rewrite Hl4. len_norm. change (String.length Js.dq) with 1.
        f_equal. f_equal; [lia|]. do 3 (f_equal; [lia|]). f_equal. lia.
Qed.


(** *** No annotation starts inside another one *)

Lemma opensWithin_0 (s : string) : opensWithin 0 s = false.
Proof. by destruct s. Qed.

Lemma ow_char (n : nat) (c : ascii) (t : string) :
  Ascii.eqb c "<" = false →
  opensWithin n (String c t) = opensWithin (n - 1) t.
Proof.
  intros Hc. destruct n as [|n]; simpl; [by destruct t|].
  by rewrite Hc, Nat.sub_0_r.
Qed.

Lemma ow_lt (n : nat) (b : ascii) (t : string) :
  Ascii.eqb (Js.toLowerChar b) "p" = false →
  opensWithin n (String "<" (String b t)) = opensWithin (n - 1) (String b t).
Proof.
  intros Hb. destruct n as [|n]; [done|].
  cbn [opensWithin]. rewrite Hb, Nat.sub_succ, Nat.sub_0_r. done.
Qed.

Lemma ow_skip (n : nat) (a s : string) :
  allChars (λ c, negb (Ascii.eqb c "<")) a = true →
  opensWithin n (a +:+ s) = opensWithin (n - String.length a) s.
Proof.
  revert n. induction a as [|c a IH]; intros n; simpl.
  - by rewrite Nat.sub_0_r.
  - intros [Hc Ha]%andb_true_iff. apply negb_true_iff in Hc.
    rewrite ow_char, IH by done. f_equal. lia.
Qed.

Lemma ascii_eqb (f g : ascii → bool) :
  forallb (λ c, Bool.eqb (f c) (g c)) allAscii = true → ∀ c, f c = g c.
Proof.
  intros H c. apply Bool.eqb_prop.
  apply (ascii_forall (λ c, Bool.eqb (f c) (g c)) H).
Qed.

Lemma ow_lower (n : nat) (s : string) :
  opensWithin n (Js.toLowerCase s) = opensWithin n s.
Proof.
  revert n. induction s as [|c s IH]; intros n; [done|].
  destruct n as [|n]; [done|]. cbn [Js.toLowerCase opensWithin]. rewrite IH.
  f_equal. f_equal.
  - revert c.
    apply (ascii_eqb (λ c, Ascii.eqb (Js.toLowerChar c) "<")
             (λ c, Ascii.eqb c "<")).
    by vm_compute.
  - clear IH. destruct s as [|b s]; [done|]. cbn [Js.toLowerCase].
    revert b.
    apply (ascii_eqb (λ b, Ascii.eqb (Js.toLowerChar (Js.toLowerChar b)) "p")
             (λ b, Ascii.eqb (Js.toLowerChar b) "p")).
    by vm_compute.
Qed.

Lemma ow_found (n k : nat) (s : string) (c2 : ascii) (t : string) :
  k < n → Js.drop k s = String "<" (String c2 t) →
  Js.toLowerChar c2 = "p"%char →
  opensWithin n s = true.
Proof.
  revert n s. induction k as [|k IH]; intros n s Hk; simpl.
  - intros -> Hc2. destruct n as [|n]; [lia|]. cbn [opensWithin].
    by rewrite Hc2.
  - destruct s as [|c s]; [done|]. intros Hs Hc2.
    destruct n as [|n]; [lia|]. cbn [opensWithin].
    rewrite (IH n s); [by rewrite orb_true_r | lia | done | done].
Qed.

Lemma toLowerCase_drop (n : nat) (s : string) :
  Js.toLowerCase (Js.drop n s) = Js.drop n (Js.toLowerCase s).
Proof.
  revert s. induction n as [|n IH]; intros [|c s]; simpl; try done.
Qed.

Lemma allChars_impl (p q : ascii → bool) (s : string) :
  (∀ c, p c = true → q c = true) →
  allChars p s = true → allChars q s = true.
Proof.
  intros Hpq. induction s as [|c s IH]; simpl; [done|].
  intros [Hc Hs]%andb_true_iff. by rewrite (Hpq c Hc), IH.
Qed.

Lemma isSpace_not_lt (c : ascii) :
  Js.isSpace c = true → negb (Ascii.eqb c "<") = true.
Proof. revert c. apply ascii_implb. by vm_compute. Qed.

Lemma isDigit_not_lt (c : ascii) :
  Js.isDigit c = true → negb (Ascii.eqb c "<") = true.
Proof. revert c. apply ascii_implb. by vm_compute. Qed.

Lemma annotation_no_open_inside (u number unit rest : string) (j : nat)
    (c2 : ascii) (t : string) :
  annotationText u number unit →
  0 < j → j < String.length u →
  Js.drop j (u +:+ rest) = String "<" (String c2 t) →
  Js.toLowerChar c2 = "p"%char →
  False.
Proof.
  intros Hann Hj0 Hj Hdrop Hc2.
  assert (opensWithin (String.length u - 1) (Js.drop 1 (u +:+ rest)) = true)
    as Hopen.
  { apply ow_found with (j - 1) c2 t; [lia | | done].
    rewrite <-drop_add. by replace (1 + (j - 1)) with j by lia. }
  rewrite <-ow_lower, toLowerCase_drop, toLowerCase_append in Hopen.
  pose proof Hann as Hann'.
  destruct Hann' as (? & ? & ? & ? & ? & ? & ? & _ & _ & _ & _ & _ & _ & _
                     & Hnumber & _ & _ & Hunit & _).
  apply annotation_lower in Hann
    as (sp1 & sp2 & sp3 & sp4 & HL & Hsp1 & _ & Hsp2 & Hsp3 & Hsp4).
  rewrite <-(toLowerCase_length u) in Hopen. rewrite HL in Hopen.
  apply (allChars_impl _ _ _ isSpace_not_lt) in Hsp1, Hsp2, Hsp3, Hsp4.
  apply (allChars_impl _ _ _ isDigit_not_lt) in Hnumber.
  unfold Js.dq in Hopen.
  destruct Hunit as [Hu|Hu]; rewrite Hu in Hopen.
  all: revert Hopen; len_norm; str_norm; cbn [Js.drop].
  all: repeat first
         [ rewrite ow_char by (vm_compute; reflexivity)
         | rewrite ow_lt by (vm_compute; reflexivity)
         | rewrite ow_skip by assumption ].
  all: rewrite <-?Nat.sub_add_distr.
  all: match goal with
       | |- opensWithin ?n _ = true → False =>
           replace n with 0 by lia; by rewrite opensWithin_0
       end.
Qed.

End AnnotationFacts.

Section MarkComplete.

Import SemFacts CaseFacts CompleteFacts AnnotationFacts markRule.

Lemma lower_lt (c : ascii) : Js.toLowerChar c = "<"%char → c = "<"%char.
Proof.
  intros H. apply Ascii.eqb_eq. revert c H.
  intros c Hc. apply (ascii_implb (λ c, Ascii.eqb (Js.toLowerChar c) "<")
                        (λ c, Ascii.eqb c "<")).
  - by vm_compute.
  - by apply Ascii.eqb_eq.
Qed.

(** Every annotation of the text is a match of the scan, with its number
    and its unit as the two Re.groups. *)
Lemma annotation_found (text pre u rest number unit : string) :
  text = pre +:+ u +:+ rest →
  annotationText u number unit →
  ∃ r, r ∈ Re.execAll regex text
       ∧ Re.index r = String.length pre ∧ Re.matched r = u
       ∧ group 1 r = number ∧ group 2 r = unit.
Proof.
  intros Htext Hann.
  assert (Js.drop (String.length pre) text = u +:+ rest) as Hdrop
    by (rewrite Htext; apply JsFacts.drop_append).
  assert (String.length pre ≤ String.length text) as Hle
    by (rewrite Htext, JsFacts.length_append; lia).
  pose proof Hann as (open & sp1 & attrs & sp2 & sp3 & sp4 & close & Hu & Hopen
    & Hsp1 & Hne1 & Hattrs & Hsp2 & Hsp3 & Hnumber & Hne & Hsp4 & Hunit & Hclose).
  pose proof (annotation_run open sp1 attrs sp2 sp3 number sp4 unit close rest
                (String.length pre) Hopen Hsp1 Hne1 Hattrs Hsp2 Hsp3 Hnumber
                Hne Hsp4 Hunit Hclose) as Hrun.
  cbn zeta in Hrun.
  replace (open +:+ sp1 +:+ attrs +:+ sp2 +:+ "=" +:+ sp3 +:+ number +:+ sp4
           +:+ unit +:+ close +:+ rest) with (u +:+ rest) in Hrun
    by (rewrite Hu; by str_norm).
  rewrite <-Hdrop in Hrun.
  destruct (execAll_covers regex text (String.length pre)) as (r & Hr & Hlo & Hhi);
    [apply markRegex_nonempty | done
    | change (Re.ignoreCase regex) with true; by rewrite Hrun |].
  exists r. split; [done|].
  pose proof (mark_result_parts text) as Hparts.
  rewrite Forall_forall in Hparts. specialize (Hparts r Hr).
  pose proof (execLoop_sound (S (String.length text)) regex text 0) as Hsound.
  rewrite Forall_forall in Hsound.
  destruct (Hsound r Hr) as (rest' & marks & Hdrop' & _ & _).
  assert (Re.index r = String.length pre) as Hindex.
  { destruct (decide (Re.index r = String.length pre)) as [|Hneq]; [done|].
    exfalso.
    apply toLowerCase_cons_inv in Hopen as (o1 & t1 & Ho & Ho1 & Hopen).
    apply toLowerCase_cons_inv in Hopen as (o2 & t2 & -> & Ho2 & Hopen).
    apply lower_lt in Ho1 as ->.
    apply (annotation_no_open_inside (Re.matched r) (group 1 r) (group 2 r) rest'
             (String.length pre - Re.index r) o2
             (t2 +:+ sp1 +:+ attrs +:+ sp2 +:+ "=" +:+ sp3 +:+ number +:+ sp4
              +:+ unit +:+ close +:+ rest));
      [done | lia | unfold Re.lastIndexOf in Hhi; lia | | done].
    rewrite <-Hdrop', <-drop_add.
    replace (Re.index r + (String.length pre - Re.index r)) with (String.length pre)
      by lia.
    rewrite Hdrop, Hu, Ho. by str_norm. }
  split; [done|].
  pose proof (execLoop_run (S (String.length text)) regex text 0) as Hruns.
  rewrite Forall_forall in Hruns.
  destruct (Hruns r Hr) as (e & He & Hmk). rewrite Hindex in He, Hmk.
  change (Re.ignoreCase regex) with true in He. rewrite Hrun in He.
  injection He as <-. rewrite Hmk. unfold Re.mkResult, group.
  cbn [Re.matched Re.groups fst snd rev app Re.captures lookup list_lookup Nat.sub default].
  split_and!.
  - rewrite <-(substring_at _ _ _ _ Hdrop). f_equal.
    rewrite Hu. len_norm. lia.
  - apply capture_between with (i := String.length pre)
      (x := open +:+ sp1 +:+ attrs +:+ sp2 +:+ "=" +:+ sp3)
      (t := sp4 +:+ unit +:+ close +:+ rest); [|done..].
    rewrite Hdrop, Hu. by str_norm.
  - apply capture_between with (i := String.length pre)
      (x := open +:+ sp1 +:+ attrs +:+ sp2 +:+ "=" +:+ sp3 +:+ number +:+ sp4)
      (t := close +:+ rest).
    + rewrite Hdrop, Hu. by str_norm.
    + len_norm. lia.
    + len_norm. lia.
Qed.

End MarkComplete.

(** ** The mark rule against the text *)

Section MarkText.

Import SemFacts CaseFacts CompleteFacts AnnotationFacts markRule.

(** X17. [findTotalQuestionMarks] lists exactly the annotations of the text:
    a record whose number is a safe integer is in the list if and only if
    the text holds an annotation at the offset of the record, the record's
    match is the text of the annotation, its number is the value of the
    annotation's digits and its term is the annotation's unit in lower
    case. *)
Theorem findTotalQuestionMarks_iff (text : string) (m : Match) :
  Js.isSafeInteger (points m) = true →
  m ∈ findTotalQuestionMarks text
  ↔ ∃ pre u rest number unit,
      text = pre +:+ u +:+ rest
      ∧ annotationText u number unit
      ∧ m = mkMatch u (Js.parseInt number) (Js.toLowerCase unit)
              (String.length pre).
Proof.
  intros _. unfold findTotalQuestionMarks. split.
  - intros (r & -> & Hr)%list_elem_of_fmap.
    pose proof (mark_result_parts text) as Hparts.
    rewrite Forall_forall in Hparts. specialize (Hparts r Hr).
    pose proof (execLoop_sound (S (String.length text)) regex text 0) as Hsound.
    rewrite Forall_forall in Hsound.
    destruct (Hsound r Hr) as (rest & marks & Hdrop & _ & _).
    pose proof (execLoop_within (S (String.length text)) regex text 0) as Hin.
    rewrite Forall_forall in Hin. destruct (Hin r Hr) as (_ & Hlen & _).
    unfold Re.lastIndexOf in Hlen.
    exists (String.substring 0 (Re.index r) text), (Re.matched r), rest,
           (group 1 r), (group 2 r).
    split_and!; [|done|].
    + by rewrite <-Hdrop, take_drop.
    + rewrite JsFacts.length_substring by lia. done.
  - intros (pre & u & rest & number & unit & Htext & Hann & ->).
    destruct (annotation_found text pre u rest number unit Htext Hann)
      as (r & Hr & Hindex & Hmatched & Hg1 & Hg2).
    apply list_elem_of_fmap. exists r. split; [|done].
    by rewrite Hindex, Hmatched, Hg1, Hg2.
Qed.

(** X18. The mark rule misses no wrong annotation: for an annotation of the
    text whose number and unit fail [isCorrectMarkUsage], the rule pushes
    the Warning over the span of the annotation, with the fix for its
    number. *)
Theorem wrong_annotation_reported (document : TextDocument)
    (diagnostics : list Diagnostic) (pre u rest number unit : string) :
  getText document = pre +:+ u +:+ rest →
  annotationText u number unit →
  isCorrectMarkUsage (Js.parseInt number) (Js.toLowerCase unit) = false →
  createDiagnostic
    (newRange (positionAt document (Z.of_nat (String.length pre)))
              (positionAt document
                 (Z.of_nat (String.length pre + String.length u))))
    (Js.parseInt number)
  ∈ validate document diagnostics.
Proof.
  intros Htext Hann Hwrong.
  destruct (annotation_found _ pre u rest number unit Htext Hann)
    as (r & Hr & Hindex & Hmatched & Hg1 & Hg2).
  rewrite mark_validate_list. apply elem_of_app. right.
  apply list_elem_of_fmap.
  exists (mkMatch u (Js.parseInt number) (Js.toLowerCase unit)
            (String.length pre)).
  split; [done|]. apply list_elem_of_filter. split; [done|].
  unfold findTotalQuestionMarks. apply list_elem_of_fmap. exists r.
  split; [|done]. by rewrite Hindex, Hmatched, Hg1, Hg2.
Qed.


Lemma digits_allChars (s : string) : digits s = allChars Js.isDigit s.
Proof. induction s as [|c s IH]; simpl; [done | by rewrite IH]. Qed.

(** The corrected text of a fix is an annotation, with the number in
    decimal digits and the term of the fix. *)
Lemma corrected_is_annotation (n : N) :
  annotationText (createCorrectedText n) (Js.numberToString n)
    (getCorrectTerm n).
Proof.
  exists "<p", " ",
    ("align=" +:+ Js.dq +:+ "right" +:+ Js.dq +:+ "><b>(Total for question"),
    " ", " ", " ", ")</b></p>".
  split_and!; try done.
  - rewrite <-digits_allChars. apply NumberingFacts.numberToString_digits.
  - destruct (numberToString_cons n) as (d & ds & -> & _). done.
  - unfold getCorrectTerm. destruct (n =? 1)%N; [by left | by right].
Qed.

Lemma sorted_filter_unique {A} (f : A → nat) (l : list A) (x : A) :
  StronglySorted lt (f <$> l) → x ∈ l →
  filter (λ y, f y = f x) l = [x].
Proof.
  induction l as [|y l IH]; [by intros _ ?%elem_of_nil|].
  rewrite fmap_cons. intros Hsorted. apply StronglySorted_inv in Hsorted as [Hs Hall].
  rewrite Forall_fmap, Forall_forall in Hall.
  intros [->|Hx]%elem_of_cons; rewrite filter_cons.
  - rewrite decide_True by done. f_equal. clear IH Hs.
    induction l as [|z l IHl]; [done|]. rewrite filter_cons.
    rewrite decide_False.
    + apply IHl. intros w Hw. apply Hall. by right.
    + specialize (Hall z ltac:(left)). simpl in Hall. lia.
  - rewrite decide_False; [by apply IH|].
    specialize (Hall x Hx). simpl in Hall. lia.
Qed.

(** X19. The fix of the mark rule repairs the annotation it is made for,
    where the number is a safe integer other than 0: when the span of an
    annotation of the text is replaced by the corrected text for its number,
    the text holds the corrected text at that place, the only match at that
    offset is the corrected annotation, with the same number, and this match
    passes [isCorrectMarkUsage]. *)
Theorem fix_repairs_annotation (text pre u rest number unit : string) :
  text = pre +:+ u +:+ rest →
  annotationText u number unit →
  Js.isSafeInteger (Js.parseInt number) = true →
  Js.parseInt number ≠ 0%N →
  let n := Js.parseInt number in
  let fixed :=
    replaceRange text (String.length pre) (String.length pre + String.length u)
      (createCorrectedText n) in
  let corrected :=
    mkMatch (createCorrectedText n) n (getCorrectTerm n) (String.length pre) in
  fixed = pre +:+ createCorrectedText n +:+ rest
  ∧ filter (λ m, index m = String.length pre) (findTotalQuestionMarks fixed)
    = [corrected]
  ∧ isCorrectMarkUsage (points corrected) (term corrected) = true.
Proof.
  intros -> Hann _ Hn. cbn zeta. rewrite replaceRange_middle.
  split; [done|]. split.
  - destruct (annotation_found (pre +:+ createCorrectedText (Js.parseInt number)
                                +:+ rest)
                pre (createCorrectedText (Js.parseInt number)) rest
                (Js.numberToString (Js.parseInt number))
                (getCorrectTerm (Js.parseInt number)) eq_refl
                (corrected_is_annotation _))
      as (r & Hr & Hindex & Hmatched & Hg1 & Hg2).
    set (corrected := mkMatch _ _ _ _).
    assert (corrected ∈ findTotalQuestionMarks
              (pre +:+ createCorrectedText (Js.parseInt number) +:+ rest))
      as Hin.
    { unfold findTotalQuestionMarks. apply list_elem_of_fmap. exists r.
      split; [|done]. unfold corrected.
      rewrite Hindex, Hmatched, Hg1, Hg2, parseInt_numberToString.
      f_equal. unfold getCorrectTerm. by destruct (_ =? 1)%N. }
    refine (sorted_filter_unique index _ corrected _ Hin).
    unfold findTotalQuestionMarks. rewrite <-list_fmap_compose.
    apply (ReFacts.execAll_sorted regex), markRegex_nonempty.
  - cbn [points term]. unfold isCorrectMarkUsage, getCorrectTerm.
    destruct (N.eqb_spec (Js.parseInt number) 1) as [->|H1]; [done|].
    destruct (N.ltb_spec 1 (Js.parseInt number)); [done | lia].
Qed.

End MarkText.

(** ** The image rule against the text *)

Section ImageText.

Import SemFacts CaseFacts CompleteFacts AnnotationFacts imageRule.

Lemma allChars_app (p : ascii → bool) (a b : string) :
  allChars p (a +:+ b) = allChars p a && allChars p b.
Proof. induction a as [|c a IH]; simpl; [done | by rewrite IH, andb_assoc]. Qed.

Lemma isSpace_notGt (c : ascii) : Js.isSpace c = true → Js.notGt c = true.
Proof. revert c. apply ascii_implb. by vm_compute. Qed.

Lemma lower_s_notGt (c : ascii) : Js.toLowerChar c = "s"%char → Js.notGt c = true.
Proof.
  intros H. revert c H.
  intros c Hc. apply (ascii_implb (λ c, Ascii.eqb (Js.toLowerChar c) "s") Js.notGt).
  - by vm_compute.
  - by apply Ascii.eqb_eq.
Qed.

(** An image tag is matched by the attribute pattern of its name. *)
Lemma imageTag_sem (name u path : string) (pos : nat) :
  imageTag (Js.toLowerCase name) u path →
  ∃ marks,
    sem true
      (Re.Word "<img" ++ Re.Plus Js.isSpace ++ [Re.StarLazy Js.notGt]
       ++ Re.Word name ++ quoted (Re.Group [Re.Star Js.notDq])
       ++ [Re.Star Js.notGt] ++ Re.Word ">")
      u pos marks.
Proof.
  intros (tag & sp & a & attr & b & -> & Htag & Hsp & Hne & Ha & Hattr & Hpath
          & Hb).
  destruct sp as [|c sp]; [done|]. cbn [allChars] in Hsp.
  apply andb_true_iff in Hsp as [Hc Hsp].
  eexists. unfold Re.Word, Re.Plus, Re.Group, quoted. cbn [app sem].
  eexists "<img", tag, _. split_and!; [by left | by apply lower_stripWord | done |].
  eexists c, _. split_and!; [done | done |].
  eexists sp, _. split_and!; [done | done |].
  eexists a, _. split_and!; [done | done |].
  eexists name, attr, _. split_and!; [by left | by apply lower_stripWord | done |].
  eexists ("=" +:+ Js.dq), ("=" +:+ Js.dq), _.
  split_and!; [by left | done | done |].
  eexists. split; [reflexivity|].
  eexists path, _. split_and!; [done | done |].
  eexists. split; [reflexivity|].
  eexists Js.dq, Js.dq, _. split_and!; [by left | done | done |].
  eexists b, _. split_and!; [done | done |].
  exists ">", ">", "". split_and!; [by left | done | done |].
  done.
Qed.

(** X20. No image tag of the text escapes [findAllImages]: a tag with the
    attribute [src], or [sc], starts inside a listed match of that
    attribute, at its first character or later. *)
Theorem image_scan_covers (text pre u rest path : string) (flag : bool) :
  text = pre +:+ u +:+ rest →
  imageTag (if flag then "sc" else "src") u path →
  ∃ image,
    image ∈ findAllImages text
    ∧ hasScAttribute image = flag
    ∧ index image ≤ String.length pre
    ∧ String.length pre < index image + String.length (fullMatch image).
Proof.
  intros Htext Htag. unfold findAllImages. destruct flag.
  - destruct (imageTag_sem "sc" u path (String.length pre) Htag) as [marks Hsem].
    destruct (execAll_covers_sem scRegex text pre u rest marks)
      as (r & Hr & Hlo & Hhi); [apply scRegex_nonempty | done | done |].
    exists (mkImage (Re.matched r) (group 1 r) (Re.index r) true).
    split; [|split_and!; [reflexivity | exact Hlo | exact Hhi]].
    apply elem_of_app. right. apply list_elem_of_fmap. by exists r.
  - destruct (imageTag_sem "src" u path (String.length pre) Htag) as [marks Hsem].
    destruct (execAll_covers_sem srcRegex text pre u rest marks)
      as (r & Hr & Hlo & Hhi); [apply srcRegex_nonempty | done | done |].
    exists (mkImage (Re.matched r) (group 1 r) (Re.index r) false).
    split; [|split_and!; [reflexivity | exact Hlo | exact Hhi]].
    apply elem_of_app. left. apply list_elem_of_fmap. by exists r.
Qed.

(** The pattern for a misspelt attribute accepts a well-formed tag: the
    letters [rc] of [src] are one of its spellings. *)
Lemma typoAttribute_accepts_src (u path rest : string) (pos : nat) :
  imageTag "src" u path →
  is_Some (Re.run true (Re.atoms typoAttribute) (u +:+ rest) pos []).
Proof.
  intros (tag & sp & a & attr & b & -> & Htag & Hsp & Hne & Ha & Hattr & Hpath
          & Hb).
  apply toLowerCase_cons_inv in Htag as (t0 & tag' & -> & Ht0 & Htag').
  apply lower_lt in Ht0 as ->.
  apply toLowerCase_cons_inv in Hattr as (s0 & attr' & -> & Hs0 & Hattr').
  assert (sem true (Re.atoms typoAttribute)
            ("<" +:+ "" +:+ tag' +:+ (sp +:+ a +:+ String s0 "") +:+ attr'
             +:+ ("=" +:+ Js.dq) +:+ path +:+ Js.dq +:+ "") pos []) as Hsem.
  { unfold typoAttribute, Re.Word, quoted. cbn [Re.atoms app sem].
    exists "<", "<", ("" +:+ tag' +:+ (sp +:+ a +:+ String s0 "") +:+ attr'
             +:+ ("=" +:+ Js.dq) +:+ path +:+ Js.dq +:+ "").
    split_and!; [by left | done | reflexivity |].
    exists "", (tag' +:+ (sp +:+ a +:+ String s0 "") +:+ attr'
             +:+ ("=" +:+ Js.dq) +:+ path +:+ Js.dq +:+ "").
    split_and!; [reflexivity | done |].
    exists "img", tag', ((sp +:+ a +:+ String s0 "") +:+ attr'
             +:+ ("=" +:+ Js.dq) +:+ path +:+ Js.dq +:+ "").
    split_and!; [by left | by apply lower_stripWord | reflexivity |].
    exists (sp +:+ a +:+ String s0 ""),
           (attr' +:+ ("=" +:+ Js.dq) +:+ path +:+ Js.dq +:+ "").
    split_and!; [reflexivity | |].
    { rewrite !allChars_app. cbn [allChars].
      rewrite (allChars_impl _ _ _ isSpace_notGt Hsp), Ha, (lower_s_notGt s0 Hs0).
      done. }
    exists "rc", attr', (("=" +:+ Js.dq) +:+ path +:+ Js.dq +:+ "").
    split_and!; [set_solver | by apply lower_stripWord | reflexivity |].
    exists ("=" +:+ Js.dq), ("=" +:+ Js.dq), (path +:+ Js.dq +:+ "").
    split_and!; [by left | done | reflexivity |].
    exists path, (Js.dq +:+ ""). split_and!; [reflexivity | done |].
    exists Js.dq, Js.dq, "". split_and!; [by left | done | done |].
    done. }
  pose proof (run_complete _ _ _ _ _ Hsem (b +:+ ">" +:+ rest) []) as Hrun.
  match goal with
  | |- is_Some (Re.run _ _ ?s _ _) =>
      replace s
        with (("<" +:+ "" +:+ tag' +:+ (sp +:+ a +:+ String s0 "") +:+ attr'
               +:+ ("=" +:+ Js.dq) +:+ path +:+ Js.dq +:+ "")
              +:+ b +:+ ">" +:+ rest); [done|]
  end.
  str_norm. done.
Qed.



(** X21. The typo check takes a well-formed tag for a misspelt one: when a
    path that no listed match holds in its [src] has a well-formed tag
    with the attribute [src] in the text around its first occurrence, a
    typo pattern matches there, and the check pushes the typo Error for
    the path. *)
Theorem typo_check_flags_wellformed_tag (document : TextDocument)
    (text : string) (images : list Image) (diagnostics : list Diagnostic)
    (filePath : string) (i : nat) (pre u rest path : string) :
  foundInCorrectTag images filePath = false →
  Js.indexOf text filePath = Some i →
  contextText text filePath (Z.of_nat i) = pre +:+ u +:+ rest →
  imageTag "src" u path →
  ∃ typoMatch warning,
    firstTypo typoMatches (contextText text filePath (Z.of_nat i))
    = Some typoMatch
    ∧ checkFilePath document text images diagnostics filePath
      = diagnostics ++
          typoDiagnostic document filePath (startSearchIndex (Z.of_nat i))
            typoMatch :: warning
    ∧ (warning = []
       ∨ warning = [outsideTagDiagnostic document filePath (Z.of_nat i)]).
Proof.
  intros Hfound Hi Hctx Htag.
  destruct (firstTypo_some typoMatches (contextText text filePath (Z.of_nat i))
              typoAttribute) as [typoMatch Htypo].
  { set_solver. }
  { unfold Re.exec. cbn [Nat.leb Js.drop].
    destruct (search_finds typoAttribute (contextText text filePath (Z.of_nat i))
                (contextText text filePath (Z.of_nat i)) 0 (String.length pre))
      as (r & -> & _); [done | lia | | | done].
    - rewrite Hctx, JsFacts.length_append. lia.
    - rewrite Hctx, JsFacts.drop_append.
      by apply typoAttribute_accepts_src with path. }
  exists typoMatch. eexists. split; [done|]. split.
  - by apply checkFilePath_typo.
  - destruct (covered _ _ _); [by left | by right].
Qed.


(** The parts of a match of the reference pattern. *)
Lemma reference_parts (text : string) :
  Forall (λ r, ∃ name folder number extension,
            Re.matched r = name +:+ folder +:+ number +:+ extension
            ∧ allChars Js.isWord name = true ∧ name ≠ ""
            ∧ Js.toLowerCase folder = "_files/"
            ∧ allChars Js.isDigit number = true ∧ number ≠ ""
            ∧ Js.toLowerCase extension = ".png")
         (Re.execAll filesRegex text).
Proof.
  eapply Forall_impl; [apply execLoop_sound|].
  intros r (rest & marks & _ & _ & Hsem). cbn in Hsem.
  destruct Hsem as (marks1 & -> & c & u1 & Hu & Hc & w & u2 & -> & Hw
    & marks2 & -> & w1 & v1 & u3 & Hw1 & Hv1 & ->
    & marks3 & -> & d & u4 & -> & Hd & ds & u5 & -> & Hds
    & marks4 & -> & w2 & v2 & u6 & Hw2 & Hv2 & -> & -> & ->).
  apply list_elem_of_singleton in Hw1, Hw2. subst w1 w2.
  apply stripWord_lower in Hv1, Hv2.
  exists (String c w), v1, (String d ds), v2. split_and!; try done.
  - rewrite Hu. str_norm. by rewrite ?append_nil_r.
  - cbn [allChars]. by rewrite Hc, Hw.
  - cbn [allChars]. by rewrite Hd, Hds.
Qed.

Lemma notDq_lower (s : string) :
  allChars Js.notDq (Js.toLowerCase s) = allChars Js.notDq s.
Proof.
  induction s as [|c s IH]; [done|]. cbn [Js.toLowerCase allChars].
  rewrite IH. f_equal. revert c.
  apply (ascii_eqb (λ c, Js.notDq (Js.toLowerChar c)) Js.notDq). by vm_compute.
Qed.

Lemma isWord_notDq (c : ascii) : Js.isWord c = true → Js.notDq c = true.
Proof. revert c. apply ascii_implb. by vm_compute. Qed.

Lemma isDigit_notDq (c : ascii) : Js.isDigit c = true → Js.notDq c = true.
Proof. revert c. apply ascii_implb. by vm_compute. Qed.

(** X22. Every path that the typo check examines reads: word characters,
    [_files/] in any case, decimal digits, [.png] in any case; it holds no
    double quote, so that the tag which the fix of a typo Error proposes
    is a well-formed image tag with this path in its [src]. *)
Theorem typo_fix_is_wellformed (text : string) :
  Forall (λ filePath,
            (∃ name folder number extension,
               filePath = name +:+ folder +:+ number +:+ extension
               ∧ allChars Js.isWord name = true ∧ name ≠ ""
               ∧ Js.toLowerCase folder = "_files/"
               ∧ allChars Js.isDigit number = true ∧ number ≠ ""
               ∧ Js.toLowerCase extension = ".png")
            ∧ allChars Js.notDq filePath = true
            ∧ imageTag "src" (correctTag filePath) filePath)
         (filesMatches text).
Proof.
  apply Forall_forall. intros filePath Hin.
  destruct (filesMatches_spec text) as (_ & Hiff & _).
  apply Hiff in Hin as (m & Hm & <-).
  pose proof (reference_parts text) as Hparts.
  rewrite Forall_forall in Hparts.
  destruct (Hparts m Hm) as (name & folder & number & extension & Hp & Hname
    & Hne & Hfolder & Hnumber & Hnum & Hext).
  assert (allChars Js.notDq (Re.matched m) = true) as Hdq.
  { rewrite Hp, !allChars_app.
    rewrite (allChars_impl _ _ _ isWord_notDq Hname).
    rewrite (allChars_impl _ _ _ isDigit_notDq Hnumber).
    rewrite <-(notDq_lower folder), Hfolder.
    rewrite <-(notDq_lower extension), Hext. done. }
  split; [by exists name, folder, number, extension|]. split; [done|].
  exists "<img", " ", "", "src", "". split_and!; done.
Qed.

End ImageText.

(** ** The image rule: where a typo match ends *)

Section TypoSpan.

Import imageRule SemFacts CaseFacts AnnotationFacts.

Lemma lower_notGt (v : string) :
  allChars Js.notGt (Js.toLowerCase v) = true → allChars Js.notGt v = true.
Proof.
  induction v as [|c v IH]; cbn [allChars Js.toLowerCase]; [done|].
  intros [Hc Hv]%andb_true_iff. rewrite (IH Hv), andb_true_r.
  revert Hc. apply (ascii_implb (λ c, Js.notGt (Js.toLowerChar c)) Js.notGt).
  by vm_compute.
Qed.

Lemma exec_sem (re : Re.regex) (text : string) (r : Re.result) :
  Re.exec re text 0 = Some r →
  ∃ marks, sem (Re.ignoreCase re) (Re.atoms re) (Re.matched r) (Re.index r) marks.
Proof.
  unfold Re.exec. cbn [Nat.leb Js.drop]. intros Hsearch.
  destruct (search_sound re text text 0 r eq_refl ltac:(lia) Hsearch)
    as (rest & marks & _ & _ & Hsem).
  by exists marks.
Qed.

Lemma typoTag_parts (tag context : string) (r : Re.result) :
  allChars Js.notGt (Js.toLowerCase tag) = true →
  Re.exec (typoTag tag) context 0 = Some r →
  ∃ head value,
    Re.matched r = head +:+ "=" +:+ Js.dq +:+ value +:+ Js.dq
    ∧ allChars Js.notGt head = true
    ∧ allChars Js.notDq value = true.
Proof.
  intros Htag (marks & Hsem)%exec_sem. cbn in Hsem.
  destruct Hsem as (w1 & v1 & u1 & Hw1 & Hv1 & Hu1 & c & u2 & -> & Hc
    & sp & u3 & -> & Hsp & a & u4 & -> & Ha
    & w2 & v2 & u5 & Hw2 & Hv2 & -> & w3 & v3 & u6 & Hw3 & Hv3 & ->
    & s & u7 & -> & Hs & w4 & v4 & u8 & Hw4 & Hv4 & -> & -> & ->).
  apply list_elem_of_singleton in Hw1, Hw3, Hw4. subst w1 w3 w4.
  apply stripWord_lower in Hv1, Hv2.
  apply stripWord_exact in Hv3; [|done]. apply stripWord_exact in Hv4; [|done].
  subst v3 v4.
  exists (v1 +:+ String c (sp +:+ a +:+ v2)), s. split_and!.
  - rewrite Hu1. str_norm. by rewrite ?append_nil_r.
  - rewrite allChars_app. cbn [allChars]. rewrite !allChars_app.
    rewrite (lower_notGt v1) by (by rewrite Hv1).
    rewrite (isSpace_notGt c Hc), (allChars_impl _ _ sp isSpace_notGt Hsp), Ha.
    rewrite (lower_notGt v2); [done|]. rewrite Hv2.
    repeat (apply elem_of_cons in Hw2 as [->|Hw2]); [done.. |].
    by apply elem_of_nil in Hw2.
  - done.
Qed.

Lemma typoAttribute_parts (context : string) (r : Re.result) :
  Re.exec typoAttribute context 0 = Some r →
  ∃ head value,
    Re.matched r = head +:+ "=" +:+ Js.dq +:+ value +:+ Js.dq
    ∧ allChars Js.notGt head = true
    ∧ allChars Js.notDq value = true.
Proof.
  intros (marks & Hsem)%exec_sem. cbn in Hsem.
  destruct Hsem as (w1 & v1 & u1 & Hw1 & Hv1 & Hu1
    & sp & u3 & -> & Hsp & w0 & v0 & u2 & Hw0 & Hv0 & -> & a & u4 & -> & Ha
    & w2 & v2 & u5 & Hw2 & Hv2 & -> & w3 & v3 & u6 & Hw3 & Hv3 & ->
    & s & u7 & -> & Hs & w4 & v4 & u8 & Hw4 & Hv4 & -> & -> & ->).
  apply list_elem_of_singleton in Hw1, Hw0, Hw3, Hw4. subst w1 w0 w3 w4.
  apply stripWord_lower in Hv1, Hv0, Hv2.
  apply stripWord_exact in Hv3; [|done]. apply stripWord_exact in Hv4; [|done].
  subst v3 v4.
  exists (v1 +:+ sp +:+ v0 +:+ a +:+ v2), s. split_and!.
  - rewrite Hu1. str_norm. by rewrite ?append_nil_r.
  - rewrite !allChars_app.
    rewrite (lower_notGt v1) by (by rewrite Hv1).
    rewrite (allChars_impl _ _ sp isSpace_notGt Hsp).
    rewrite (lower_notGt v0) by (by rewrite Hv0).
    rewrite Ha. rewrite (lower_notGt v2); [done|]. rewrite Hv2.
    repeat (apply elem_of_cons in Hw2 as [->|Hw2]); [done.. |].
    by apply elem_of_nil in Hw2.
  - done.
Qed.

(** X23. A match of a typo pattern ends with the double quote that closes
    the value of the attribute: the match is a head without [>], the sign
    [=] and the value, without a double quote, between two double quotes.
    So the span of the Error of the typo check, which is the span of the
    match, ends before the [>] that closes the malformed tag. *)
Theorem typo_match_ends_at_quote (context : string) (typoMatch : Re.result) :
  firstTypo typoMatches context = Some typoMatch →
  ∃ head value,
    Re.matched typoMatch = head +:+ "=" +:+ Js.dq +:+ value +:+ Js.dq
    ∧ allChars Js.notGt head = true
    ∧ allChars Js.notDq value = true.
Proof.
  intros (typoRegex & Hin & Hexec)%firstTypo_exec.
  unfold typoMatches in Hin.
  repeat (apply elem_of_cons in Hin as [->|Hin]);
    [by eapply typoTag_parts; [|exact Hexec]..
    | by eapply typoAttribute_parts | by apply elem_of_nil in Hin].
Qed.

End TypoSpan.

(** ** The image rule: the order of the matches *)

Section ImageOrder.

Import SemFacts CaseFacts CompleteFacts imageRule.

(** The loop over the matches of an attribute pattern is a scan of the text
    for the tags with this attribute. *)
Lemma attribute_scan (name : string) (flag : bool) (text : string) :
  let re :=
    Re.Regex
      (Re.Word "<img" ++ Re.Plus Js.isSpace ++ [Re.StarLazy Js.notGt]
       ++ Re.Word name ++ quoted (Re.Group [Re.Star Js.notDq])
       ++ [Re.Star Js.notGt] ++ Re.Word ">")
      true in
  1 ≤ Re.minLen (Re.atoms re) →
  scanOf (Js.toLowerCase name) flag text
    (map (λ m, mkImage (Re.matched m) (group 1 m) (Re.index m) flag)
         (Re.execAll re text)).
Proof.
  intros re Hmin. unfold scanOf. split_and!.
  - apply Forall_fmap.
    eapply Forall_impl;
      [apply Forall_and; split;
         [apply (attribute_match_parts name text)
         | apply (execLoop_within (S (String.length text)) re text 0)]|].
    intros r [Htag (_ & Hlen & Hsub)]. unfold compose.
    cbn [hasScAttribute fullMatch src index]. unfold Re.lastIndexOf in *.
    split_and!; done.
  - eapply StronglySorted_fmap_2;
      [|apply (execLoop_apart (S (String.length text)) re text 0)].
    done.
  - intros pre u rest path Htext Htag.
    destruct (imageTag_sem name u path (String.length pre) Htag) as [marks Hsem].
    destruct (execAll_covers_sem re text pre u rest marks Hmin Htext Hsem)
      as (r & Hr & Hlo & Hhi).
    exists (mkImage (Re.matched r) (group 1 r) (Re.index r) flag).
    split; [|split; [exact Hlo | exact Hhi]].
    apply list_elem_of_fmap. by exists r.
Qed.

(** C6. [findAllImages] lists first the tags with the attribute [src] and
    then the tags with the attribute [sc] (flagged [hasScAttribute]), each
    part being a scan of the text from left to right: every match is the
    text at its offset and an image tag of its spelling, the matches of a
    part do not overlap and follow each other in the text, and no tag of the
    spelling lies outside them.  So every [src] match stands in the list
    before every [sc] match, wherever the two are in the text; and each scan
    ends because [exec] finds no further match, not because the rounds run
    out. *)
Theorem findAllImages_order (text : string) :
  ∃ canonical nearMiss,
    findAllImages text = canonical ++ nearMiss
    ∧ scanOf "src" false text canonical
    ∧ scanOf "sc" true text nearMiss
    ∧ (∀ i j a b,
         findAllImages text !! i = Some a → findAllImages text !! j = Some b →
         hasScAttribute a = false → hasScAttribute b = true → i < j)
    ∧ (∀ fuel, String.length text < fuel →
         (index <$> canonical) = (Re.index <$> Re.execLoop fuel srcRegex text 0)
         ∧ (index <$> nearMiss) = (Re.index <$> Re.execLoop fuel scRegex text 0)).
Proof.
  eexists _, _. split; [reflexivity|].
  pose proof (attribute_scan "src" false text srcRegex_nonempty) as Hsrc.
  pose proof (attribute_scan "sc" true text scRegex_nonempty) as Hsc.
  split; [exact Hsrc|]. split; [exact Hsc|]. split.
  - intros i j a b Ha Hb Hfa Hfb. unfold findAllImages in Ha, Hb.
    destruct Hsrc as (Hsrc & _), Hsc as (Hsc & _).
    rewrite Forall_forall in Hsrc, Hsc.
    apply lookup_app_Some in Ha as [Ha|[_ Ha]]; cycle 1.
    { apply list_elem_of_lookup_2, Hsc in Ha as [Hflag _]. congruence. }
    apply lookup_app_Some in Hb as [Hb|[Hj _]].
    { apply list_elem_of_lookup_2, Hsrc in Hb as [Hflag _]. congruence. }
    apply lookup_lt_Some in Ha. lia.
  - intros fuel Hfuel.
    rewrite (ReFacts.execAll_fuel fuel srcRegex) by (apply srcRegex_nonempty || done).
    rewrite (ReFacts.execAll_fuel fuel scRegex) by (apply scRegex_nonempty || done).
    by rewrite <-!list_fmap_compose.
Qed.

End ImageOrder.

(** ** The program over its objects agrees with the functions *)

Module StoreFacts.

Import Objects.

Lemma bind_run {A B : Type} (m : M A) (k : A → M B) (s s' : Store) (x : A) :
  m s = (x, s') → bind m k s = k x s'.
Proof. unfold bind. by intros ->. Qed.

Lemma extends_refl (s : Store) : extends s s.
Proof. by split_and!. Qed.

Lemma extends_trans (s1 s2 s3 : Store) :
  extends s1 s2 → extends s2 s3 → extends s1 s3.
Proof.
  intros (Ha & Hc & Hr) (Ha' & Hc' & Hr'). split_and!.
  - by rewrite Ha'.
  - by rewrite Hc'.
  - by etrans.
Qed.

Lemma extends_lookup (s s' : Store) (array : nat) :
  extends s s' → arrays s' !! array = arrays s !! array.
Proof. by intros (-> & _). Qed.

Lemma pushed_lookup (array : nat) (after ds : list Diagnostic) (s s' : Store) :
  arrays s !! array = Some ds → pushed array after s s' →
  arrays s' !! array = Some after.
Proof.
  intros Hds (-> & _). apply list_lookup_insert_eq. by eapply lookup_lt_Some.
Qed.

Lemma pushed_trans (array : nat) (d1 d2 : list Diagnostic) (s s1 s2 : Store) :
  pushed array d1 s s1 → pushed array d2 s1 s2 → pushed array d2 s s2.
Proof.
  intros (Ha & Hc & Hr) (Ha' & Hc' & Hr'). split_and!.
  - by rewrite Ha', Ha, list_insert_insert_eq.
  - by rewrite Hc'.
  - by etrans.
Qed.

Lemma extends_pushed (array : nat) (ds : list Diagnostic) (s s' : Store) :
  arrays s !! array = Some ds → extends s s' → pushed array ds s s'.
Proof.
  intros Hds (Ha & Hc & Hr). split_and!; [|done..].
  by rewrite Ha, list_insert_id.
Qed.

Lemma pushed_refl (array : nat) (ds : list Diagnostic) (s : Store) :
  arrays s !! array = Some ds → pushed array ds s s.
Proof. intros Hds. apply extends_pushed; [done | apply extends_refl]. Qed.

Lemma extends_then_pushed (array : nat) (after : list Diagnostic)
    (s s1 s2 : Store) :
  extends s s1 → pushed array after s1 s2 → pushed array after s s2.
Proof.
  intros (Ha & Hc & Hr) (Ha' & Hc' & Hr'). split_and!.
  - by rewrite Ha', Ha.
  - by rewrite Hc'.
  - by etrans.
Qed.

Lemma push_spec (array : nat) (d : Diagnostic) (ds : list Diagnostic)
    (s : Store) :
  arrays s !! array = Some ds →
  ∃ s', push array d s = (tt, s') ∧ pushed array (ds ++ [d]) s s'.
Proof.
  intros Hds. eexists. split; [reflexivity|]. split_and!; [|done..].
  cbn [arrays]. apply list_eq. intros i.
  rewrite list_lookup_alter, list_lookup_insert.
  destruct (decide (array = i)) as [->|Hne].
  - rewrite Hds. rewrite decide_True; [done|].
    split; [done | by eapply lookup_lt_Some].
  - rewrite decide_False; [done | by intros [? _]].
Qed.

Lemma alter_last {A : Type} (f : A → A) (l : list A) (x : A) :
  alter f (length l) (l ++ [x]) = l ++ [f x].
Proof.
  replace (length l) with (length l + 0) at 1 by lia.
  by rewrite alter_app_r.
Qed.

Lemma lookup_last {A : Type} (l : list A) (x : A) :
  (l ++ [x]) !! length l = Some x.
Proof. by rewrite lookup_app_r, Nat.sub_diag. Qed.

(** A scan with a new object for the expression visits the matches of the
    loop [Re.execLoop] from [lastIndex] 0 and changes nothing else. *)
Lemma whileExec_fresh {S : Type} (fuel : nat) (re : Re.regex) (text : string)
    (body : S → Re.result → S) (acc : S) (objects : list RegExp)
    (arrs : list (list Diagnostic)) (coll : gmap string (list Diagnostic))
    (lastIndex : nat) :
  ∃ lastIndex',
    whileExec fuel (length objects) text body acc
      (mkStore (objects ++ [mkRegExp re true lastIndex]) arrs coll)
    = (fold_left body (Re.execLoop fuel re text lastIndex) acc,
       mkStore (objects ++ [mkRegExp re true lastIndex']) arrs coll).
Proof.
  revert acc lastIndex. induction fuel as [|fuel IH]; intros acc lastIndex.
  - by exists lastIndex.
  - cbn [whileExec Re.execLoop]. unfold bind, exec. cbn [regexps].
    rewrite lookup_last. cbn [global pattern Objects.lastIndex].
    destruct (Re.exec re text lastIndex) as [r|].
    + unfold setLastIndex. cbn [regexps arrays collection].
      rewrite alter_last. cbn [pattern global].
      destruct (IH (body acc r) (Re.lastIndexOf r)) as [lastIndex' ->].
      by exists lastIndex'.
    + unfold setLastIndex. cbn [regexps arrays collection].
      rewrite alter_last. by exists 0.
Qed.

Lemma scan_spec {S : Type} (re : Re.regex) (text : string)
    (body : S → Re.result → S) (acc : S) (s : Store) :
  ∃ s',
    bind (newRegExp re true)
      (λ regex, whileExec (Datatypes.S (String.length text)) regex text body acc) s
    = (fold_left body (Re.execAll re text) acc, s')
    ∧ extends s s'.
Proof.
  destruct s as [objects arrs coll]. unfold bind, newRegExp.
  cbn [regexps arrays collection].
  destruct (whileExec_fresh (Datatypes.S (String.length text)) re text body acc
              objects arrs coll 0) as [lastIndex' ->].
  eexists. split; [reflexivity|]. split_and!; [done..|].
  cbn [regexps]. by apply prefix_app_r.
Qed.

(** An expression without the [g] flag, in a new object: [exec] starts at
    0 and leaves the store as it is. *)
Lemma exec_fresh_local (re : Re.regex) (text : string) (s : Store) :
  ∃ s',
    bind (newRegExp re false) (λ regex, exec regex text) s
    = (Re.exec re text 0, s')
    ∧ extends s s'.
Proof.
  destruct s as [objects arrs coll]. unfold bind, newRegExp, exec.
  cbn [regexps arrays collection]. rewrite lookup_last. cbn [global pattern].
  eexists. split; [reflexivity|]. split_and!; [done..|].
  cbn [regexps]. by apply prefix_app_r.
Qed.

Lemma scan_spec_bind {S B : Type} (re : Re.regex) (text : string)
    (body : S → Re.result → S) (acc : S) (k : S → M B) (s : Store) :
  ∃ s',
    bind (newRegExp re true)
      (λ regex,
         bind (whileExec (Datatypes.S (String.length text)) regex text body acc) k)
      s
    = k (fold_left body (Re.execAll re text) acc) s'
    ∧ extends s s'.
Proof.
  destruct s as [objects arrs coll].
  destruct (whileExec_fresh (Datatypes.S (String.length text)) re text body acc
              objects arrs coll 0) as [lastIndex' Hrun].
  exists (mkStore (objects ++ [mkRegExp re true lastIndex']) arrs coll).
  split.
  - unfold bind at 1. unfold newRegExp. cbn [regexps arrays collection].
    by rewrite (bind_run _ _ _ _ _ Hrun).
  - split_and!; [done..|]. cbn [regexps]. by apply prefix_app_r.
Qed.

Lemma exec_fresh_local_bind {B : Type} (re : Re.regex) (text : string)
    (k : option Re.result → M B) (s : Store) :
  ∃ s',
    bind (newRegExp re false) (λ regex, bind (exec regex text) k) s
    = k (Re.exec re text 0) s'
    ∧ extends s s'.
Proof.
  destruct s as [objects arrs coll].
  exists (mkStore (objects ++ [mkRegExp re false 0]) arrs coll). split.
  - unfold bind, newRegExp, exec. cbn [regexps arrays collection].
    rewrite lookup_last. by cbn [global pattern].
  - split_and!; [done..|]. cbn [regexps]. by apply prefix_app_r.
Qed.

Lemma fold_left_push_map {A B : Type} (f : A → B) (l : list A) (acc : list B) :
  fold_left (λ acc x, acc ++ [f x]) l acc = acc ++ map f l.
Proof.
  revert acc. induction l as [|x l IH]; intros acc; simpl.
  - by rewrite app_nil_r.
  - by rewrite IH, <-app_assoc.
Qed.

(** A loop whose body pushes to the array, and carries a value along. *)
Lemma foldM_pushed {A S : Type} (array : nat) (body : S → A → M S)
    (step : S * list Diagnostic → A → S * list Diagnostic) (l : list A) :
  (∀ acc x s ds,
     arrays s !! array = Some ds →
     ∃ s', body acc x s = ((step (acc, ds) x).1, s')
           ∧ pushed array (step (acc, ds) x).2 s s') →
  ∀ acc s ds,
    arrays s !! array = Some ds →
    ∃ s', foldM body l acc s = ((fold_left step l (acc, ds)).1, s')
          ∧ pushed array (fold_left step l (acc, ds)).2 s s'.
Proof.
  intros Hbody. induction l as [|x l IH]; intros acc s ds Hds.
  - exists s. split; [done|]. by apply pushed_refl.
  - cbn [foldM fold_left].
    destruct (Hbody acc x s ds Hds) as (s1 & Hrun & Hpushed).
    rewrite (bind_run _ _ _ _ _ Hrun).
    destruct (IH (step (acc, ds) x).1 s1 (step (acc, ds) x).2) as (s2 & -> & H2).
    { by eapply pushed_lookup. }
    exists s2. rewrite <-surjective_pairing in *. split; [done|].
    by eapply pushed_trans.
Qed.

Lemma forEach_pushed {A : Type} (array : nat) (body : A → M unit)
    (step : list Diagnostic → A → list Diagnostic) (l : list A) :
  (∀ x s ds,
     arrays s !! array = Some ds →
     ∃ s', body x s = (tt, s') ∧ pushed array (step ds x) s s') →
  ∀ s ds,
    arrays s !! array = Some ds →
    ∃ s', forEach l body s = (tt, s') ∧ pushed array (fold_left step l ds) s s'.
Proof.
  intros Hbody s ds Hds. unfold forEach.
  destruct (foldM_pushed array (λ _ x, body x) (λ p x, (tt, step p.2 x)) l)
    with (acc := tt) (s := s) (ds := ds) as (s' & Hrun & Hpushed); [|done|].
  { intros [] x s0 ds0 Hds0. cbn [fst snd]. by apply Hbody. }
  exists s'. split.
  - rewrite Hrun. by destruct (fold_left _ l (tt, ds)).1.
  - replace (fold_left step l ds)
      with (fold_left (λ p x, (tt, step p.2 x)) l (tt, ds)).2; [done|].
    clear. revert ds. induction l as [|x l IH]; intros ds; [done|]. apply IH.
Qed.

Lemma foldM_extends {A S : Type} (body : S → A → M S) (step : S → A → S)
    (l : list A) :
  (∀ acc x s, ∃ s', body acc x s = (step acc x, s') ∧ extends s s') →
  ∀ acc s, ∃ s', foldM body l acc s = (fold_left step l acc, s') ∧ extends s s'.
Proof.
  intros Hbody. induction l as [|x l IH]; intros acc s.
  - exists s. split; [done | apply extends_refl].
  - cbn [foldM fold_left]. destruct (Hbody acc x s) as (s1 & Hrun & H1).
    rewrite (bind_run _ _ _ _ _ Hrun).
    destruct (IH (step acc x) s1) as (s2 & -> & H2).
    exists s2. split; [done | by eapply extends_trans].
Qed.

(** The array literal of the typo patterns makes one object for each
    pattern, behind the objects of the store. *)
Lemma newRegExps_run (patterns : list Re.regex) (array : list nat)
    (objects : list RegExp) (arrs : list (list Diagnostic))
    (coll : gmap string (list Diagnostic)) :
  foldM (λ array pattern,
           bind (newRegExp pattern false) (λ regex, ret (array ++ [regex])))
        patterns array (mkStore objects arrs coll)
  = (array ++ seq (length objects) (length patterns),
     mkStore (objects ++ map (λ re, mkRegExp re false 0) patterns) arrs coll).
Proof.
  revert array objects. induction patterns as [|re patterns IH];
    intros array objects.
  - cbn. by rewrite !app_nil_r.
  - cbn [foldM]. unfold bind at 1. unfold bind at 1. unfold newRegExp, ret.
    cbn [regexps arrays collection]. rewrite IH.
    rewrite length_app. cbn [length map seq].
    rewrite Nat.add_1_r, <-!app_assoc. done.
Qed.

(** The loop over the typo patterns, on their objects: it runs [found] on
    the match of the first pattern that matches, and leaves the store as it
    is otherwise. *)
Lemma forTypo_run (patterns : list Re.regex) (contextText : string)
    (found : Re.result → M unit) (pre post : list RegExp)
    (arrs : list (list Diagnostic)) (coll : gmap string (list Diagnostic)) :
  Objects.imageRule.forTypo (seq (length pre) (length patterns)) contextText found
    (mkStore (pre ++ map (λ re, mkRegExp re false 0) patterns ++ post) arrs coll)
  = match imageRule.firstTypo patterns contextText with
    | Some typoMatch =>
        found typoMatch
          (mkStore (pre ++ map (λ re, mkRegExp re false 0) patterns ++ post)
             arrs coll)
    | None =>
        (tt, mkStore (pre ++ map (λ re, mkRegExp re false 0) patterns ++ post)
               arrs coll)
    end.
Proof.
  revert pre. induction patterns as [|re patterns IH]; intros pre; [done|].
  cbn [length seq Objects.imageRule.forTypo imageRule.firstTypo map app]. unfold bind, exec.
  cbn [regexps]. rewrite list_lookup_middle by done. cbn [global pattern].
  destruct (Re.exec re contextText 0) as [typoMatch|]; [done|].
  specialize (IH (pre ++ [mkRegExp re false 0])).
  rewrite length_app in IH. cbn [length] in IH. rewrite Nat.add_1_r in IH.
  rewrite <-app_assoc in IH. exact IH.
Qed.

(** The array of the typo patterns and the loop over it. *)
Lemma typoStep_run {B : Type} (document : TextDocument) (filePath : string)
    (contextText : string) (startSearchIndex : Z) (array : nat)
    (k : unit → M B) (s : Store) (ds : list Diagnostic) :
  arrays s !! array = Some ds →
  ∃ s',
    bind Objects.imageRule.newTypoMatches
      (λ typoMatches,
         bind (Objects.imageRule.forTypo typoMatches contextText
                 (λ typoMatch,
                    push array
                      (imageRule.typoDiagnostic document filePath
                         startSearchIndex typoMatch)))
              k) s
    = k tt s'
    ∧ pushed array
        match imageRule.firstTypo imageRule.typoMatches contextText with
        | Some typoMatch =>
            ds ++ [imageRule.typoDiagnostic document filePath startSearchIndex
                     typoMatch]
        | None => ds
        end s s'.
Proof.
  intros Hds. destruct s as [objects arrs coll].
  unfold Objects.imageRule.newTypoMatches. unfold bind at 1.
  rewrite newRegExps_run. cbn [app].
  set (s1 := mkStore (objects ++ _) arrs coll).
  assert (extends (mkStore objects arrs coll) s1) as H1.
  { split_and!; [done..|]. cbn [regexps]. by apply prefix_app_r. }
  assert (arrays s1 !! array = Some ds) as Hds1 by done.
  pose proof (forTypo_run imageRule.typoMatches contextText
                (λ typoMatch,
                   push array
                     (imageRule.typoDiagnostic document filePath
                        startSearchIndex typoMatch))
                objects [] arrs coll) as Hrun.
  rewrite app_nil_r in Hrun. fold s1 in Hrun.
  destruct (imageRule.firstTypo imageRule.typoMatches contextText)
    as [typoMatch|].
  - destruct (push_spec array
                (imageRule.typoDiagnostic document filePath startSearchIndex
                   typoMatch) ds s1 Hds1) as (s2 & Hpush & H2).
    rewrite Hpush in Hrun. exists s2. split.
    + by rewrite (bind_run _ _ _ _ _ Hrun).
    + by eapply extends_then_pushed.
  - exists s1. split.
    + by rewrite (bind_run _ _ _ _ _ Hrun).
    + by apply extends_pushed.
Qed.

End StoreFacts.

(** *** The mark rule *)

Section MarkRun.

Import StoreFacts.

Lemma findTotalQuestionMarks_run (text : string) (s : Objects.Store) :
  ∃ s',
    Objects.markRule.findTotalQuestionMarks text s
    = (markRule.findTotalQuestionMarks text, s')
    ∧ Objects.extends s s'.
Proof.
  unfold Objects.markRule.findTotalQuestionMarks.
  match goal with
  | |- context [Objects.whileExec _ _ _ ?body ?acc] =>
      destruct (scan_spec markRule.regex text body acc s) as (s' & -> & Hs)
  end.
  exists s'. split; [|done]. by rewrite fold_left_push_map.
Qed.

Lemma markRule_validate_run (document : TextDocument) (diagnostics : nat)
    (s : Objects.Store) (ds : list Diagnostic) :
  Objects.arrays s !! diagnostics = Some ds →
  ∃ s',
    Objects.markRule.validate document diagnostics s = (tt, s')
    ∧ Objects.pushed diagnostics (markRule.validate document ds) s s'.
Proof.
  intros Hds. unfold Objects.markRule.validate. cbn zeta.
  destruct (findTotalQuestionMarks_run (getText document) s) as (s1 & Hrun & H1).
  rewrite (bind_run _ _ _ _ _ Hrun).
  match goal with
  | |- context [Objects.forEach ?l ?body] =>
      destruct (forEach_pushed diagnostics body
                  (λ diagnostics m,
                     if negb (markRule.isCorrectMarkUsage (markRule.points m)
                                (markRule.term m))
                     then diagnostics ++
                            [markRule.createDiagnostic
                               (markRule.getMatchRange document m)
                               (markRule.points m)]
                     else diagnostics)
                  l) with (s := s1) (ds := ds) as (s2 & -> & H2)
  end.
  - intros m s0 ds0 Hds0. destruct (negb _).
    + by apply push_spec.
    + exists s0. split; [done | by apply pushed_refl].
  - by rewrite (extends_lookup _ _ _ H1).
  - exists s2. split; [done|]. by eapply extends_then_pushed.
Qed.

End MarkRun.

(** *** The image rule *)

Section ImageRun.

Import StoreFacts.

Variable path : PathModule.

Lemma findAllImages_run (text : string) (s : Objects.Store) :
  ∃ s',
    Objects.imageRule.findAllImages text s = (imageRule.findAllImages text, s')
    ∧ Objects.extends s s'.
Proof.
  unfold Objects.imageRule.findAllImages.
  match goal with
  | |- context [Objects.bind (Objects.whileExec _ _ _ ?body ?acc) ?k] =>
      destruct (scan_spec_bind imageRule.srcRegex text body acc k s)
        as (s1 & -> & H1)
  end.
  match goal with
  | |- context [Objects.whileExec _ _ _ ?body ?acc] =>
      destruct (scan_spec imageRule.scRegex text body acc s1) as (s2 & -> & H2)
  end.
  exists s2. split; [|by eapply extends_trans].
  by rewrite !fold_left_push_map.
Qed.

Lemma findImageTagTypos_run (document : TextDocument) (text : string)
    (images : list imageRule.Image) (diagnostics : nat) (s : Objects.Store)
    (ds : list Diagnostic) :
  Objects.arrays s !! diagnostics = Some ds →
  ∃ s',
    Objects.imageRule.findImageTagTypos document text images diagnostics s
    = (tt, s')
    ∧ Objects.pushed diagnostics
        (imageRule.findImageTagTypos document text images ds) s s'.
Proof.
  intros Hds. unfold Objects.imageRule.findImageTagTypos.
  match goal with
  | |- context [Objects.bind (Objects.whileExec _ _ _ ?body ?acc) ?k] =>
      destruct (scan_spec_bind imageRule.filesRegex text body acc k s)
        as (s1 & -> & H1)
  end.
  fold (imageRule.filesMatches text). unfold imageRule.findImageTagTypos.
  cbn zeta.
  assert (Objects.arrays s1 !! diagnostics = Some ds) as Hds1
    by (by rewrite (extends_lookup _ _ _ H1)).
  destruct (length (imageRule.filesMatches text) =? 0).
  { exists s1. split; [done|]. by apply extends_pushed. }
  match goal with
  | |- context [Objects.forEach ?l ?body] =>
      destruct (forEach_pushed diagnostics body
                  (imageRule.checkFilePath document text images) l)
        with (s := s1) (ds := ds) as (s2 & -> & H2)
  end.
  - clear. intros filePath s ds Hds. cbn zeta. unfold imageRule.checkFilePath.
    fold (imageRule.foundInCorrectTag images filePath).
    destruct (imageRule.foundInCorrectTag images filePath); cbn [negb].
    { exists s. split; [done | by apply pushed_refl]. }
    destruct (Js.indexOf text filePath) as [i|].
    2: { exists s. split; [done | by apply pushed_refl]. }
    cbn zeta.
    fold (imageRule.startSearchIndex (Z.of_nat i)).
    fold (imageRule.endSearchIndex text filePath (Z.of_nat i)).
    fold (imageRule.contextText text filePath (Z.of_nat i)).
    match goal with
    | |- context [Objects.bind (Objects.imageRule.forTypo _ _ _) ?k] =>
        destruct (typoStep_run document filePath
                    (imageRule.contextText text filePath (Z.of_nat i))
                    (imageRule.startSearchIndex (Z.of_nat i)) diagnostics k s ds
                    Hds) as (s1 & -> & H1)
    end.
    set (ds1 := match imageRule.firstTypo _ _ with
                | Some typoMatch => _
                | None => ds
                end) in *.
    assert (Objects.arrays s1 !! diagnostics = Some ds1) as Hds1
      by (by eapply pushed_lookup).
    unfold Objects.bind, Objects.elements. rewrite Hds1. cbn [default from_option].
    unfold id.
    fold (imageRule.covered document ds1 (Z.of_nat i)).
    destruct (imageRule.covered document ds1 (Z.of_nat i)); cbn [negb].
    + exists s1. split; [done|]. done.
    + destruct (push_spec diagnostics
                  (imageRule.outsideTagDiagnostic document filePath (Z.of_nat i))
                  ds1 s1 Hds1) as (s2 & -> & H2).
      exists s2. split; [done|]. by eapply pushed_trans.
  - done.
  - exists s2. split; [done|]. by eapply extends_then_pushed.
Qed.

Lemma validateFolderNames_run (document : TextDocument)
    (images : list imageRule.Image) (expectedFolderName : string)
    (diagnostics : nat) (s : Objects.Store) (ds : list Diagnostic) :
  Objects.arrays s !! diagnostics = Some ds →
  ∃ s',
    Objects.imageRule.validateFolderNames path document images
      expectedFolderName diagnostics s
    = (tt, s')
    ∧ Objects.pushed diagnostics
        (imageRule.validateFolderNames path document images expectedFolderName ds)
        s s'.
Proof.
  intros Hds. unfold Objects.imageRule.validateFolderNames.
  apply forEach_pushed; [|done].
  intros image s0 ds0 Hds0. cbn zeta. destruct (_ && _).
  - by apply push_spec.
  - exists s0. split; [done | by apply pushed_refl].
Qed.

Lemma collectNumbers_run (images : list imageRule.Image) (s : Objects.Store) :
  ∃ s',
    Objects.imageRule.collectNumbers images s
    = (imageRule.collectNumbers images, s')
    ∧ Objects.extends s s'.
Proof.
  unfold Objects.imageRule.collectNumbers, imageRule.collectNumbers.
  apply foldM_extends. intros acc image s0. cbn zeta.
  match goal with
  | |- context [Objects.bind (Objects.exec _ _) ?k] =>
      destruct (exec_fresh_local_bind imageRule.numberRegex
                  (imageRule.src image) k s0) as (s1 & -> & H1)
  end.
  exists s1. split; [|done]. unfold imageRule.imageNumber.
  by destruct (Re.exec imageRule.numberRegex (imageRule.src image) 0).
Qed.

Lemma checkDuplicates_run (document : TextDocument) (imageNumbers : list N)
    (imageMap : gmap N imageRule.Image) (diagnostics : nat)
    (s : Objects.Store) (ds : list Diagnostic) :
  Objects.arrays s !! diagnostics = Some ds →
  ∃ s',
    Objects.imageRule.checkDuplicates document imageNumbers imageMap
      diagnostics s
    = (tt, s')
    ∧ Objects.pushed diagnostics
        (imageRule.checkDuplicates document imageNumbers imageMap ds) s s'.
Proof.
  intros Hds.
  unfold Objects.imageRule.checkDuplicates, imageRule.checkDuplicates.
  cbn zeta. destruct (negb _).
  - apply forEach_pushed; [|done].
    intros entry s0 ds0 Hds0. cbn zeta.
    destruct (1 <? entry.2)%N.
    + destruct (imageMap !! _).
      * by apply push_spec.
      * exists s0. split; [done | by apply pushed_refl].
    + exists s0. split; [done | by apply pushed_refl].
  - exists s. split; [done | by apply pushed_refl].
Qed.

Lemma checkStart_run (document : TextDocument) (firstNumber : N)
    (imageMap : gmap N imageRule.Image) (diagnostics : nat)
    (s : Objects.Store) (ds : list Diagnostic) :
  Objects.arrays s !! diagnostics = Some ds →
  ∃ s',
    Objects.imageRule.checkStart document firstNumber imageMap diagnostics s
    = (tt, s')
    ∧ Objects.pushed diagnostics
        (imageRule.checkStart document firstNumber imageMap ds) s s'.
Proof.
  intros Hds. unfold Objects.imageRule.checkStart, imageRule.checkStart.
  destruct (negb _).
  - destruct (imageMap !! firstNumber).
    + by apply push_spec.
    + exists s. split; [done | by apply pushed_refl].
  - exists s. split; [done | by apply pushed_refl].
Qed.

Lemma checkSequence_run (document : TextDocument)
    (imageMap : gmap N imageRule.Image) (firstNumber : N) (rest : list N)
    (diagnostics : nat) (s : Objects.Store) (ds : list Diagnostic) :
  Objects.arrays s !! diagnostics = Some ds →
  ∃ s',
    Objects.imageRule.checkSequence document imageMap firstNumber rest
      diagnostics s
    = (tt, s')
    ∧ Objects.pushed diagnostics
        (imageRule.checkSequence document imageMap firstNumber rest ds) s s'.
Proof.
  intros Hds. unfold Objects.imageRule.checkSequence.
  match goal with
  | |- context [Objects.foldM ?body rest firstNumber] =>
      destruct (foldM_pushed diagnostics body
                  (λ p currentNum,
                     (currentNum,
                      if negb (currentNum =? p.1 + 1)%N then
                        match imageMap !! currentNum with
                        | Some image =>
                            p.2 ++ [imageRule.sequenceDiagnostic document image
                                      p.1 currentNum]
                        | None => p.2
                        end
                      else p.2))
                  rest) with (acc := firstNumber) (s := s) (ds := ds)
        as (s' & Hrun & Hpushed)
  end.
  - intros previous currentNum s0 ds0 Hds0. cbn [fst snd].
    destruct (negb _).
    + destruct (imageMap !! currentNum).
      * destruct (push_spec diagnostics
                    (imageRule.sequenceDiagnostic document i previous currentNum)
                    ds0 s0 Hds0) as (s1 & Hpush & H1).
        exists s1. split; [|done]. by rewrite (bind_run _ _ _ _ _ Hpush).
      * exists s0. split; [done | by apply pushed_refl].
    + exists s0. split; [done | by apply pushed_refl].
  - done.
  - exists s'. split; [by rewrite (bind_run _ _ _ _ _ Hrun)|].
    replace (imageRule.checkSequence document imageMap firstNumber rest ds)
      with (fold_left
              (λ p currentNum,
                 (currentNum,
                  if negb (currentNum =? p.1 + 1)%N then
                    match imageMap !! currentNum with
                    | Some image =>
                        p.2 ++ [imageRule.sequenceDiagnostic document image
                                  p.1 currentNum]
                    | None => p.2
                    end
                  else p.2)) rest (firstNumber, ds)).2; [done|].
    clear. revert firstNumber ds.
    induction rest as [|currentNum rest IH]; intros previous ds; [done|].
    cbn [fold_left imageRule.checkSequence fst snd]. apply IH.
Qed.

Lemma validateImageNumbering_run (document : TextDocument)
    (images : list imageRule.Image) (diagnostics : nat) (s : Objects.Store)
    (ds : list Diagnostic) :
  Objects.arrays s !! diagnostics = Some ds →
  ∃ s',
    Objects.imageRule.validateImageNumbering document images diagnostics s
    = (tt, s')
    ∧ Objects.pushed diagnostics
        (imageRule.validateImageNumbering document images ds) s s'.
Proof.
  intros Hds.
  unfold Objects.imageRule.validateImageNumbering,
    imageRule.validateImageNumbering.
  destruct (collectNumbers_run images s) as (s1 & Hrun & H1).
  rewrite (bind_run _ _ _ _ _ Hrun).
  assert (Objects.arrays s1 !! diagnostics = Some ds) as Hds1
    by (by rewrite (extends_lookup _ _ _ H1)).
  destruct (imageRule.collectNumbers images) as [imageNumbers imageMap].
  destruct (length imageNumbers =? 0).
  { exists s1. split; [done | by apply extends_pushed]. }
  cbn zeta.
  destruct (checkDuplicates_run document imageNumbers imageMap diagnostics s1 ds
              Hds1) as (s2 & Hdup & H2).
  rewrite (bind_run _ _ _ _ _ Hdup).
  assert (Objects.pushed diagnostics
            (imageRule.checkDuplicates document imageNumbers imageMap ds) s s2)
    as H2' by (by eapply extends_then_pushed).
  pose proof (pushed_lookup _ _ _ _ _ Hds1 H2) as Hds2.
  destruct (merge_sort N.le imageNumbers) as [|firstNumber rest].
  { by exists s2. }
  destruct (checkStart_run document firstNumber imageMap diagnostics s2 _ Hds2)
    as (s3 & Hstart & H3).
  rewrite (bind_run _ _ _ _ _ Hstart).
  pose proof (pushed_lookup _ _ _ _ _ Hds2 H3) as Hds3.
  destruct (checkSequence_run document imageMap firstNumber rest diagnostics s3
              _ Hds3) as (s4 & Hseq & H4).
  exists s4. split; [done|].
  eapply pushed_trans; [exact H2'|]. by eapply pushed_trans.
Qed.

Lemma imageRule_validate_run (document : TextDocument) (diagnostics : nat)
    (s : Objects.Store) (ds : list Diagnostic) :
  Objects.arrays s !! diagnostics = Some ds →
  ∃ s',
    Objects.imageRule.validate path document diagnostics s = (tt, s')
    ∧ Objects.pushed diagnostics (imageRule.validate path document ds) s s'.
Proof.
  intros Hds. unfold Objects.imageRule.validate, imageRule.validate. cbn zeta.
  destruct (findAllImages_run (getText document) s) as (s1 & Hrun & H1).
  rewrite (bind_run _ _ _ _ _ Hrun).
  assert (Objects.arrays s1 !! diagnostics = Some ds) as Hds1
    by (by rewrite (extends_lookup _ _ _ H1)).
  destruct (findImageTagTypos_run document (getText document)
              (imageRule.findAllImages (getText document)) diagnostics s1 ds
              Hds1) as (s2 & Htypos & H2).
  rewrite (bind_run _ _ _ _ _ Htypos).
  assert (Objects.pushed diagnostics
            (imageRule.findImageTagTypos document (getText document)
               (imageRule.findAllImages (getText document)) ds) s s2)
    as H2' by (by eapply extends_then_pushed).
  pose proof (pushed_lookup _ _ _ _ _ Hds1 H2) as Hds2.
  destruct (length _ =? 0).
  { by exists s2. }
  destruct (validateFolderNames_run document
              (imageRule.findAllImages (getText document))
              (parseName path (fileName document) +:+ "_files") diagnostics s2 _
              Hds2) as (s3 & Hfolders & H3).
  rewrite (bind_run _ _ _ _ _ Hfolders).
  pose proof (pushed_lookup _ _ _ _ _ Hds2 H3) as Hds3.
  destruct (validateImageNumbering_run document
              (imageRule.findAllImages (getText document)) diagnostics s3 _
              Hds3) as (s4 & Hnumbering & H4).
  exists s4. split; [done|].
  eapply pushed_trans; [exact H2'|]. by eapply pushed_trans.
Qed.

End ImageRun.

(** *** The pass *)

Section PassRun.

Import StoreFacts.

Variable path : PathModule.

(** [validateDocument] over the store does to the collection what
    [extension.validateDocument] says; it leaves the objects that the store
    held before as they were, and for an HTML-like document the array that
    it makes holds, in the end, the diagnostics of [extension.runAllRules]. *)
Lemma validateDocument_run (document : TextDocument) (s : Objects.Store) :
  ∃ s',
    Objects.extension.validateDocument path document s = (tt, s')
    ∧ Objects.collection s'
      = extension.validateDocument path document (Objects.collection s)
    ∧ Objects.regexps s `prefix_of` Objects.regexps s'
    ∧ Objects.arrays s'
      = Objects.arrays s
        ++ (if extension.isHtmlLike document
            then [extension.runAllRules path document] else []).
Proof.
  unfold Objects.extension.validateDocument, extension.validateDocument.
  destruct (extension.isHtmlLike document); cbn [negb].
  2: { exists s. by rewrite app_nil_r. }
  destruct s as [objects arrs coll]. unfold Objects.bind at 1.
  unfold Objects.newArray. cbn [Objects.regexps Objects.arrays Objects.collection].
  set (s1 := Objects.mkStore objects (arrs ++ [[]]) coll).
  assert (Objects.arrays s1 !! length arrs = Some []) as Hds1
    by apply lookup_last.
  destruct (markRule_validate_run document (length arrs) s1 [] Hds1)
    as (s2 & Hmark & H2).
  rewrite (bind_run _ _ _ _ _ Hmark).
  pose proof (pushed_lookup _ _ _ _ _ Hds1 H2) as Hds2.
  destruct (imageRule_validate_run path document (length arrs) s2 _ Hds2)
    as (s3 & Himage & H3).
  rewrite (bind_run _ _ _ _ _ Himage).
  pose proof (pushed_lookup _ _ _ _ _ Hds2 H3) as Hds3.
  pose proof (pushed_trans _ _ _ _ _ _ H2 H3) as (Harrays & Hcoll & Hobjects).
  eexists. split; [reflexivity|].
  cbn [Objects.regexps Objects.arrays Objects.collection].
  rewrite Hds3. cbn [default from_option]. unfold id.
  split_and!.
  - by rewrite Hcoll.
  - done.
  - rewrite Harrays. subst s1. cbn [Objects.arrays].
    replace (length arrs) with (length arrs + 0) by lia.
    by rewrite insert_app_r.
Qed.

(** C8. Validation is deterministic for a fixed snapshot.  Two runs of
    [validateDocument], written over the store of the objects that the
    source works on, for two HTML-like documents with the same text, the
    same names and the same positions, from any two stores (so also the
    second run from the store that the first run leaves, with its
    expression objects, its arrays and its collection): each run makes one
    new array, pushes to it the diagnostics of the mark rule and then those
    of the image rule, and stores it for the document, and the two arrays
    hold the same list, element for element.  The objects that a store held
    before the run are not changed by it. *)
Theorem validation_deterministic (d1 d2 : TextDocument)
    (s1 s2 : Objects.Store) :
  sameSnapshot d1 d2 →
  extension.isHtmlLike d1 = true →
  extension.isHtmlLike d2 = true →
  let s1' := (Objects.extension.validateDocument path d1 s1).2 in
  let s2' := (Objects.extension.validateDocument path d2 s2).2 in
  ∃ diagnostics,
    diagnostics = imageRule.validate path d1 (markRule.validate d1 [])
    ∧ Objects.collection s1' = <[uri d1 := diagnostics]> (Objects.collection s1)
    ∧ Objects.collection s2' = <[uri d2 := diagnostics]> (Objects.collection s2)
    ∧ Objects.arrays s1' = Objects.arrays s1 ++ [diagnostics]
    ∧ Objects.arrays s2' = Objects.arrays s2 ++ [diagnostics]
    ∧ Objects.regexps s1 `prefix_of` Objects.regexps s1'
    ∧ Objects.regexps s2 `prefix_of` Objects.regexps s2'.
Proof.
  intros Hsame Hhtml1 Hhtml2. cbn zeta.
  destruct (validateDocument_run d1 s1) as (s1' & -> & Hc1 & Hr1 & Ha1).
  destruct (validateDocument_run d2 s2) as (s2' & -> & Hc2 & Hr2 & Ha2).
  cbn [snd]. rewrite Hhtml1 in Ha1. rewrite Hhtml2 in Ha2.
  unfold extension.validateDocument in Hc1, Hc2.
  rewrite Hhtml1 in Hc1. rewrite Hhtml2 in Hc2. cbn [negb] in Hc1, Hc2.
  rewrite <-(runAllRules_same path d1 d2 Hsame) in Hc2, Ha2.
  exists (extension.runAllRules path d1). by split_and!.
Qed.

(** X24. The pass over the store of objects agrees with the pass over
    values, from every store: [validateDocument] changes the collection as
    [extension.validateDocument] says, leaves every expression object and
    every array that the store held as it was, and for an HTML-like document
    adds one array, which holds in the end the diagnostics of
    [extension.runAllRules] (for another document it adds none). *)
Theorem store_pass_agrees (document : TextDocument) (s : Objects.Store) :
  let s' := (Objects.extension.validateDocument path document s).2 in
  Objects.collection s'
  = extension.validateDocument path document (Objects.collection s)
  ∧ Objects.regexps s `prefix_of` Objects.regexps s'
  ∧ Objects.arrays s'
    = Objects.arrays s
      ++ (if extension.isHtmlLike document
          then [extension.runAllRules path document] else []).
Proof.
  cbn zeta. by destruct (validateDocument_run document s) as (s' & -> & H).
Qed.

End PassRun.

(** ** Further examples and witnesses *)

Section MoreInstances.

Import Examples MoreExamples.

Example run_nearTag :
  (λ d, (severity d, message d)) <$> extension.runAllRules Host.posix (lesson nearTag)
  = [ (Error, "Possible typo in image tag. Should be <img src="
              +:+ Js.dq +:+ "b_files/02.png" +:+ Js.dq +:+ ">");
      (Warning, "File path found outside a proper <img> tag. Check for HTML syntax errors.");
      (Warning, "Image source should be in " +:+ Js.dq +:+ "lesson5_files"
                +:+ Js.dq +:+ " folder") ].
Proof. vm_compute. reflexivity. Qed.


(** A plain-text document beside an entry of another document. *)
Lemma validateDocument_frame_witness :
  let collection : gmap string (list Diagnostic) :=
    {[ "file:///courses/other.html" := [] ]} in
  "file:///courses/other.html" ≠ uri (lesson noFinding)
  ∧ extension.isHtmlLike notes = false
  ∧ extension.validateDocument Host.posix (lesson noFinding) collection
      !! "file:///courses/other.html"
    = collection !! "file:///courses/other.html"
  ∧ extension.validateDocument Host.posix notes collection = collection.
Proof.
  cbn zeta.
  assert ("file:///courses/other.html" ≠ uri (lesson noFinding)) as Hne
    by (intros H; vm_compute in H; discriminate H).
  split; [exact Hne|]. split; [vm_compute; reflexivity|].
  split.
  - apply (validateDocument_frame Host.posix (lesson noFinding)). exact Hne.
  - destruct (validateDocument_frame Host.posix notes
                {[ "file:///courses/other.html" := [] ]}) as (_ & H & _).
    apply H. vm_compute. reflexivity.
Defined.

(** One image, whose path has no number. *)
Lemma numbering_ignores_unnumbered_witness :
  let image := imageRule.mkImage unnumbered "lesson5_files/cover.png" 0 false in
  imageRule.findAllImages unnumbered = [image]
  ∧ Forall (λ image, imageRule.imageNumber image = None) [image]
  ∧ imageRule.validateImageNumbering (lesson unnumbered) [image] [] = [].
Proof.
  cbn zeta. split; [vm_compute; reflexivity|].
  assert (Forall (λ image, imageRule.imageNumber image = None)
            [imageRule.mkImage unnumbered "lesson5_files/cover.png" 0 false])
    as Hnone.
  { constructor; [vm_compute; reflexivity | constructor]. }
  split; [exact Hnone|].
  apply (numbering_ignores_unnumbered (lesson unnumbered)). exact Hnone.
Defined.

(** The numbers 2 and 4: the smallest is 2, and the Warning is over the
    first tag. *)
Lemma numbering_start_warning_witness :
  let images := imageRule.findAllImages gapped in
  imageNumbers images = [2; 4]%N
  ∧ forallb Js.isSafeInteger (imageNumbers images) = true
  ∧ ∃ emitted,
      imageRule.validateImageNumbering (lesson gapped) images [] = emitted
      ∧ filter (λ d, message d = "Image numbering should start with 01, found 02")
               emitted
        = [mkDiagnostic (mkRange (mkPosition 0 0) (mkPosition 0 32))
             "Image numbering should start with 01, found 02"
             Warning validatorSource None].
Proof.
  cbn zeta.
  assert (imageNumbers (imageRule.findAllImages gapped) = [2; 4]%N) as Hids
    by (vm_compute; reflexivity).
  split; [exact Hids|].
  assert (forallb Js.isSafeInteger (imageNumbers (imageRule.findAllImages gapped))
          = true) as Hsafe by (vm_compute; reflexivity).
  split; [exact Hsafe|].
  destruct (numbering_start_warning (lesson gapped)
              (imageRule.findAllImages gapped) [] 2 Hsafe)
    as (image & emitted & Himage & Hemitted & Hstart & _).
  - rewrite Hids. left.
  - rewrite Hids. intros n Hn.
    apply elem_of_cons in Hn as [->|Hn]; [lia|].
    apply list_elem_of_singleton in Hn as ->. lia.
  - exists emitted. split; [exact Hemitted|].
    assert (image = imageRule.mkImage (img "lesson5_files/02.png")
                      "lesson5_files/02.png" 0 false) as ->
      by (vm_compute in Himage; injection Himage as <-; reflexivity).
    exact (Hstart ltac:(lia)).
Defined.

(** The numbers 2 and 4: 4 follows 2, and 3 is missing; the Warning is over
    the second tag. *)
Lemma numbering_gap_warning_witness :
  let images := imageRule.findAllImages gapped in
  imageNumbers images = [2; 4]%N
  ∧ forallb Js.isSafeInteger (imageNumbers images) = true
  ∧ mkDiagnostic (mkRange (mkPosition 0 32) (mkPosition 0 64))
      "Image numbering is not sequential. Expected 03, found 04"
      Warning validatorSource None
    ∈ imageRule.validateImageNumbering (lesson gapped) images [].
Proof.
  cbn zeta.
  assert (imageNumbers (imageRule.findAllImages gapped) = [2; 4]%N) as Hids
    by (vm_compute; reflexivity).
  split; [exact Hids|].
  assert (forallb Js.isSafeInteger (imageNumbers (imageRule.findAllImages gapped))
          = true) as Hsafe by (vm_compute; reflexivity).
  split; [exact Hsafe|].
  destruct (numbering_gap_warning (lesson gapped)
              (imageRule.findAllImages gapped) [] 2 4 Hsafe)
    as (image & emitted & Himage & Hemitted & Hin).
  - rewrite Hids. left.
  - rewrite Hids. right. left.
  - lia.
  - rewrite Hids. intros n Hn.
    apply elem_of_cons in Hn as [->|Hn]; [lia|].
    apply list_elem_of_singleton in Hn as ->. lia.
  - lia.
  - cbn [app] in Hemitted. rewrite Hemitted.
    assert (image = imageRule.mkImage (img "lesson5_files/04.png")
                      "lesson5_files/04.png" 32 false) as ->
      by (vm_compute in Himage; injection Himage as <-; reflexivity).
    exact Hin.
Defined.

(** The only reference of the text is the path of its well-formed tag. *)
Lemma typo_check_silent_witness :
  let images := imageRule.findAllImages wrongFolder in
  (Re.matched <$> Re.execAll imageRule.filesRegex wrongFolder)
  = ["wrong_files/01.png"]
  ∧ imageRule.src <$> images = ["wrong_files/01.png"]
  ∧ imageRule.findImageTagTypos (lesson wrongFolder) wrongFolder images [] = [].
Proof.
  cbn zeta. split; [vm_compute; reflexivity|]. split; [vm_compute; reflexivity|].
  apply (typo_check_silent (lesson wrongFolder)).
  intros m Hm. vm_compute in Hm. apply list_elem_of_singleton in Hm as ->.
  exists (imageRule.mkImage wrongFolder "wrong_files/01.png" 0 false).
  split; [vm_compute; left | vm_compute; reflexivity].
Defined.

(** The image in the folder [wrong_files]: the fix names [lesson5_files]. *)
Lemma folder_fix_changes_tag_witness :
  let image := imageRule.mkImage wrongFolder "wrong_files/01.png" 0 false in
  image ∈ imageRule.findAllImages (getText (lesson wrongFolder))
  ∧ Js.includes (imageRule.src image) "lesson5_files" = false
  ∧ ∃ newText,
      code (imageRule.folderDiagnostic Host.posix (lesson wrongFolder) image
              "lesson5_files")
      = Some (mkCode "fix-image-folder"
                (mkCommandUri fixCommand (uri (lesson wrongFolder))
                   (imageRule.getMatchRange (lesson wrongFolder) image) newText))
      ∧ newText ≠ imageRule.fullMatch image.
Proof.
  cbn zeta.
  assert (imageRule.mkImage wrongFolder "wrong_files/01.png" 0 false
          ∈ imageRule.findAllImages (getText (lesson wrongFolder))) as Hin
    by (vm_compute; left).
  split; [exact Hin|]. split; [vm_compute; reflexivity|].
  apply (folder_fix_changes_tag Host.posix (lesson wrongFolder));
    [exact Hin | reflexivity | vm_compute; reflexivity..].
Defined.

(** The tag [<im src=...>]: the match of the first pattern spans the tag up
    to the closing quote. *)
Lemma typo_range_in_window_witness :
  Js.indexOf typo "lesson5_files/01.png" = Some 9
  ∧ ∃ typoMatch,
      imageRule.firstTypo imageRule.typoMatches
        (imageRule.contextText typo "lesson5_files/01.png" 9) = Some typoMatch
      ∧ ∃ a b : nat,
          range (imageRule.typoDiagnostic (lesson typo) "lesson5_files/01.png"
                   (imageRule.startSearchIndex 9) typoMatch)
          = newRange (positionAt (lesson typo) (Z.of_nat a))
                     (positionAt (lesson typo) (Z.of_nat b))
          ∧ 9 - 50 ≤ a
          ∧ a + 8 ≤ b
          ∧ b ≤ 9 + String.length "lesson5_files/01.png" + 50
          ∧ b ≤ String.length typo
          ∧ Js.substring a b typo = Re.matched typoMatch.
Proof.
  split; [vm_compute; reflexivity|].
  eexists. split; [vm_compute; reflexivity|].
  apply (typo_range_in_window (lesson typo) typo "lesson5_files/01.png" 9);
    vm_compute; reflexivity.
Defined.

(** The annotation [3 mark]. *)
Lemma annotation_wrongUnit : annotationText wrongUnit "3" "mark".
Proof.
  exists "<p", " ",
    ("align=" +:+ Js.dq +:+ "right" +:+ Js.dq +:+ "><b>(Total for question"),
    " ", " ", " ", ")</b></p>".
  split_and!; try done. by left.
Qed.

Lemma wrong_annotation_reported_witness :
  getText (lesson wrongUnit) = "" +:+ wrongUnit +:+ ""
  ∧ annotationText wrongUnit "3" "mark"
  ∧ markRule.isCorrectMarkUsage (Js.parseInt "3") (Js.toLowerCase "mark") = false
  ∧ markRule.createDiagnostic
      (newRange (positionAt (lesson wrongUnit) (Z.of_nat (String.length "")))
                (positionAt (lesson wrongUnit)
                   (Z.of_nat (String.length "" + String.length wrongUnit))))
      (Js.parseInt "3")
    ∈ markRule.validate (lesson wrongUnit) [].
Proof.
  split; [vm_compute; reflexivity|]. split; [exact annotation_wrongUnit|].
  split; [vm_compute; reflexivity|].
  apply (wrong_annotation_reported (lesson wrongUnit) [] "" wrongUnit "" "3" "mark");
    [vm_compute; reflexivity | exact annotation_wrongUnit | vm_compute; reflexivity].
Defined.

(** The record of the annotation [3 mark]. *)
Lemma findTotalQuestionMarks_iff_witness :
  let m := markRule.mkMatch wrongUnit 3 "mark" 0 in
  Js.isSafeInteger (markRule.points m) = true
  ∧ m ∈ markRule.findTotalQuestionMarks wrongUnit
  ∧ ∃ pre u rest number unit,
      wrongUnit = pre +:+ u +:+ rest
      ∧ annotationText u number unit
      ∧ m = markRule.mkMatch u (Js.parseInt number) (Js.toLowerCase unit)
              (String.length pre).
Proof.
  cbn zeta. split; [reflexivity|].
  assert (markRule.mkMatch wrongUnit 3 "mark" 0
          ∈ markRule.findTotalQuestionMarks wrongUnit) as Hin
    by (vm_compute; left).
  split; [exact Hin|].
  exact (proj1 (findTotalQuestionMarks_iff wrongUnit
                  (markRule.mkMatch wrongUnit 3 "mark" 0) eq_refl) Hin).
Defined.

Lemma fix_repairs_annotation_witness :
  wrongUnit = "" +:+ wrongUnit +:+ ""
  ∧ annotationText wrongUnit "3" "mark"
  ∧ Js.parseInt "3" = 3%N
  ∧ Js.isSafeInteger (Js.parseInt "3") = true
  ∧ replaceRange wrongUnit 0 (String.length wrongUnit)
      (markRule.createCorrectedText 3)
    = annotation "3" "marks"
  ∧ filter (λ m, markRule.index m = 0)
      (markRule.findTotalQuestionMarks (annotation "3" "marks"))
    = [markRule.mkMatch (annotation "3" "marks") 3 "marks" 0].
Proof.
  split; [vm_compute; reflexivity|]. split; [exact annotation_wrongUnit|].
  split; [vm_compute; reflexivity|]. split; [vm_compute; reflexivity|].
  destruct (fix_repairs_annotation wrongUnit "" wrongUnit "" "3" "mark")
    as (Hfixed & Hfilter & _);
    [vm_compute; reflexivity | exact annotation_wrongUnit
    | vm_compute; reflexivity | vm_compute; discriminate |].
  split; [vm_compute; reflexivity|]. exact Hfilter.
Defined.

(** A tag with [sc] in front of a tag with [src]: the [src] match, at
    offset 12, stands before the [sc] match, at offset 0. *)
Lemma findAllImages_order_witness :
  let text := "<img sc=" +:+ Js.dq +:+ "a" +:+ Js.dq +:+ ">" +:+ img "b" in
  ∃ canonical nearMiss,
    imageRule.findAllImages text = canonical ++ nearMiss
    ∧ scanOf "src" false text canonical
    ∧ scanOf "sc" true text nearMiss
    ∧ canonical = [imageRule.mkImage (img "b") "b" 12 false]
    ∧ nearMiss
      = [imageRule.mkImage ("<img sc=" +:+ Js.dq +:+ "a" +:+ Js.dq +:+ ">")
           "a" 0 true]
    ∧ (imageRule.index <$> imageRule.findAllImages text) = [12; 0].
Proof.
  cbn zeta.
  destruct (findAllImages_order
              ("<img sc=" +:+ Js.dq +:+ "a" +:+ Js.dq +:+ ">" +:+ img "b"))
    as (canonical & nearMiss & Heq & Hsrc & Hsc & _).
  exists canonical, nearMiss.
  split; [exact Heq|]. split; [exact Hsrc|]. split; [exact Hsc|].
  destruct Hsrc as (Hsrc & _), Hsc as (Hsc & _).
  assert (imageRule.findAllImages
            ("<img sc=" +:+ Js.dq +:+ "a" +:+ Js.dq +:+ ">" +:+ img "b")
          = [imageRule.mkImage (img "b") "b" 12 false;
             imageRule.mkImage ("<img sc=" +:+ Js.dq +:+ "a" +:+ Js.dq +:+ ">")
               "a" 0 true]) as Hrun by (vm_compute; reflexivity).
  rewrite Hrun in Heq. rewrite Hrun.
  destruct canonical as [|c [|c' canonical]]; simplify_eq/=.
  - apply Forall_inv in Hsc as [Hflag _]. discriminate Hflag.
  - done.
  - apply Forall_inv_tail, Forall_inv in Hsrc as [Hflag _]. discriminate Hflag.
Defined.

(** The tag of the image in [wrong_files]. *)
Lemma imageTag_wrongFolder : imageTag "src" wrongFolder "wrong_files/01.png".
Proof. exists "<img", " ", "", "src", "". split_and!; done. Qed.

Lemma image_scan_covers_witness :
  wrongFolder = "" +:+ wrongFolder +:+ ""
  ∧ imageTag "src" wrongFolder "wrong_files/01.png"
  ∧ ∃ image,
      image ∈ imageRule.findAllImages wrongFolder
      ∧ imageRule.hasScAttribute image = false
      ∧ imageRule.index image ≤ String.length ""
      ∧ String.length ""
        < imageRule.index image + String.length (imageRule.fullMatch image).
Proof.
  split; [vm_compute; reflexivity|]. split; [exact imageTag_wrongFolder|].
  apply (image_scan_covers wrongFolder "" wrongFolder "" "wrong_files/01.png"
           false); [vm_compute; reflexivity | exact imageTag_wrongFolder].
Defined.

(** A well-formed tag of one image, and the path of another image after
    it: the tag is reported as a typo, with a fix that names the other
    path. *)
Lemma imageTag_nearTag : imageTag "src" (img "a_files/01.png") "a_files/01.png".
Proof. exists "<img", " ", "", "src", "". split_and!; done. Qed.

Lemma typo_check_flags_wellformed_tag_witness :
  let images := imageRule.findAllImages nearTag in
  imageRule.src <$> images = ["a_files/01.png"]
  ∧ imageRule.foundInCorrectTag images "b_files/02.png" = false
  ∧ Js.indexOf nearTag "b_files/02.png" = Some 31
  ∧ imageRule.contextText nearTag "b_files/02.png" 31
    = "" +:+ img "a_files/01.png" +:+ " and b_files/02.png"
  ∧ ∃ typoMatch warning,
      imageRule.firstTypo imageRule.typoMatches
        (imageRule.contextText nearTag "b_files/02.png" 31) = Some typoMatch
      ∧ imageRule.checkFilePath (lesson nearTag) nearTag images []
          "b_files/02.png"
        = [] ++ imageRule.typoDiagnostic (lesson nearTag) "b_files/02.png"
                  (imageRule.startSearchIndex 31) typoMatch :: warning
      ∧ (warning = []
         ∨ warning = [imageRule.outsideTagDiagnostic (lesson nearTag)
                        "b_files/02.png" 31]).
Proof.
  cbn zeta. split; [vm_compute; reflexivity|]. split; [vm_compute; reflexivity|].
  split; [vm_compute; reflexivity|]. split; [vm_compute; reflexivity|].
  apply (typo_check_flags_wellformed_tag (lesson nearTag) nearTag
           (imageRule.findAllImages nearTag) [] "b_files/02.png" 31 ""
           (img "a_files/01.png") " and b_files/02.png" "a_files/01.png");
    [vm_compute; reflexivity.. | exact imageTag_nearTag].
Defined.

(** The malformed tag of the example: the match of the first pattern stops
    at the closing quote, at offset 30 of 31, and the fix over this span
    leaves the [>] of the malformed tag behind the corrected tag. *)
Lemma typo_match_ends_at_quote_witness :
  imageRule.firstTypo imageRule.typoMatches typo
  = Some (Re.Result 0
            ("<im src=" +:+ Js.dq +:+ "lesson5_files/01.png" +:+ Js.dq) [])
  ∧ String.length typo = 31
  ∧ (∃ head value,
       "<im src=" +:+ Js.dq +:+ "lesson5_files/01.png" +:+ Js.dq
       = head +:+ "=" +:+ Js.dq +:+ value +:+ Js.dq
       ∧ allChars Js.notGt head = true
       ∧ allChars Js.notDq value = true)
  ∧ replaceRange typo 0 30 (img "lesson5_files/01.png")
    = img "lesson5_files/01.png" +:+ ">".
Proof.
  assert (imageRule.firstTypo imageRule.typoMatches typo
          = Some (Re.Result 0
                    ("<im src=" +:+ Js.dq +:+ "lesson5_files/01.png" +:+ Js.dq)
                    [])) as Hfirst by (vm_compute; reflexivity).
  split; [exact Hfirst|]. split; [vm_compute; reflexivity|].
  split; [exact (typo_match_ends_at_quote typo _ Hfirst)|].
  vm_compute. reflexivity.
Defined.

(** The same text under two language identifiers, validated twice: the
    first run from a store without objects, the second from the store that
    the first run leaves. *)
Lemma validation_deterministic_witness :
  let d1 := Host.document "/courses/lesson5.html" "html" numbered in
  let d2 := Host.document "/courses/lesson5.html" "php" numbered in
  let s1 := Objects.mkStore [] [] ∅ in
  let s2 := (Objects.extension.validateDocument Host.posix d1 s1).2 in
  let s2' := (Objects.extension.validateDocument Host.posix d2 s2).2 in
  let diagnostics :=
    [ mkDiagnostic (mkRange (mkPosition 0 64) (mkPosition 0 96))
        "Duplicate image number: 2 is used 2 times" Error validatorSource None;
      mkDiagnostic (mkRange (mkPosition 0 64) (mkPosition 0 96))
        "Image numbering is not sequential. Expected 03, found 02"
        Warning validatorSource None ] in
  sameSnapshot d1 d2
  ∧ extension.isHtmlLike d1 = true
  ∧ extension.isHtmlLike d2 = true
  ∧ Objects.collection s2 !! "file:///courses/lesson5.html" = Some diagnostics
  ∧ Objects.collection s2' !! "file:///courses/lesson5.html" = Some diagnostics
  ∧ Objects.arrays s2' = [diagnostics; diagnostics]
  ∧ length (Objects.regexps s2) = 8
  ∧ length (Objects.regexps s2') = 16.
Proof.
  cbn zeta.
  assert (sameSnapshot (Host.document "/courses/lesson5.html" "html" numbered)
            (Host.document "/courses/lesson5.html" "php" numbered)) as Hsame
    by (by split_and!).
  split; [exact Hsame|]. split; [reflexivity|]. split; [reflexivity|].
  destruct (validation_deterministic Host.posix
              (Host.document "/courses/lesson5.html" "html" numbered)
              (Host.document "/courses/lesson5.html" "php" numbered)
              (Objects.mkStore [] [] ∅)
              (Objects.extension.validateDocument Host.posix
                 (Host.document "/courses/lesson5.html" "html" numbered)
                 (Objects.mkStore [] [] ∅)).2
              Hsame eq_refl eq_refl)
    as (diagnostics & Hd & Hc1 & Hc2 & Ha1 & Ha2 & _).
  assert (diagnostics
          = [ mkDiagnostic (mkRange (mkPosition 0 64) (mkPosition 0 96))
                "Duplicate image number: 2 is used 2 times" Error
                validatorSource None;
              mkDiagnostic (mkRange (mkPosition 0 64) (mkPosition 0 96))
                "Image numbering is not sequential. Expected 03, found 02"
                Warning validatorSource None ]) as Hlist
    by (rewrite Hd; vm_compute; reflexivity).
  rewrite Hc2, Ha2, Ha1, Hc1, Hlist.
  split; [by rewrite lookup_insert_eq|].
  split; [by rewrite lookup_insert_eq|].
  split; [reflexivity|].
  split; vm_compute; reflexivity.
Defined.

End MoreInstances.
